(** * CPU scheduling simulators: FCFS (pid.cpp) and SJF / SRTF (sjf.cpp)

    A shallow embedding of the two programs of [SoftwareEngineering/]:
    the parallel [vector<int>] arrays become [list Z] read with [!!!] and
    written with [<[i:=x]>]; an [int] is a [Z] whose additions and
    subtractions go through [wrap32]; the [for] loops over [0 .. n-1] are
    folds over [seq]; the two [while] loops of sjf.cpp take fuel; a [float]
    is a binary32 [spec_float]. *)

From stdpp Require Import base list strings.
From Stdlib Require Import ZArith Lia SpecFloat.

Open Scope Z_scope.

(** ** Machine integers *)

Definition INT_MAX : Z := 2147483647.

(** Two's complement reduction of a mathematical integer to a 32-bit [int]. *)
Definition wrap32 (z : Z) : Z := (z + 2147483648) mod 4294967296 - 2147483648.

Definition add32 (a b : Z) : Z := wrap32 (a + b).
Definition sub32 (a b : Z) : Z := wrap32 (a - b).

Definition in_int (z : Z) : Prop := -2147483648 <= z <= INT_MAX.

(** ** Arrays *)

(** [std::swap(a[i], a[j])]. *)
Definition swap {A} `{Inhabited A} (l : list A) (i j : nat) : list A :=
  <[j := l !!! i]> (<[i := l !!! j]> l).

Definition list_sum_Z (l : list Z) : Z := foldr Z.add 0 l.
Definition list_max_Z (l : list Z) : Z := foldr Z.max 0 l.

(** Inputs the programs are meant for: arrival times are not negative,
    burst times are positive, and the clock, which never passes the last
    arrival plus the total burst time, stays inside [int]. *)
Record valid_input (n : nat) (arrival burst : list Z) : Prop := {
  valid_len_at : length arrival = n;
  valid_len_bt : length burst = n;
  valid_at : Forall (fun a => 0 <= a) arrival;
  valid_bt : Forall (fun b => 0 < b) burst;
  valid_range : list_max_Z arrival + list_sum_Z burst <= INT_MAX
}.

(** ** The minimum scan shared by the two branches of sjf.cpp

    [for (i = 0; i < n; i++) if (ok(i) && key(i) < min) { min = key(i); idx = i; }]
    with the accumulator [(idx, min)]. *)
Definition min_scan_step (ok : nat -> bool) (key : nat -> Z)
    (acc : option nat * Z) (i : nat) : option nat * Z :=
  if ok i && (key i <? acc.2) then (Some i, key i) else acc.

(** What the accumulator holds after the indices below [k]. *)
Definition min_scan_result (ok : nat -> bool) (key : nat -> Z) (sentinel : Z)
    (k : nat) (acc : option nat * Z) : Prop :=
  match acc.1 with
  | None =>
      acc.2 = sentinel /\
      forall j, (j < k)%nat -> ok j = true -> sentinel <= key j
  | Some i =>
      (i < k)%nat /\ ok i = true /\ acc.2 = key i /\ key i < sentinel /\
      (forall j, (j < k)%nat -> ok j = true -> key i <= key j) /\
      (forall j, (j < i)%nat -> ok j = true -> key i < key j)
  end.

(** * pid.cpp: first come, first served *)

Module Fcfs.

(** The three input arrays [pid], [at], [bt] ([at] is a keyword here). *)
Record procs := Procs { pid : list Z; at_ : list Z; bt : list Z }.

(** The result arrays and the clock of the simulation loop. *)
Record sim := Sim { time : Z; ct : list Z; tat : list Z; wt : list Z }.

(** [pid[i] = i + 1] for [i = 0 .. n-1]. *)
Definition init_pid (n : nat) : list Z := (fun i => Z.of_nat i + 1) <$> seq 0 n.

(** Body of the inner loop, lines 28-32. *)
Definition sort_inner_body (i : nat) (p : procs) (j : nat) : procs :=
  if at_ p !!! i >? at_ p !!! j
  then {| pid := swap (pid p) i j; at_ := swap (at_ p) i j; bt := swap (bt p) i j |}
  else p.

(** [for (int j = i + 1; j < n; j++)]. *)
Definition sort_outer_body (n : nat) (p : procs) (i : nat) : procs :=
  fold_left (sort_inner_body i) (seq (S i) (n - S i)) p.

(** [for (int i = 0; i < n - 1; i++)], lines 26-34. *)
Definition sort_by_arrival (n : nat) (p : procs) : procs :=
  fold_left (sort_outer_body n) (seq 0 (n - 1)) p.

(** Body of the simulation loop, lines 40-50 (the [float] totals, which no
    array depends on, are added in [FcfsFloat]). *)
Definition sim_body (p : procs) (s : sim) (i : nat) : sim :=
  let time1 := if time s <? at_ p !!! i then at_ p !!! i else time s in
  let ct1 := <[i := add32 time1 (bt p !!! i)]> (ct s) in
  let wt1 := <[i := sub32 (ct1 !!! i) (add32 (at_ p !!! i) (bt p !!! i))]> (wt s) in
  let tat1 := <[i := sub32 (ct1 !!! i) (at_ p !!! i)]> (tat s) in
  {| time := ct1 !!! i; ct := ct1; tat := tat1; wt := wt1 |}.

(** [vector<int> ct(n), tat(n), wt(n)] are zero-filled; [int time = 0]. *)
Definition init_sim (n : nat) : sim :=
  {| time := 0; ct := replicate n 0; tat := replicate n 0; wt := replicate n 0 |}.

Definition simulate (n : nat) (p : procs) : sim :=
  fold_left (sim_body p) (seq 0 n) (init_sim n).

(** The program from the end of input to the table: the sorted arrays and
    the computed ones. *)
Definition fcfs (n : nat) (arrival burst : list Z) : procs * sim :=
  let p := sort_by_arrival n {| pid := init_pid n; at_ := arrival; bt := burst |} in
  (p, simulate n p).

(** The records as the table prints them, one row per index. *)
Definition rows (p : procs) : list (Z * (Z * Z)) := zip (pid p) (zip (at_ p) (bt p)).

(** Records with the same arrival time appear in the order of their ids. *)
Definition stable_by_id (n : nat) (p : procs) : Prop :=
  forall i j, (i < j < n)%nat -> at_ p !!! i = at_ p !!! j -> pid p !!! i < pid p !!! j.

Definition nondecreasing (n : nat) (l : list Z) : Prop :=
  forall i j, (i <= j < n)%nat -> l !!! i <= l !!! j.

(** The clock recurrence in the words of the specification: over the rows
    (arrival, burst) in order, [clock = max clock arrival], then
    [completion = clock + burst], then [clock = completion]. *)
Fixpoint completion_spec (clock : Z) (r : list (Z * Z)) : list Z :=
  match r with
  | [] => []
  | (a, b) :: r' => let c := Z.max clock a + b in c :: completion_spec c r'
  end.

Definition well_sized (n : nat) (p : procs) : Prop :=
  length (pid p) = n /\ length (at_ p) = n /\ length (bt p) = n.

(** Everything before position [i] is in place: at most any later entry. *)
Definition prefix_placed (n i : nat) (l : list Z) : Prop :=
  forall k m, (k < i)%nat -> (k <= m < n)%nat -> l !!! k <= l !!! m.

(** The clock after the rows [r], started at [clock]. *)
Definition final_clock (clock : Z) (r : list (Z * Z)) : Z :=
  fold_left (fun c '(a, b) => Z.max c a + b) r clock.

(** What the table satisfies on row [i]. *)
Definition metrics_ok (p : procs) (s : sim) (i : nat) : Prop :=
  tat s !!! i = ct s !!! i - at_ p !!! i /\
  wt s !!! i = tat s !!! i - bt p !!! i /\
  0 <= wt s !!! i /\
  bt p !!! i <= tat s !!! i.

Definition sim_inv (n : nat) (p : procs) (k : nat) (s : sim) : Prop :=
  length (ct s) = n /\ length (tat s) = n /\ length (wt s) = n /\
  take k (ct s) = completion_spec 0 (take k (zip (at_ p) (bt p))) /\
  time s = final_clock 0 (take k (zip (at_ p) (bt p))) /\
  0 <= time s /\
  time s + list_sum_Z (drop k (bt p)) <= list_max_Z (at_ p) + list_sum_Z (bt p) /\
  forall i, (i < k)%nat -> metrics_ok p s i.

End Fcfs.

(** * sjf.cpp: shortest job first, with and without preemption *)

Module Sjf.

(** [int minBT = 1e9] and [int minRT = 1e9]. *)
Definition SENTINEL : Z := 1000000000.

(** One printed line of the table: pid, at, bt, ct, tat, wt. *)
Definition row : Type := Z * Z * Z * Z * Z * Z.

(** What [main] prints after the prompts. The two averages are [float]
    quotients, modelled apart in [SjfFloat]. *)
Inductive output :=
| Message (text : string)
| Report (table : list row).

(** ** First branch, [choice == 1], lines 30-61 *)

Module NonPreemptive.

(** [stores] is a ghost history: the assignments [ct[idx] = time] of line
    51, oldest first, each with the index and the value stored. *)
Record state := State {
  time : Z;
  completed : Z;
  done : list bool;
  ct : list Z;
  tat : list Z;
  wt : list Z;
  stores : list (nat * Z)
}.

Section Branch.
Variable n : nat.
Variables at_ bt : list Z.

(** Body of the scan of lines 38-43; the accumulator is [(idx, minBT)],
    with [None] for [idx == -1]. *)
Definition scan_body (time : Z) (done : list bool)
    (acc : option nat * Z) (i : nat) : option nat * Z :=
  if (at_ !!! i <=? time) && negb (done !!! i) && (bt !!! i <? acc.2)
  then (Some i, bt !!! i)
  else acc.

Definition select (time : Z) (done : list bool) : option nat :=
  (fold_left (scan_body time done) (seq 0 n) (None, SENTINEL)).1.

(** One turn of the [while] loop, lines 35-59. *)
Definition body (s : state) : state :=
  match select (time s) (done s) with
  | None =>
      State (add32 (time s) 1) (completed s) (done s) (ct s) (tat s) (wt s) (stores s)
  | Some idx =>
      let time1 := add32 (time s) (bt !!! idx) in
      let ct1 := <[idx := time1]> (ct s) in
      let tat1 := <[idx := sub32 (ct1 !!! idx) (at_ !!! idx)]> (tat s) in
      let wt1 := <[idx := sub32 (tat1 !!! idx) (bt !!! idx)]> (wt s) in
      State time1 (add32 (completed s) 1) (<[idx := true]> (done s))
            ct1 tat1 wt1 (stores s ++ [(idx, time1)])
  end.

(** [while (completed < n)], with fuel: [None] when the fuel runs out
    before the loop condition fails. *)
Fixpoint loop (fuel : nat) (s : state) : option state :=
  if completed s <? Z.of_nat n then
    match fuel with
    | O => None
    | S fuel' => loop fuel' (body s)
    end
  else Some s.

(** [vector<bool> done(n, false); int time = 0, completed = 0;] over the
    zero-filled [ct], [tat], [wt]. *)
Definition init : state :=
  State 0 0 (replicate n false) (replicate n 0) (replicate n 0) (replicate n 0) [].

(** A record that has arrived and is not completed. *)
Definition eligible (time : Z) (done : list bool) (i : nat) : Prop :=
  (i < n)%nat /\ at_ !!! i <= time /\ done !!! i = false.

(** The choice in the words of the specification: minimum burst time,
    ties broken by earliest arrival, then by lowest id (index). *)
Definition spec_choice (time : Z) (done : list bool) (i : nat) : Prop :=
  eligible time done i /\
  forall j, eligible time done j ->
    bt !!! i < bt !!! j \/
    (bt !!! i = bt !!! j /\
     (at_ !!! i < at_ !!! j \/ (at_ !!! i = at_ !!! j /\ (i <= j)%nat))).

(** The claim about the scan as the specification words it. *)
Definition selects_as_specified (time : Z) (done : list bool) : Prop :=
  (exists j, eligible time done j) ->
  exists i, select time done = Some i /\ spec_choice time done i.

(** The choice the scan makes: the first index of minimum burst time
    among the eligible records below the sentinel. *)
Definition scan_choice (time : Z) (done : list bool) (i : nat) : Prop :=
  eligible time done i /\ bt !!! i < SENTINEL /\
  (forall j, eligible time done j -> bt !!! i <= bt !!! j) /\
  (forall j, eligible time done j -> bt !!! j = bt !!! i -> (i <= j)%nat).

Definition metrics_ok (s : state) (i : nat) : Prop :=
  tat s !!! i = ct s !!! i - at_ !!! i /\
  wt s !!! i = tat s !!! i - bt !!! i /\
  0 <= wt s !!! i /\
  bt !!! i <= tat s !!! i.

(** Burst time still to be served. *)
Definition pending (done : list bool) : Z :=
  list_sum_Z (zip_with (fun (d : bool) b => if d then 0 else b) done bt).

Definition inv (s : state) : Prop :=
  length (done s) = n /\ length (ct s) = n /\ length (tat s) = n /\
  length (wt s) = n /\
  0 <= time s /\
  time s + pending (done s) <= list_max_Z at_ + list_sum_Z bt /\
  completed s = Z.of_nat (length (stores s)) /\
  NoDup (stores s).*1 /\
  (forall i, (i < n)%nat -> done s !!! i = true <-> i ∈ (stores s).*1) /\
  (forall i, i ∈ (stores s).*1 -> (i < n)%nat) /\
  (forall i v, (i, v) ∈ stores s -> ct s !!! i = v) /\
  (forall i, (i < n)%nat -> done s !!! i = true -> metrics_ok s i).

(** The part of the invariant that does not depend on the clock. *)
Definition bookkeeping (s : state) : Prop :=
  length (done s) = n /\
  completed s = Z.of_nat (length (stores s)) /\
  NoDup (stores s).*1 /\
  (forall i, (i < n)%nat -> done s !!! i = true <-> i ∈ (stores s).*1) /\
  (forall i, i ∈ (stores s).*1 -> (i < n)%nat).

(** Turns the loop can still take: records to complete, idle ticks to
    the last arrival. *)
Definition remaining (s : state) : nat :=
  (n - length (stores s)) + Z.to_nat (list_max_Z at_ - time s).

Definition enough_fuel : nat := n + Z.to_nat (list_max_Z at_).

End Branch.
End NonPreemptive.

(** ** Second branch, [choice == 2], lines 64-97 *)

Module Preemptive.

(** [stores] is the ghost history of the assignments [ct[idx] = time] of
    line 88, oldest first. *)
Record state := State {
  time : Z;
  completed : Z;
  rt : list Z;
  ct : list Z;
  tat : list Z;
  wt : list Z;
  stores : list (nat * Z)
}.

Section Branch.
Variable n : nat.
Variables at_ bt : list Z.

(** Body of the scan of lines 72-77, accumulator [(idx, minRT)]. *)
Definition scan_body (time : Z) (rt : list Z)
    (acc : option nat * Z) (i : nat) : option nat * Z :=
  if (at_ !!! i <=? time) && (rt !!! i >? 0) && (rt !!! i <? acc.2)
  then (Some i, rt !!! i)
  else acc.

Definition select (time : Z) (rt : list Z) : option nat :=
  (fold_left (scan_body time rt) (seq 0 n) (None, SENTINEL)).1.

(** One turn of the [while] loop, lines 69-95. *)
Definition body (s : state) : state :=
  match select (time s) (rt s) with
  | None =>
      State (add32 (time s) 1) (completed s) (rt s) (ct s) (tat s) (wt s) (stores s)
  | Some idx =>
      let rt1 := <[idx := sub32 (rt s !!! idx) 1]> (rt s) in
      let time1 := add32 (time s) 1 in
      if rt1 !!! idx =? 0 then
        let ct1 := <[idx := time1]> (ct s) in
        let tat1 := <[idx := sub32 (ct1 !!! idx) (at_ !!! idx)]> (tat s) in
        let wt1 := <[idx := sub32 (tat1 !!! idx) (bt !!! idx)]> (wt s) in
        State time1 (add32 (completed s) 1) rt1 ct1 tat1 wt1
              (stores s ++ [(idx, time1)])
      else
        State time1 (completed s) rt1 (ct s) (tat s) (wt s) (stores s)
  end.

Fixpoint loop (fuel : nat) (s : state) : option state :=
  if completed s <? Z.of_nat n then
    match fuel with
    | O => None
    | S fuel' => loop fuel' (body s)
    end
  else Some s.

(** [vector<int> rt = bt; int time = 0, completed = 0;]. *)
Definition init : state :=
  State 0 0 bt (replicate n 0) (replicate n 0) (replicate n 0) [].

Definition metrics_ok (s : state) (i : nat) : Prop :=
  tat s !!! i = ct s !!! i - at_ !!! i /\
  wt s !!! i = tat s !!! i - bt !!! i /\
  0 <= wt s !!! i /\
  bt !!! i <= tat s !!! i.

Definition inv (s : state) : Prop :=
  length (rt s) = n /\ length (ct s) = n /\ length (tat s) = n /\
  length (wt s) = n /\
  0 <= time s /\
  time s + list_sum_Z (rt s) <= list_max_Z at_ + list_sum_Z bt /\
  (forall i, (i < n)%nat -> 0 <= rt s !!! i <= bt !!! i) /\
  (forall i, (i < n)%nat -> rt s !!! i < bt !!! i ->
     at_ !!! i + (bt !!! i - rt s !!! i) <= time s) /\
  completed s = Z.of_nat (length (stores s)) /\
  NoDup (stores s).*1 /\
  (forall i, (i < n)%nat -> rt s !!! i = 0 <-> i ∈ (stores s).*1) /\
  (forall i, i ∈ (stores s).*1 -> (i < n)%nat) /\
  (forall i v, (i, v) ∈ stores s -> ct s !!! i = v) /\
  (forall i, (i < n)%nat -> rt s !!! i = 0 -> metrics_ok s i).

(** The part of the invariant that does not depend on the clock. *)
Definition bookkeeping (s : state) : Prop :=
  length (rt s) = n /\
  completed s = Z.of_nat (length (stores s)) /\
  NoDup (stores s).*1 /\
  (forall i, i ∈ (stores s).*1 -> (i < n)%nat /\ rt s !!! i = 0).

Definition remaining (s : state) : nat :=
  Z.to_nat (list_sum_Z (rt s)) + Z.to_nat (list_max_Z at_ - time s).

Definition enough_fuel : nat :=
  Z.to_nat (list_sum_Z bt) + Z.to_nat (list_max_Z at_).

End Branch.
End Preemptive.

(** ** [main], from the end of input on *)

Section Main.
Variable n : nat.
Variables at_ bt : list Z.

(** What is left in memory and on the screen when [main] returns. *)
Record result := Result {
  ct : list Z;
  tat : list Z;
  wt : list Z;
  stores : list (nat * Z);
  printed : output
}.

(** The table loop of lines 105-112, [pid[i] = i + 1]. *)
Definition table (ct tat wt : list Z) : list row :=
  (fun i => (Z.of_nat i + 1, at_ !!! i, bt !!! i, ct !!! i, tat !!! i, wt !!! i))
    <$> seq 0 n.

(** [None] when the chosen loop is still running after [fuel] turns. *)
Definition main (fuel : nat) (choice : Z) : option result :=
  if choice =? 1 then
    s ← NonPreemptive.loop n at_ bt fuel (NonPreemptive.init n);
    Some (Result (NonPreemptive.ct s) (NonPreemptive.tat s) (NonPreemptive.wt s)
                 (NonPreemptive.stores s)
                 (Report (table (NonPreemptive.ct s) (NonPreemptive.tat s)
                                (NonPreemptive.wt s))))
  else if choice =? 2 then
    s ← Preemptive.loop n at_ bt fuel (Preemptive.init n bt);
    Some (Result (Preemptive.ct s) (Preemptive.tat s) (Preemptive.wt s)
                 (Preemptive.stores s)
                 (Report (table (Preemptive.ct s) (Preemptive.tat s)
                                (Preemptive.wt s))))
  else
    Some (Result (replicate n 0) (replicate n 0) (replicate n 0) []
                 (Message "Invalid choice!")).

End Main.
End Sjf.

(** * Further notions about the two programs *)

(** Running totals [c + b1], [c + b1 + b2], ... of a list. *)
Fixpoint running_total (c : Z) (l : list Z) : list Z :=
  match l with
  | [] => []
  | b :: l' => (c + b) :: running_total (c + b) l'
  end.

(** Order by burst time, then by index: the order in which the scan of
    the first branch of sjf.cpp prefers records. *)
Definition before (bt : list Z) (i j : nat) : Prop :=
  bt !!! i < bt !!! j \/ (bt !!! i = bt !!! j /\ (i < j)%nat).

(** What the FCFS loop keeps besides [Fcfs.sim_inv]: the rows served so
    far ended by the clock, one after the other, and the clock covers the
    burst time served. *)
Definition fcfs_sequential (n : nat) (p : Fcfs.procs) (k : nat) (s : Fcfs.sim) : Prop :=
  (forall i, (i < k)%nat -> Fcfs.ct s !!! i <= Fcfs.time s) /\
  (forall i j, (i < j < k)%nat ->
     Fcfs.ct s !!! i <= Fcfs.ct s !!! j - Fcfs.bt p !!! j) /\
  list_sum_Z (Fcfs.bt p) <= Fcfs.time s + list_sum_Z (drop k (Fcfs.bt p)).

(** What the first SJF loop keeps besides [Sjf.NonPreemptive.inv]. *)
Definition np_sequential (n : nat) (bt : list Z) (s : Sjf.NonPreemptive.state) : Prop :=
  (forall i, (i < n)%nat -> Sjf.NonPreemptive.done s !!! i = true ->
     Sjf.NonPreemptive.ct s !!! i <= Sjf.NonPreemptive.time s) /\
  (forall i j, (i < n)%nat -> (j < n)%nat -> i <> j ->
     Sjf.NonPreemptive.done s !!! i = true ->
     Sjf.NonPreemptive.done s !!! j = true ->
     Sjf.NonPreemptive.ct s !!! i <=
       Sjf.NonPreemptive.ct s !!! j - bt !!! j \/
     Sjf.NonPreemptive.ct s !!! j <=
       Sjf.NonPreemptive.ct s !!! i - bt !!! i) /\
  list_sum_Z bt <=
    Sjf.NonPreemptive.time s + Sjf.NonPreemptive.pending bt (Sjf.NonPreemptive.done s).

(** With every record there from the start, the first SJF loop completes
    records in the order [before]. *)
Definition np_shortest_first (n : nat) (bt : list Z) (s : Sjf.NonPreemptive.state) : Prop :=
  (forall i j, (i < n)%nat -> (j < n)%nat ->
     Sjf.NonPreemptive.done s !!! i = true ->
     Sjf.NonPreemptive.done s !!! j = false -> before bt i j) /\
  (forall i j, (i < n)%nat -> (j < n)%nat ->
     Sjf.NonPreemptive.done s !!! i = true ->
     Sjf.NonPreemptive.done s !!! j = true -> before bt i j ->
     Sjf.NonPreemptive.ct s !!! i < Sjf.NonPreemptive.ct s !!! j).

(** What the second SJF loop keeps besides [Sjf.Preemptive.inv]. *)
Definition srtf_sequential (n : nat) (bt : list Z) (s : Sjf.Preemptive.state) : Prop :=
  (forall i, (i < n)%nat -> Sjf.Preemptive.rt s !!! i = 0 ->
     Sjf.Preemptive.ct s !!! i <= Sjf.Preemptive.time s) /\
  (forall i j, (i < n)%nat -> (j < n)%nat -> i <> j ->
     Sjf.Preemptive.rt s !!! i = 0 -> Sjf.Preemptive.rt s !!! j = 0 ->
     Sjf.Preemptive.ct s !!! i <> Sjf.Preemptive.ct s !!! j) /\
  list_sum_Z bt <= Sjf.Preemptive.time s + list_sum_Z (Sjf.Preemptive.rt s).

(** How long the rows served so far waited in the FCFS loop: the first
    row not at all, a later row while the row before it was still running;
    and the clock is the completion time of the last row served. *)
Definition fcfs_waits (p : Fcfs.procs) (k : nat) (s : Fcfs.sim) : Prop :=
  (forall j, (j < k)%nat ->
     Fcfs.wt s !!! j =
     match j with
     | O => 0
     | S j' => Z.max 0 (Fcfs.ct s !!! j' - Fcfs.at_ p !!! j)
     end) /\
  ((0 < k)%nat -> Fcfs.time s = Fcfs.ct s !!! (k - 1)%nat).

(** With every record there from the start, the second SJF loop has at
    most one record in progress, prefers it to those not started, and
    completes records in the order [before]. *)
Definition srtf_shortest_first (n : nat) (bt : list Z) (s : Sjf.Preemptive.state) : Prop :=
  (forall i j, (i < n)%nat -> (j < n)%nat ->
     0 < Sjf.Preemptive.rt s !!! i < bt !!! i ->
     0 < Sjf.Preemptive.rt s !!! j < bt !!! j -> i = j) /\
  (forall i j, (i < n)%nat -> (j < n)%nat ->
     Sjf.Preemptive.rt s !!! i < bt !!! i ->
     Sjf.Preemptive.rt s !!! j = bt !!! j -> before bt i j) /\
  (forall i j, (i < n)%nat -> (j < n)%nat ->
     Sjf.Preemptive.rt s !!! i = 0 -> 0 < Sjf.Preemptive.rt s !!! j ->
     before bt i j) /\
  (forall i j, (i < n)%nat -> (j < n)%nat ->
     Sjf.Preemptive.rt s !!! i = 0 -> Sjf.Preemptive.rt s !!! j = 0 ->
     before bt i j ->
     Sjf.Preemptive.ct s !!! i < Sjf.Preemptive.ct s !!! j).


(** * The [float] totals and averages

    [float] is IEEE 754 binary32: 24 bits of precision, exponents below
    128, every operation rounded to nearest, ties to even. *)

(** Conversion of an [int] operand to [float]. *)
Definition float_of_int (z : Z) : spec_float := binary_normalize 24 128 z 0 false.

Definition fadd : spec_float -> spec_float -> spec_float := SFadd 24 128.
Definition fdiv : spec_float -> spec_float -> spec_float := SFdiv 24 128.

Record totals := Totals { totalTAT : spec_float; totalWT : spec_float }.

(** [float totalTAT = 0, totalWT = 0;] *)
Definition no_totals : totals := Totals (float_of_int 0) (float_of_int 0).

(** [totalTAT += tat[i]; totalWT += wt[i];] *)
Definition add_totals (t : totals) (tat_i wt_i : Z) : totals :=
  Totals (fadd (totalTAT t) (float_of_int tat_i))
         (fadd (totalWT t) (float_of_int wt_i)).

(** [totalTAT / n] and [totalWT / n], the two numbers printed last. *)
Definition averages (n : nat) (t : totals) : spec_float * spec_float :=
  (fdiv (totalTAT t) (float_of_int (Z.of_nat n)),
   fdiv (totalWT t) (float_of_int (Z.of_nat n))).

(** The arithmetic mean in the words of the specification: the sum of the
    values divided by [n], in float division. *)
Definition mean (n : nat) (l : list Z) : spec_float :=
  fdiv (float_of_int (list_sum_Z l)) (float_of_int (Z.of_nat n)).

(** The float sum of the entries of [arr] at the indices [l], in the order
    of [l], on top of [acc]. *)
Definition fsum (arr : list Z) (l : list nat) (acc : spec_float) : spec_float :=
  fold_left (fun a i => fadd a (float_of_int (arr !!! i))) l acc.

(** [m] shifted left by [j] bits. *)
Definition shl (m : positive) (j : nat) : positive := Nat.iter j xO m.

(** ** pid.cpp with its totals, lines 37-64 *)

Module FcfsFloat.

(** Lines 40-50: the body of [Fcfs.sim_body], then the two additions. *)
Definition sim_body (p : Fcfs.procs) (st : Fcfs.sim * totals) (i : nat)
    : Fcfs.sim * totals :=
  let s := Fcfs.sim_body p st.1 i in
  (s, add_totals st.2 (Fcfs.tat s !!! i) (Fcfs.wt s !!! i)).

Definition simulate (n : nat) (p : Fcfs.procs) : Fcfs.sim * totals :=
  fold_left (sim_body p) (seq 0 n) (Fcfs.init_sim n, no_totals).

(** The table arrays and the two averages of lines 63-64. *)
Definition fcfs (n : nat) (arrival burst : list Z)
    : Fcfs.procs * Fcfs.sim * (spec_float * spec_float) :=
  let p := Fcfs.sort_by_arrival n (Fcfs.Procs (Fcfs.init_pid n) arrival burst) in
  let st := simulate n p in
  (p, st.1, averages n st.2).

End FcfsFloat.

(** ** sjf.cpp with its totals *)

Module SjfFloat.

Section Totals.
Variable n : nat.
Variables at_ bt : list Z.

(** Lines 55-56, reached when the scan found a record. *)
Definition np_add (s : Sjf.NonPreemptive.state) (t : totals) : totals :=
  match Sjf.NonPreemptive.select n at_ bt
          (Sjf.NonPreemptive.time s) (Sjf.NonPreemptive.done s) with
  | None => t
  | Some idx =>
      let s' := Sjf.NonPreemptive.body n at_ bt s in
      add_totals t (Sjf.NonPreemptive.tat s' !!! idx) (Sjf.NonPreemptive.wt s' !!! idx)
  end.

(** The loop of lines 34-60 with the totals. *)
Fixpoint np_loop (fuel : nat) (s : Sjf.NonPreemptive.state) (t : totals)
    : option (Sjf.NonPreemptive.state * totals) :=
  if Sjf.NonPreemptive.completed s <? Z.of_nat n then
    match fuel with
    | O => None
    | S fuel' => np_loop fuel' (Sjf.NonPreemptive.body n at_ bt s) (np_add s t)
    end
  else Some (s, t).

(** Lines 92-93, reached when the selected record's remaining time
    became 0. *)
Definition srtf_add (s : Sjf.Preemptive.state) (t : totals) : totals :=
  match Sjf.Preemptive.select n at_
          (Sjf.Preemptive.time s) (Sjf.Preemptive.rt s) with
  | None => t
  | Some idx =>
      let s' := Sjf.Preemptive.body n at_ bt s in
      if Sjf.Preemptive.rt s' !!! idx =? 0
      then add_totals t (Sjf.Preemptive.tat s' !!! idx) (Sjf.Preemptive.wt s' !!! idx)
      else t
  end.

(** The loop of lines 68-96 with the totals. *)
Fixpoint srtf_loop (fuel : nat) (s : Sjf.Preemptive.state) (t : totals)
    : option (Sjf.Preemptive.state * totals) :=
  if Sjf.Preemptive.completed s <? Z.of_nat n then
    match fuel with
    | O => None
    | S fuel' => srtf_loop fuel' (Sjf.Preemptive.body n at_ bt s) (srtf_add s t)
    end
  else Some (s, t).

(** The totals a loop leaves and the averages of lines 114-115. *)
Definition np_run (fuel : nat) : option (Sjf.NonPreemptive.state * totals) :=
  np_loop fuel (Sjf.NonPreemptive.init n) no_totals.

Definition srtf_run (fuel : nat) : option (Sjf.Preemptive.state * totals) :=
  srtf_loop fuel (Sjf.Preemptive.init n bt) no_totals.

(** What the totals hold in a state of either loop: the float sums of
    [tat] and [wt] over the records completed so far, in the order of
    completion. *)
Definition totals_follow (tat wt : list Z) (stores : list (nat * Z)) (t : totals) : Prop :=
  totalTAT t = fsum tat stores.*1 (float_of_int 0) /\
  totalWT t = fsum wt stores.*1 (float_of_int 0).

End Totals.
End SjfFloat.

(** ** Generic facts *)

Lemma wrap32_id z : in_int z -> wrap32 z = z.
Proof.
  unfold in_int, INT_MAX, wrap32. intros Hz.
  rewrite Z.mod_small by lia. lia.
Qed.

Lemma add32_id a b : in_int (a + b) -> add32 a b = a + b.
Proof. apply wrap32_id. Qed.

Lemma sub32_id a b : in_int (a - b) -> sub32 a b = a - b.
Proof. apply wrap32_id. Qed.

(** A loop invariant rule for [for (k = start; k < start + len; k++)]. *)
Lemma fold_left_seq_inv {S} (f : S -> nat -> S) (P : nat -> S -> Prop) :
  forall len start s,
    P start s ->
    (forall k t, (start <= k < start + len)%nat -> P k t -> P (Datatypes.S k) (f t k)) ->
    P (start + len)%nat (fold_left f (seq start len) s).
Proof.
  induction len as [|len IH]; intros start s H0 Hstep; simpl.
  - by rewrite Nat.add_0_r.
  - replace (start + Datatypes.S len)%nat with (Datatypes.S start + len)%nat by lia.
    apply IH.
    + apply Hstep; [lia | done].
    + intros k t Hk. apply Hstep. lia.
Qed.

Lemma swap_length {A} `{Inhabited A} (l : list A) i j :
  length (swap l i j) = length l.
Proof. unfold swap. by rewrite !length_insert. Qed.

Lemma swap_lookup_l {A} `{Inhabited A} (l : list A) i j :
  (i < length l)%nat -> (j < length l)%nat -> swap l i j !!! i = l !!! j.
Proof.
  intros Hi Hj. unfold swap.
  destruct (decide (i = j)) as [->|Hne].
  - rewrite list_lookup_total_insert_eq; [done | by rewrite length_insert].
  - rewrite list_lookup_total_insert_ne by done.
    by rewrite list_lookup_total_insert_eq.
Qed.

Lemma swap_lookup_r {A} `{Inhabited A} (l : list A) i j :
  (i < length l)%nat -> (j < length l)%nat -> swap l i j !!! j = l !!! i.
Proof.
  intros Hi Hj. unfold swap.
  rewrite list_lookup_total_insert_eq; [done | by rewrite length_insert].
Qed.

Lemma swap_lookup_ne {A} `{Inhabited A} (l : list A) i j k :
  k <> i -> k <> j -> swap l i j !!! k = l !!! k.
Proof.
  intros Hi Hj. unfold swap.
  by rewrite !list_lookup_total_insert_ne.
Qed.

Lemma insert_head_perm {A} (l : list A) j a b :
  l !! j = Some b -> b :: <[j := a]> l ≡ₚ a :: l.
Proof.
  revert j. induction l as [|c l IH]; intros [|j] Hj; simplify_eq/=.
  - apply Permutation_swap.
  - rewrite (Permutation_swap c b), (IH j Hj). apply Permutation_swap.
Qed.

Lemma swap_perm {A} `{Inhabited A} (l : list A) i j :
  (i < length l)%nat -> (j < length l)%nat -> swap l i j ≡ₚ l.
Proof.
  unfold swap. revert i j.
  induction l as [|c l IH]; intros i j Hi Hj; simpl in *; [lia|].
  destruct i as [|i], j as [|j]; simpl.
  - done.
  - destruct (lookup_lt_is_Some_2 l j ltac:(lia)) as [b Hb].
    rewrite (list_lookup_total_correct _ _ _ Hb).
    by apply insert_head_perm.
  - destruct (lookup_lt_is_Some_2 l i ltac:(lia)) as [b Hb].
    rewrite (list_lookup_total_correct _ _ _ Hb).
    by apply insert_head_perm.
  - f_equiv. apply IH; lia.
Qed.

Lemma zip_lookup_total {A B} `{Inhabited A} `{Inhabited B}
    (l : list A) (k : list B) i :
  length l = length k -> zip l k !!! i = (l !!! i, k !!! i).
Proof.
  revert k i. induction l as [|a l IH]; intros [|b k] i Hlen; try discriminate.
  - by destruct H, H0.
  - destruct i as [|i]; [reflexivity|]. apply (IH k i). by injection Hlen.
Qed.

Lemma zip_insert {A B} (l : list A) (k : list B) p x y :
  zip (<[p := x]> l) (<[p := y]> k) = <[p := (x, y)]> (zip l k).
Proof.
  revert k p. induction l as [|a l IH]; intros [|b k] [|p]; simpl; try done.
  by rewrite IH.
Qed.

Lemma swap_zip {A B} `{Inhabited A} `{Inhabited B} (l : list A) (k : list B) i j :
  length l = length k ->
  zip (swap l i j) (swap k i j) = swap (zip l k) i j.
Proof.
  intros Hlen. unfold swap.
  by rewrite !zip_insert, !zip_lookup_total.
Qed.

Lemma list_max_Z_nonneg l : 0 <= list_max_Z l.
Proof. induction l; simpl; lia. Qed.

Lemma list_max_Z_ge (l : list Z) i : (i < length l)%nat -> l !!! i <= list_max_Z l.
Proof.
  revert i. induction l as [|a l IH]; intros i Hi; simpl in *; [lia|].
  destruct i as [|i]; simpl; [lia|].
  specialize (IH i ltac:(lia)). unfold lookup_total in IH |- *. simpl. lia.
Qed.

Lemma Forall_lookup_total_Z (P : Z -> Prop) (l : list Z) i :
  Forall P l -> (i < length l)%nat -> P (l !!! i).
Proof.
  intros HP Hi. destruct (lookup_lt_is_Some_2 l i Hi) as [x Hx].
  rewrite (list_lookup_total_correct _ _ _ Hx).
  by eapply Forall_lookup_1.
Qed.

Lemma list_sum_Z_app l k : list_sum_Z (l ++ k) = list_sum_Z l + list_sum_Z k.
Proof. induction l; simpl; lia. Qed.

Lemma list_sum_Z_nonneg l : Forall (fun b => 0 < b) l -> 0 <= list_sum_Z l.
Proof. induction 1; simpl; lia. Qed.

Lemma list_sum_Z_perm l k : l ≡ₚ k -> list_sum_Z l = list_sum_Z k.
Proof. induction 1; simpl; lia. Qed.

Lemma list_max_Z_perm l k : l ≡ₚ k -> list_max_Z l = list_max_Z k.
Proof. induction 1; simpl; lia. Qed.

Lemma list_sum_Z_drop (l : list Z) k :
  (k < length l)%nat ->
  list_sum_Z (drop k l) = l !!! k + list_sum_Z (drop (S k) l).
Proof.
  intros Hk. destruct (lookup_lt_is_Some_2 l k Hk) as [x Hx].
  by rewrite (drop_S _ _ _ Hx), (list_lookup_total_correct _ _ _ Hx).
Qed.

Lemma list_sum_Z_drop_le (l : list Z) k :
  Forall (fun b => 0 < b) l -> 0 <= list_sum_Z (drop k l) <= list_sum_Z l.
Proof.
  intros Hl. rewrite <- (take_drop k l) at 3. rewrite list_sum_Z_app.
  pose proof (list_sum_Z_nonneg (take k l) (Forall_take _ _ _ Hl)).
  pose proof (list_sum_Z_nonneg (drop k l) (Forall_drop _ _ _ Hl)). lia.
Qed.

Lemma list_sum_Z_insert (l : list Z) i v :
  (i < length l)%nat -> list_sum_Z (<[i := v]> l) = list_sum_Z l - l !!! i + v.
Proof.
  revert i. induction l as [|a l IH]; intros i Hi; simpl in *; [lia|].
  destruct i as [|i]; simpl.
  - change ((a :: l) !!! 0%nat) with a. lia.
  - change ((a :: l) !!! S i) with (l !!! i). rewrite IH by lia. lia.
Qed.

Lemma list_sum_Z_ge_length l :
  Forall (fun b => 0 < b) l -> Z.of_nat (length l) <= list_sum_Z l.
Proof. induction 1; simpl length; simpl list_sum_Z; lia. Qed.

Lemma min_scan_spec ok key sentinel n :
  min_scan_result ok key sentinel n
    (fold_left (min_scan_step ok key) (seq 0 n) (None, sentinel)).
Proof.
  apply (fold_left_seq_inv (min_scan_step ok key)
           (min_scan_result ok key sentinel) n 0%nat).
  - split; [done|]. intros j Hj. lia.
  - intros k [idx m] _ Hacc. unfold min_scan_step, min_scan_result in *.
    simpl in *.
    destruct (ok k) eqn:Hok; simpl.
    + destruct (Z.ltb_spec (key k) m) as [Hlt|Hge]; simpl.
      * destruct idx as [i|].
        -- destruct Hacc as (Hi & Hoki & -> & Hs & Hmin & Hfirst).
           repeat split; try done; try lia.
           ++ intros j Hj Hokj. destruct (decide (j = k)) as [->|]; [lia|].
              specialize (Hmin j ltac:(lia) Hokj). lia.
           ++ intros j Hj Hokj. specialize (Hmin j ltac:(lia) Hokj). lia.
        -- destruct Hacc as (-> & Hnone).
           repeat split; try done; try lia.
           ++ intros j Hj Hokj. destruct (decide (j = k)) as [->|]; [lia|].
              specialize (Hnone j ltac:(lia) Hokj). lia.
           ++ intros j Hj Hokj. specialize (Hnone j ltac:(lia) Hokj). lia.
      * destruct idx as [i|].
        -- destruct Hacc as (Hi & Hoki & -> & Hs & Hmin & Hfirst).
           repeat split; try done; try lia.
           intros j Hj Hokj. destruct (decide (j = k)) as [->|]; [lia|].
           apply Hmin; [lia | done].
        -- destruct Hacc as (-> & Hnone). split; [done|].
           intros j Hj Hokj. destruct (decide (j = k)) as [->|]; [lia|].
           apply Hnone; [lia | done].
    + destruct idx as [i|].
      * destruct Hacc as (Hi & Hoki & -> & Hs & Hmin & Hfirst).
        repeat split; try done; try lia.
        intros j Hj Hokj. destruct (decide (j = k)) as [->|]; [congruence|].
        apply Hmin; [lia | done].
      * destruct Hacc as (-> & Hnone). split; [done|].
        intros j Hj Hokj. destruct (decide (j = k)) as [->|]; [congruence|].
        apply Hnone; [lia | done].
Qed.

(** Fewer than [n] distinct indices below [n] leave one out. *)
Lemma missing_index (l : list nat) n :
  NoDup l -> (length l < n)%nat -> exists i, (i < n)%nat /\ i ∉ l.
Proof.
  intros Hnd Hlen.
  destruct (decide (Forall (fun i => i ∈ l) (seq 0 n))) as [Hall|Hnot].
  - exfalso.
    assert (Hsub : seq 0 n ⊆+ l).
    { apply NoDup_submseteq; [apply NoDup_seq|].
      intros i Hi. by eapply Forall_forall in Hall. }
    apply submseteq_length in Hsub. rewrite length_seq in Hsub. lia.
  - apply not_Forall_Exists in Hnot; [|tc_solve].
    apply Exists_exists in Hnot as (i & Hi & Hni).
    exists i. split; [|done]. apply elem_of_seq in Hi. lia.
Qed.

(** [n] distinct indices below [n] are all of them. *)
Lemma all_indices (l : list nat) n :
  NoDup l -> length l = n -> (forall i, i ∈ l -> (i < n)%nat) -> l ≡ₚ seq 0 n.
Proof.
  intros Hnd Hlen Hlt.
  apply submseteq_length_Permutation.
  - apply NoDup_submseteq; [done|]. intros i Hi. apply elem_of_seq.
    specialize (Hlt i Hi). lia.
  - rewrite length_seq. lia.
Qed.

Lemma list_sum_Z_nonneg_lookup (l : list Z) :
  (forall i, (i < length l)%nat -> 0 <= l !!! i) -> 0 <= list_sum_Z l.
Proof.
  induction l as [|a l IH]; intros Hl; simpl; [lia|].
  pose proof (Hl 0%nat ltac:(simpl; lia)) as Ha.
  change ((a :: l) !!! 0%nat) with a in Ha.
  assert (0 <= list_sum_Z l); [|lia].
  apply IH. intros i Hi. apply (Hl (S i)). simpl. lia.
Qed.

Lemma list_sum_Z_le_lookup (l k : list Z) :
  length l = length k ->
  (forall i, (i < length l)%nat -> l !!! i <= k !!! i) ->
  list_sum_Z l <= list_sum_Z k.
Proof.
  revert k. induction l as [|a l IH]; intros [|b k] Hlen Hle; simplify_eq/=; [lia|].
  pose proof (Hle 0%nat ltac:(lia)) as Ha.
  change (a <= b) in Ha.
  assert (list_sum_Z l <= list_sum_Z k); [|lia].
  apply IH; [done|]. intros i Hi. apply (Hle (S i)). lia.
Qed.

(** At least [n] distinct indices below [n] are all of them. *)
Lemma full_indices (l : list nat) n :
  NoDup l -> (forall i, i ∈ l -> (i < n)%nat) -> (n <= length l)%nat ->
  l ≡ₚ seq 0 n.
Proof.
  intros Hnd Hlt Hlen. apply all_indices; [done | | done].
  assert (Hsub : l ⊆+ seq 0 n).
  { apply NoDup_submseteq; [done|]. intros i Hi. apply elem_of_seq.
    specialize (Hlt i Hi). lia. }
  apply submseteq_length in Hsub. rewrite length_seq in Hsub. lia.
Qed.

(** ** binary32: integer sums below 2^24 are exact *)

Lemma shl_add m j k : shl (shl m j) k = shl m (k + j).
Proof. unfold shl. by rewrite Nat.iter_add. Qed.

Lemma shl_sum a b j : (shl a j + shl b j)%positive = shl (a + b) j.
Proof. induction j as [|j IH]; simpl; [done|]. by rewrite <- IH. Qed.

Lemma pos_iter_shl m d : Pos.iter xO m d = shl m (Pos.to_nat d).
Proof. unfold shl. by rewrite Pos2Nat.inj_iter. Qed.

Lemma digits_shl m j :
  Zpos (digits2_pos (shl m j)) = Zpos (digits2_pos m) + Z.of_nat j.
Proof.
  induction j as [|j IH]; [simpl; lia|].
  change (shl m (S j)) with (xO (shl m j)). simpl digits2_pos. lia.
Qed.

Lemma digits_lower m : 2 ^ (Zpos (digits2_pos m) - 1) <= Zpos m.
Proof.
  induction m as [m IH|m IH|]; simpl digits2_pos; [| |simpl; lia].
  - replace (Zpos (Pos.succ (digits2_pos m)) - 1) with
      (Z.succ (Zpos (digits2_pos m) - 1)) by lia.
    rewrite Z.pow_succ_r by lia. lia.
  - replace (Zpos (Pos.succ (digits2_pos m)) - 1) with
      (Z.succ (Zpos (digits2_pos m) - 1)) by lia.
    rewrite Z.pow_succ_r by lia. lia.
Qed.

Lemma digits_le_24 m : Zpos m < 16777216 -> Zpos (digits2_pos m) <= 24.
Proof.
  intros Hm. destruct (Z.le_gt_cases (Zpos (digits2_pos m)) 24) as [|Hgt]; [done|].
  pose proof (digits_lower m) as Hlow.
  assert (2 ^ 24 <= 2 ^ (Zpos (digits2_pos m) - 1)) by (apply Z.pow_le_mono_r; lia).
  change (2 ^ 24) with 16777216 in *. lia.
Qed.

Lemma iter_pos_nat {A} (f : A -> A) n : forall x,
  iter_pos f n x = Nat.iter (Pos.to_nat n) f x.
Proof.
  induction n as [n IH|n IH|]; intros x; simpl iter_pos.
  - rewrite !IH, Pos2Nat.inj_xI, <- Nat.iter_add, <- Nat.iter_succ_r.
    f_equal. lia.
  - rewrite !IH, Pos2Nat.inj_xO, <- Nat.iter_add. f_equal. lia.
  - done.
Qed.

Lemma shr_shl q j :
  Nat.iter j shr_1 (Build_shr_record (Zpos (shl q j)) false false) =
  Build_shr_record (Zpos q) false false.
Proof.
  induction j as [|j IH]; [done|].
  rewrite Nat.iter_succ_r. exact IH.
Qed.

(** A mantissa of 24 bits is kept as it is. *)
Lemma round_canonical q e :
  Zpos (digits2_pos q) = 24 -> -149 <= e <= 104 ->
  binary_round_aux 24 128 false (Zpos q) e loc_Exact = S754_finite false q e.
Proof.
  intros Hd He. unfold binary_round_aux, shr_fexp, fexp, emin. simpl Zdigits2.
  rewrite Hd.
  replace (Z.max (24 + e - 24) (3 - 128 - 24) - e) with 0 by lia.
  simpl. rewrite Hd.
  replace (Z.max (24 + e - 24) (3 - 128 - 24) - e) with 0 by lia.
  simpl. destruct (Z.leb_spec e (128 - 24)); [done | lia].
Qed.

(** Zero bits below a 24-bit mantissa are dropped without rounding. *)
Lemma round_trailing q j e :
  Zpos (digits2_pos q) = 24 -> (0 < j)%nat ->
  -149 <= e + Z.of_nat j <= 104 ->
  binary_round_aux 24 128 false (Zpos (shl q j)) e loc_Exact =
  S754_finite false q (e + Z.of_nat j).
Proof.
  intros Hd Hj He.
  rewrite <- (round_canonical q (e + Z.of_nat j) Hd He).
  assert (Hshr : shr (shr_record_of_loc (Zpos (shl q j)) loc_Exact) e
                     (Zpos (Pos.of_nat j)) =
                 (Build_shr_record (Zpos q) false false, e + Z.of_nat j)).
  { unfold shr. simpl shr_record_of_loc.
    rewrite iter_pos_nat, Nat2Pos.id by lia. rewrite shr_shl.
    f_equal. lia. }
  unfold binary_round_aux, shr_fexp, fexp, emin. simpl Zdigits2.
  rewrite digits_shl, Hd.
  replace (Z.max (24 + Z.of_nat j + e - 24) (3 - 128 - 24) - e)
    with (Zpos (Pos.of_nat j)) by lia.
  replace (Z.max (24 + (e + Z.of_nat j) - 24) (3 - 128 - 24) - (e + Z.of_nat j))
    with 0 by lia.
  rewrite Hshr. reflexivity.
Qed.

(** Rounding [p * 2^k] at exponent [-k] gives the 24-bit form of [p]. *)
Lemma binary_round_shl p k :
  Zpos (digits2_pos p) <= 24 -> (k <= 24)%nat ->
  binary_round 24 128 false (shl p k) (- Z.of_nat k) =
  S754_finite false (shl p (Z.to_nat (24 - Zpos (digits2_pos p))))
              (Zpos (digits2_pos p) - 24).
Proof.
  intros Hd Hk. set (d := Zpos (digits2_pos p)) in *.
  assert (Hd0 : 0 < d) by (unfold d; lia).
  assert (Hq : Zpos (digits2_pos (shl p (Z.to_nat (24 - d)))) = 24).
  { rewrite digits_shl. fold d. lia. }
  unfold binary_round, fexp, emin. rewrite digits_shl. fold d.
  replace (Z.max (d + Z.of_nat k + - Z.of_nat k - 24) (3 - 128 - 24))
    with (d - 24) by lia.
  unfold shl_align.
  destruct (d - 24 - - Z.of_nat k) as [|s|s] eqn:Hs.
  - replace (- Z.of_nat k) with (d - 24) by lia.
    replace k with (Z.to_nat (24 - d)) by lia.
    apply round_canonical; [done | lia].
  - replace k with (Z.to_nat (Zpos s) + Z.to_nat (24 - d))%nat by lia.
    rewrite <- shl_add.
    replace (d - 24) with
      (- Z.of_nat (Z.to_nat (Zpos s) + Z.to_nat (24 - d)) +
       Z.of_nat (Z.to_nat (Zpos s))) by lia.
    apply round_trailing; [done | lia | lia].
  - rewrite pos_iter_shl, shl_add.
    replace (Pos.to_nat s + k)%nat with (Z.to_nat (24 - d)) by lia.
    apply round_canonical; [done | lia].
Qed.

Lemma float_of_int_pos p :
  Zpos p < 16777216 ->
  float_of_int (Zpos p) =
  S754_finite false (shl p (Z.to_nat (24 - Zpos (digits2_pos p))))
              (Zpos (digits2_pos p) - 24).
Proof.
  intros Hp. apply (binary_round_shl p 0); [by apply digits_le_24 | lia].
Qed.

(** Below 2^24 the float sum of two integers is their sum. *)
Lemma fadd_exact a b :
  0 <= a -> 0 <= b -> a + b < 16777216 ->
  fadd (float_of_int a) (float_of_int b) = float_of_int (a + b).
Proof.
  intros Ha Hb Hab.
  destruct a as [|a|a], b as [|b|b]; try lia.
  - reflexivity.
  - rewrite Z.add_0_l. rewrite float_of_int_pos by lia. reflexivity.
  - rewrite Z.add_0_r. rewrite float_of_int_pos by lia. reflexivity.
  - rewrite (float_of_int_pos a), (float_of_int_pos b) by lia.
    pose proof (digits_le_24 a ltac:(lia)) as Hda.
    pose proof (digits_le_24 b ltac:(lia)) as Hdb.
    pose proof (digits_le_24 (a + b) ltac:(lia)) as Hdab.
    set (da := Zpos (digits2_pos a)) in *. set (db := Zpos (digits2_pos b)) in *.
    assert (0 < da /\ 0 < db) as [Hda0 Hdb0] by (unfold da, db; lia).
    unfold fadd, SFadd. simpl cond_Zopp.
    set (ez := Z.min (da - 24) (db - 24)).
    assert (Hshift : forall m dm, 0 < dm <= 24 -> ez <= dm - 24 ->
      (shl_align (shl m (Z.to_nat (24 - dm))) (dm - 24) ez).1 =
      shl m (Z.to_nat (- ez))).
    { intros m dm Hdm Hez. unfold shl_align.
      destruct (ez - (dm - 24)) as [|s|s] eqn:Hs; simpl; try lia.
      - f_equal. lia.
      - rewrite pos_iter_shl, shl_add. f_equal. lia. }
    rewrite (Hshift a da), (Hshift b db) by (unfold ez; lia).
    change (Zpos ?x + Zpos ?y) with (Zpos (x + y)).
    rewrite shl_sum. unfold binary_normalize.
    replace ez with (- Z.of_nat (Z.to_nat (- ez))) at 2 by (unfold ez; lia).
    rewrite binary_round_shl by (done || unfold ez; lia).
    symmetry. change (Zpos a + Zpos b) with (Zpos (a + b)).
    apply float_of_int_pos. lia.
Qed.

(** The float sum of a list of non-negative integers whose sum is below
    2^24 is that sum. *)
Lemma fold_fadd_exact (l : list Z) : forall acc,
  0 <= acc -> Forall (fun x => 0 <= x) l -> acc + list_sum_Z l < 16777216 ->
  fold_left (fun a x => fadd a (float_of_int x)) l (float_of_int acc) =
  float_of_int (acc + list_sum_Z l).
Proof.
  induction l as [|x l IH]; intros acc Hacc Hl Hsum; simpl in *.
  - by rewrite Z.add_0_r.
  - apply Forall_cons in Hl as [Hx Hl].
    pose proof (list_sum_Z_nonneg_lookup l) as Hnn.
    assert (0 <= list_sum_Z l).
    { apply Hnn. intros i Hi. by apply (Forall_lookup_total_Z _ l i Hl). }
    rewrite fadd_exact by lia. rewrite IH by (done || lia). f_equal. lia.
Qed.

Lemma fsum_map arr l acc :
  fsum arr l acc =
  fold_left (fun a x => fadd a (float_of_int x)) ((fun i => arr !!! i) <$> l) acc.
Proof. unfold fsum. revert acc. induction l as [|i l IH]; intros acc; simpl; [done|]. apply IH. Qed.

Lemma fsum_app arr l k acc : fsum arr (l ++ k) acc = fsum arr k (fsum arr l acc).
Proof. unfold fsum. by rewrite fold_left_app. Qed.

(** A store outside the indices summed does not change the sum. *)
Lemma fsum_insert arr l idx v acc :
  idx ∉ l -> fsum (<[idx := v]> arr) l acc = fsum arr l acc.
Proof.
  unfold fsum. revert acc. induction l as [|i l IH]; intros acc Hni; simpl; [done|].
  apply not_elem_of_cons in Hni as [Hne Hni].
  rewrite list_lookup_total_insert_ne by done. by apply IH.
Qed.

Lemma lookups_seq (arr : list Z) :
  (fun i => arr !!! i) <$> seq 0 (length arr) = arr.
Proof.
  apply list_eq. intros i. rewrite list_lookup_fmap.
  destruct (decide (i < length arr)%nat) as [Hi|Hi].
  - rewrite lookup_seq_lt by done. simpl.
    symmetry. by apply list_lookup_lookup_total_lt.
  - rewrite lookup_seq_ge by lia. simpl. symmetry. apply lookup_ge_None. lia.
Qed.

(** The float sum of an array of non-negative integers, taken in any
    order of its indices, is the sum of the array when that is below
    2^24. *)
Lemma fsum_exact arr l n :
  l ≡ₚ seq 0 n -> length arr = n ->
  (forall i, (i < n)%nat -> 0 <= arr !!! i) ->
  list_sum_Z arr < 16777216 ->
  fsum arr l (float_of_int 0) = float_of_int (list_sum_Z arr).
Proof.
  intros Hperm Hlen Hnn Hsum.
  assert (Hvals : (fun i => arr !!! i) <$> l ≡ₚ arr).
  { rewrite Hperm, <- Hlen. by rewrite lookups_seq. }
  rewrite fsum_map, fold_fadd_exact.
  - by rewrite (list_sum_Z_perm _ _ Hvals).
  - done.
  - rewrite Hvals. apply Forall_lookup. intros i x Hx.
    pose proof (lookup_lt_Some _ _ _ Hx).
    rewrite <- (list_lookup_total_correct _ _ _ Hx). apply Hnn. lia.
  - rewrite (list_sum_Z_perm _ _ Hvals). lia.
Qed.

(** * Facts about pid.cpp *)

Module FcfsProofs.
Import Fcfs.

Example sort_ex :
  sort_by_arrival 3 (Procs [1;2;3] [2;2;1] [5;6;7]) = Procs [3;2;1] [1;2;2] [7;6;5].
Proof. reflexivity. Qed.

Example fcfs_single :
  snd (fcfs 1 [0] [5]) = Sim 5 [5] [5] [0].
Proof. reflexivity. Qed.

(** ** The sort *)

Lemma sort_inner_body_sized n i j p :
  well_sized n p -> well_sized n (sort_inner_body i p j).
Proof.
  intros (H1 & H2 & H3). unfold sort_inner_body.
  destruct (_ >? _); [|done].
  unfold well_sized; simpl. by rewrite !swap_length.
Qed.

Lemma sort_inner_body_rows n i j p :
  well_sized n p -> (i < n)%nat -> (j < n)%nat ->
  rows (sort_inner_body i p j) ≡ₚ rows p.
Proof.
  intros (H1 & H2 & H3) Hi Hj. unfold sort_inner_body.
  destruct (_ >? _); [|done].
  unfold rows; simpl.
  rewrite !swap_zip by (rewrite ?length_zip; lia).
  apply swap_perm; rewrite !length_zip; lia.
Qed.

Lemma sort_inner_body_placed n i j p :
  well_sized n p -> (i < j < n)%nat ->
  prefix_placed n i (at_ p) ->
  (forall m, (i < m < j)%nat -> at_ p !!! i <= at_ p !!! m) ->
  prefix_placed n i (at_ (sort_inner_body i p j)) /\
  (forall m, (i < m < S j)%nat ->
     at_ (sort_inner_body i p j) !!! i <= at_ (sort_inner_body i p j) !!! m).
Proof.
  intros (H1 & H2 & H3) Hij Hpre Hmin. unfold sort_inner_body.
  destruct (Z.gtb_spec (at_ p !!! i) (at_ p !!! j)) as [Hgt|Hle]; simpl.
  - assert (Hsw : forall m, (m < n)%nat ->
        swap (at_ p) i j !!! m =
        if decide (m = i) then at_ p !!! j
        else if decide (m = j) then at_ p !!! i else at_ p !!! m).
    { intros m Hm. repeat case_decide; subst.
      - apply swap_lookup_l; lia.
      - apply swap_lookup_r; lia.
      - by apply swap_lookup_ne. }
    split.
    + intros k m Hk Hm. rewrite !Hsw by lia.
      repeat case_decide; subst; try lia; apply Hpre; lia.
    + intros m Hm. rewrite !Hsw by lia.
      repeat case_decide; subst; try lia.
      specialize (Hmin m ltac:(lia)). lia.
  - split; [done|]. intros m Hm.
    destruct (decide (m = j)) as [->|]; [lia|]. apply Hmin. lia.
Qed.

Lemma sort_outer_body_spec n i p :
  well_sized n p -> (i < n)%nat -> prefix_placed n i (at_ p) ->
  well_sized n (sort_outer_body n p i) /\
  rows (sort_outer_body n p i) ≡ₚ rows p /\
  prefix_placed n (S i) (at_ (sort_outer_body n p i)).
Proof.
  intros Hsz Hi Hpre. unfold sort_outer_body.
  pose (P := fun (j : nat) (q : procs) =>
    well_sized n q /\ rows q ≡ₚ rows p /\ prefix_placed n i (at_ q) /\
    (forall m, (i < m < j)%nat -> at_ q !!! i <= at_ q !!! m)).
  assert (HP : P (S i + (n - S i))%nat
                 (fold_left (sort_inner_body i) (seq (S i) (n - S i)) p)).
  { apply (fold_left_seq_inv (sort_inner_body i) P).
    - repeat split; try apply Hsz; try done. intros m Hm. lia.
    - intros j q Hj (Hq1 & Hq2 & Hq3 & Hq4).
      destruct (sort_inner_body_placed n i j q) as [Ha Hb]; try done; try lia.
      split; [by apply sort_inner_body_sized|].
      split; [|done].
      rewrite <- Hq2. apply (sort_inner_body_rows n); [done | lia | lia]. }
  destruct HP as (Hq1 & Hq2 & Hq3 & Hq4).
  repeat split; try apply Hq1; try done.
  intros k m Hk Hm.
  destruct (decide (k = i)) as [->|Hne].
  - destruct (decide (m = i)) as [->|]; [lia|]. apply Hq4. lia.
  - apply Hq3; lia.
Qed.

Lemma sort_by_arrival_spec n p :
  well_sized n p ->
  well_sized n (sort_by_arrival n p) /\
  rows (sort_by_arrival n p) ≡ₚ rows p /\
  nondecreasing n (at_ (sort_by_arrival n p)).
Proof.
  intros Hsz. unfold sort_by_arrival.
  pose (P := fun (i : nat) (q : procs) =>
    well_sized n q /\ rows q ≡ₚ rows p /\ prefix_placed n i (at_ q)).
  assert (HP : P (0 + (n - 1))%nat (fold_left (sort_outer_body n) (seq 0 (n - 1)) p)).
  { apply (fold_left_seq_inv (sort_outer_body n) P).
    - repeat split; try apply Hsz; try done. intros k m Hk. lia.
    - intros i q Hi (Hq1 & Hq2 & Hq3).
      destruct (sort_outer_body_spec n i q) as (Ha & Hb & Hc); try done; try lia.
      repeat split; try apply Ha; try done. by rewrite Hb. }
  destruct HP as (Hq1 & Hq2 & Hq3).
  repeat split; try apply Hq1; try done.
  intros i j Hij.
  destruct (decide (i = j)) as [->|Hne]; [lia|].
  apply Hq3; lia.
Qed.

(** A run over arrays already in arrival order swaps nothing. *)
Lemma sort_by_arrival_sorted_id n p :
  well_sized n p -> nondecreasing n (at_ p) -> sort_by_arrival n p = p.
Proof.
  intros Hsz Hnd. unfold sort_by_arrival.
  apply (fold_left_seq_inv (sort_outer_body n) (fun _ q => q = p)); [done|].
  intros i q Hi ->. unfold sort_outer_body.
  apply (fold_left_seq_inv (sort_inner_body i) (fun _ q => q = p)); [done|].
  intros j q Hj ->. unfold sort_inner_body.
  destruct (Z.gtb_spec (at_ p !!! i) (at_ p !!! j)) as [Hgt|Hle]; [|done].
  specialize (Hnd i j ltac:(lia)). lia.
Qed.

(** ** The simulation loop *)

Lemma completion_spec_snoc r : forall clock a b,
  completion_spec clock (r ++ [(a, b)]) =
  completion_spec clock r ++ [Z.max (final_clock clock r) a + b].
Proof.
  induction r as [|[a' b'] r IH]; intros clock a b; simpl; [done|].
  by rewrite IH.
Qed.

Lemma final_clock_snoc r clock a b :
  final_clock clock (r ++ [(a, b)]) = Z.max (final_clock clock r) a + b.
Proof. unfold final_clock. by rewrite fold_left_app. Qed.

Lemma completion_spec_length r : forall clock,
  length (completion_spec clock r) = length r.
Proof. induction r as [|[a b] r IH]; intros clock; simpl; [done|]. by rewrite IH. Qed.

Lemma sim_body_inv n p k s :
  valid_input n (at_ p) (bt p) -> (k < n)%nat ->
  sim_inv n p k s -> sim_inv n p (S k) (sim_body p s k).
Proof.
  intros [Hla Hlb Hat Hbt Hrange] Hk (Hc & Ht & Hw & Hct & Htime & H0 & Hbound & Hmet).
  pose proof (Forall_lookup_total_Z _ _ k Hat ltac:(lia)) as Hatk.
  pose proof (Forall_lookup_total_Z _ _ k Hbt ltac:(lia)) as Hbtk.
  pose proof (list_max_Z_ge (at_ p) k ltac:(lia)) as Hmax.
  pose proof (list_sum_Z_drop (bt p) k ltac:(lia)) as Hdrop.
  pose proof (list_sum_Z_drop_le (bt p) k Hbt) as Hdk.
  pose proof (list_sum_Z_drop_le (bt p) (S k) Hbt) as Hdk1.
  simpl in Hatk, Hbtk.
  set (a := at_ p !!! k) in *. set (b := bt p !!! k) in *.
  assert (Hclock : (if time s <? a then a else time s) = Z.max (time s) a).
  { destruct (Z.ltb_spec (time s) a); lia. }
  unfold sim_body. fold a b. rewrite Hclock.
  set (c := Z.max (time s) a + b).
  assert (Hadd : add32 (Z.max (time s) a) b = c).
  { apply add32_id. unfold in_int, INT_MAX in *. lia. }
  rewrite Hadd.
  rewrite list_lookup_total_insert_eq by lia.
  assert (Hab : add32 a b = a + b).
  { apply add32_id. unfold in_int, INT_MAX in *. lia. }
  rewrite Hab.
  assert (Hwt : sub32 c (a + b) = c - (a + b)).
  { apply sub32_id. unfold in_int, INT_MAX in *. lia. }
  assert (Htat : sub32 c a = c - a).
  { apply sub32_id. unfold in_int, INT_MAX in *. lia. }
  rewrite Hwt, Htat.
  assert (Hrow : zip (at_ p) (bt p) !! k = Some (a, b)).
  { apply lookup_zip_with_Some. exists a, b. split; [done|].
    split; apply list_lookup_lookup_total_lt; lia. }
  unfold sim_inv; simpl. rewrite !length_insert.
  split; [done|]. split; [done|]. split; [done|].
  split; [|split; [|split; [lia|split; [lia|]]]].
  - rewrite (take_S_r _ _ c) by (apply list_lookup_insert_eq; lia).
    rewrite take_insert_ge by lia.
    by rewrite (take_S_r _ _ _ Hrow), completion_spec_snoc, Hct, <- Htime.
  - by rewrite (take_S_r _ _ _ Hrow), final_clock_snoc, <- Htime.
  - intros i Hi. unfold metrics_ok; simpl.
    destruct (decide (i = k)) as [->|Hne].
    + rewrite !list_lookup_total_insert_eq by lia. fold a b. lia.
    + rewrite !list_lookup_total_insert_ne by done. apply Hmet. lia.
Qed.

Lemma simulate_inv n p :
  valid_input n (at_ p) (bt p) -> sim_inv n p n (simulate n p).
Proof.
  intros Hv. unfold simulate.
  apply (fold_left_seq_inv (sim_body p) (sim_inv n p) n 0%nat).
  - pose proof (list_max_Z_nonneg (at_ p)).
    unfold sim_inv, init_sim; simpl. rewrite !length_replicate, drop_0.
    repeat split; try done; try lia.
  - intros k s Hk. apply sim_body_inv; [done | lia].
Qed.

Lemma rows_at p : length (pid p) = length (at_ p) -> length (at_ p) = length (bt p) ->
  at_ p = (rows p).*2.*1.
Proof.
  intros H1 H2. unfold rows.
  rewrite snd_zip, fst_zip; [done | lia |].
  rewrite length_zip. lia.
Qed.

Lemma rows_bt p : length (pid p) = length (at_ p) -> length (at_ p) = length (bt p) ->
  bt p = (rows p).*2.*2.
Proof.
  intros H1 H2. unfold rows.
  rewrite snd_zip, snd_zip; [done | lia |].
  rewrite length_zip. lia.
Qed.

Lemma init_pid_length n : length (init_pid n) = n.
Proof. unfold init_pid. by rewrite length_fmap, length_seq. Qed.

(** Sorting keeps an input valid. *)
Lemma sort_by_arrival_valid n arrival burst :
  valid_input n arrival burst ->
  let p := sort_by_arrival n (Procs (init_pid n) arrival burst) in
  valid_input n (at_ p) (bt p).
Proof.
  intros [Hla Hlb Hat Hbt Hrange] p.
  destruct (sort_by_arrival_spec n (Procs (init_pid n) arrival burst))
    as ((H1 & H2 & H3) & Hperm & _).
  { unfold well_sized; simpl. by rewrite init_pid_length. }
  fold p in H1, H2, H3, Hperm.
  assert (Ha : at_ p ≡ₚ arrival).
  { rewrite (rows_at p) by lia. rewrite Hperm.
    rewrite <- (rows_at (Procs (init_pid n) arrival burst)); [done | |];
      simpl; rewrite ?init_pid_length; lia. }
  assert (Hb : bt p ≡ₚ burst).
  { rewrite (rows_bt p) by lia. rewrite Hperm.
    rewrite <- (rows_bt (Procs (init_pid n) arrival burst)); [done | |];
      simpl; rewrite ?init_pid_length; lia. }
  split; try done.
  - by rewrite Ha.
  - by rewrite Hb.
  - by rewrite (list_max_Z_perm _ _ Ha), (list_sum_Z_perm _ _ Hb).
Qed.

End FcfsProofs.

(** * Facts about sjf.cpp: the first branch *)

Module NonPreemptiveProofs.
Import Sjf Sjf.NonPreemptive.

Example np_abc :
  loop 3 [0;1;2] [8;4;2] 3 (init 3) =
  Some (State 14 3 [true;true;true] [8;14;10] [8;13;8] [0;9;6]
          [(0%nat,8); (2%nat,10); (1%nat,14)]).
Proof. reflexivity. Qed.

Section Facts.
Variable n : nat.
Variables at_ bt : list Z.

Lemma np_select_spec time done :
  match select n at_ bt time done with
  | Some i => scan_choice n at_ bt time done i
  | None => forall j, eligible n at_ time done j -> SENTINEL <= bt !!! j
  end.
Proof.
  pose proof (min_scan_spec
    (fun i => (at_ !!! i <=? time) && negb (done !!! i))
    (fun i => bt !!! i) SENTINEL n) as Hscan.
  unfold select.
  change (scan_body at_ bt time done) with
    (min_scan_step (fun i => (at_ !!! i <=? time) && negb (done !!! i))
                   (fun i => bt !!! i)).
  unfold min_scan_result in Hscan.
  assert (Hok : forall j, eligible n at_ time done j <->
    (j < n)%nat /\ (at_ !!! j <=? time) && negb (done !!! j) = true).
  { intros j. unfold eligible.
    rewrite andb_true_iff, Z.leb_le, negb_true_iff. tauto. }
  destruct (fold_left _ _ _).1 as [i|].
  - destruct Hscan as (Hi & Hoki & _ & Hs & Hmin & Hfirst).
    split; [by apply Hok|]. split; [done|]. split.
    + intros j Hj. apply Hok in Hj as [Hjn Hj]. by apply Hmin.
    + intros j Hj Heq. apply Hok in Hj as [Hjn Hj].
      destruct (decide (i <= j)%nat) as [|Hlt]; [done|].
      specialize (Hfirst j ltac:(lia) Hj). lia.
  - destruct Hscan as [_ Hnone].
    intros j Hj. apply Hok in Hj as [Hjn Hj]. by apply Hnone.
Qed.

Lemma pending_nonneg done : Forall (fun b => 0 < b) bt -> 0 <= pending bt done.
Proof.
  unfold pending. intros Hbt. revert done.
  induction Hbt as [|b l Hb Hl IH]; intros [|[] done]; simpl; try lia;
    specialize (IH done); lia.
Qed.

Lemma pending_le done : Forall (fun b => 0 < b) bt -> pending bt done <= list_sum_Z bt.
Proof.
  unfold pending. intros Hbt. revert done.
  induction Hbt as [|b l Hb Hl IH]; intros [|[] done]; simpl; try lia.
  - pose proof (list_sum_Z_nonneg l Hl). lia.
  - specialize (IH done); lia.
  - specialize (IH done); lia.
Qed.

Lemma pending_insert done i :
  (i < length done)%nat -> (i < length bt)%nat -> done !!! i = false ->
  pending bt (<[i := true]> done) = pending bt done - bt !!! i.
Proof.
  unfold pending. revert done i.
  induction bt as [|b l IH]; intros [|d done] i Hd Hb Hf; simpl in *; try lia.
  destruct i as [|i]; simpl.
  - change ((d :: done) !!! 0%nat) with d in Hf. subst d.
    change ((b :: l) !!! 0%nat) with b. lia.
  - change ((d :: done) !!! S i) with (done !!! i) in Hf.
    change ((b :: l) !!! S i) with (l !!! i).
    rewrite IH by (done || lia). lia.
Qed.

Lemma pending_init : length bt = n -> pending bt (replicate n false) = list_sum_Z bt.
Proof.
  unfold pending. intros <-. induction bt as [|b l IH]; simpl; [done|].
  by rewrite IH.
Qed.

Lemma np_select_below time done j :
  select n at_ bt time done = Some j -> bt !!! j < SENTINEL.
Proof.
  intros Hsel. pose proof (np_select_spec time done) as Hspec.
  rewrite Hsel in Hspec. apply Hspec.
Qed.

(** The states the loop goes through are iterates of its body. *)
Lemma np_loop_iter fuel : forall s s',
  loop n at_ bt fuel s = Some s' -> exists k, s' = Nat.iter k (body n at_ bt) s.
Proof.
  induction fuel as [|fuel IH]; intros s s'; simpl;
    destruct (completed s <? Z.of_nat n); intros Hrun; simplify_eq.
  - by exists 0%nat.
  - destruct (IH _ _ Hrun) as [k ->]. exists (S k).
    by rewrite Nat.iter_succ_r.
  - by exists 0%nat.
Qed.

(** More fuel does not change the state a run ends in. *)
Lemma np_loop_mono fuel : forall s s' fuel',
  loop n at_ bt fuel s = Some s' -> (fuel <= fuel')%nat ->
  loop n at_ bt fuel' s = Some s'.
Proof.
  induction fuel as [|fuel IH]; intros s s' fuel'; simpl;
    destruct (completed s <? Z.of_nat n) eqn:Hc; intros Hrun Hle; simplify_eq.
  - destruct fuel'; simpl; by rewrite Hc.
  - destruct fuel' as [|fuel']; [lia|]. simpl. rewrite Hc.
    apply IH; [done | lia].
  - destruct fuel'; simpl; by rewrite Hc.
Qed.

(** With every burst time at or above the sentinel nothing is ever
    selected and the loop keeps idling. *)
Lemma np_all_blocked_diverges fuel : forall s,
  (forall i, (i < n)%nat -> SENTINEL <= bt !!! i) ->
  completed s < Z.of_nat n ->
  loop n at_ bt fuel s = None.
Proof.
  induction fuel as [|fuel IH]; intros s Hbig Hlive; simpl;
    destruct (Z.ltb_spec (completed s) (Z.of_nat n)); try lia; [done|].
  apply IH; [done|]. unfold body.
  pose proof (np_select_spec (time s) (done s)) as Hspec.
  destruct (select n at_ bt (time s) (done s)) as [j|]; [|done].
  destruct Hspec as ((Hj & _) & Hs & _). specialize (Hbig j Hj). lia.
Qed.

(** A record at or above the sentinel stays as it was at the start. *)
Lemma np_blocked i k :
  (i < n)%nat -> SENTINEL <= bt !!! i ->
  let s := Nat.iter k (body n at_ bt) (init n) in
  select n at_ bt (time s) (done s) <> Some i /\
  done s !!! i = false /\ (i ∉ (stores s).*1) /\ ct s !!! i = 0.
Proof.
  intros Hi Hbig. simpl.
  assert (Hnever : forall t d, select n at_ bt t d <> Some i).
  { intros t d Hsel. apply np_select_below in Hsel. lia. }
  split; [apply Hnever|].
  induction k as [|k IH]; simpl.
  - rewrite !lookup_total_replicate_2 by done.
    split_and!; try done. intros Hin. by apply elem_of_nil in Hin.
  - destruct IH as (Hd & Hs & Hc).
    set (s := Nat.iter k (body n at_ bt) (init n)) in *.
    unfold body.
    destruct (select n at_ bt (time s) (done s)) as [idx|] eqn:Hsel; simpl.
    + assert (idx <> i) by (intros ->; by apply Hnever in Hsel).
      rewrite !list_lookup_total_insert_ne by done.
      split_and!; try done.
      rewrite fmap_app, elem_of_app. simpl.
      rewrite list_elem_of_singleton. intros [|]; done.
    + done.
Qed.

Lemma np_body_bookkeeping s :
  Z.of_nat n <= INT_MAX -> bookkeeping n s -> completed s < Z.of_nat n ->
  bookkeeping n (body n at_ bt s).
Proof.
  intros Hn (Hld & Hcomp & Hnd & Hdone & Hlt_n) Hlive.
  pose proof (np_select_spec (time s) (done s)) as Hsel.
  unfold body. destruct (select n at_ bt (time s) (done s)) as [idx|]; [|done].
  destruct Hsel as ((Hidx & _ & Hnot) & _).
  assert (Hfresh : idx ∉ (stores s).*1).
  { intros Hin. apply Hdone in Hin; [congruence | done]. }
  rewrite (add32_id (completed s) 1) by (unfold in_int, INT_MAX in *; lia).
  unfold bookkeeping; simpl. rewrite !length_insert, fmap_app, length_app. simpl.
  split_and!; try done; try lia.
  - apply NoDup_app. split; [done|]. split; [|apply NoDup_singleton].
    intros i Hi Hi'. apply list_elem_of_singleton in Hi'. by subst.
  - intros i Hi. rewrite elem_of_app, list_elem_of_singleton.
    destruct (decide (i = idx)) as [->|Hne].
    + rewrite list_lookup_total_insert_eq by lia. tauto.
    + rewrite list_lookup_total_insert_ne by done.
      rewrite (Hdone i Hi). tauto.
  - intros i Hi. apply elem_of_app in Hi as [Hi|Hi]; [by apply Hlt_n|].
    apply list_elem_of_singleton in Hi. by subst.
Qed.

Lemma np_loop_bookkeeping fuel : forall s s',
  Z.of_nat n <= INT_MAX -> bookkeeping n s ->
  loop n at_ bt fuel s = Some s' ->
  bookkeeping n s' /\ Z.of_nat n <= completed s'.
Proof.
  induction fuel as [|fuel IH]; intros s s' Hn Hbook; simpl;
    destruct (Z.ltb_spec (completed s) (Z.of_nat n)); intros Hrun; simplify_eq;
    try done.
  apply (IH (body n at_ bt s)); [done | | done].
  by apply np_body_bookkeeping.
Qed.

(** With a record at or above the sentinel the loop does not end. *)
Lemma np_blocked_never_ends i fuel s :
  Z.of_nat n <= INT_MAX -> (i < n)%nat -> SENTINEL <= bt !!! i ->
  loop n at_ bt fuel (init n) <> Some s.
Proof.
  intros Hn Hi Hbig Hrun.
  destruct (np_loop_bookkeeping fuel (init n) s Hn) as [Hbook Hstop]; [|done|].
  { unfold bookkeeping, init; simpl. rewrite length_replicate.
    split_and!; try done.
    - constructor.
    - intros j Hj. rewrite lookup_total_replicate_2 by done.
      split; [done|]. intros Hin. by apply elem_of_nil in Hin.
    - intros j Hj. by apply elem_of_nil in Hj. }
  destruct Hbook as (_ & Hcomp & Hnd & _ & Hlt_n).
  assert (Hperm : (stores s).*1 ≡ₚ seq 0 n).
  { apply full_indices; [done | done |]. rewrite length_fmap. lia. }
  destruct (np_loop_iter fuel _ _ Hrun) as [k ->].
  destruct (np_blocked i k Hi Hbig) as (_ & _ & Hout & _).
  apply Hout. rewrite Hperm. apply elem_of_seq. lia.
Qed.

Hypothesis Hvalid : valid_input n at_ bt.
Hypothesis Hbelow : Forall (fun b => b < SENTINEL) bt.

Lemma np_init_inv : inv n at_ bt (init n).
Proof.
  destruct Hvalid as [Hla Hlb Hat Hbt Hrange].
  pose proof (list_max_Z_nonneg at_).
  unfold inv, init; simpl. rewrite !length_replicate, pending_init by done.
  split_and!; try done; try lia.
  - constructor.
  - intros i Hi. rewrite lookup_total_replicate_2 by done.
    split; [done|]. intros Hin. by apply elem_of_nil in Hin.
  - intros i Hi. by apply elem_of_nil in Hi.
  - intros i v Hi. by apply elem_of_nil in Hi.
  - intros i Hi Hd. rewrite lookup_total_replicate_2 in Hd by done. done.
Qed.

Lemma np_body_inv s :
  inv n at_ bt s -> completed s < Z.of_nat n ->
  inv n at_ bt (body n at_ bt s) /\
  (remaining n at_ (body n at_ bt s) < remaining n at_ s)%nat.
Proof.
  destruct Hvalid as [Hla Hlb Hat Hbt Hrange].
  intros (Hld & Hlc & Hlt & Hlw & H0 & Hbound & Hcomp & Hnd & Hdone & Hlt_n
          & Hct & Hmet) Hlive.
  pose proof (list_sum_Z_ge_length bt Hbt) as Hn. rewrite Hlb in Hn.
  pose proof (list_max_Z_nonneg at_) as Hm0.
  pose proof (pending_nonneg (done s) Hbt) as Hp0.
  pose proof (pending_le (done s) Hbt) as Hp1.
  pose proof (np_select_spec (time s) (done s)) as Hsel.
  unfold body. destruct (select n at_ bt (time s) (done s)) as [idx|].
  - destruct Hsel as ((Hidx & Harr & Hnot) & Hs & _ & _).
    pose proof (pending_insert (done s) idx ltac:(lia) ltac:(lia) Hnot) as Hpi.
    pose proof (pending_nonneg (<[idx := true]> (done s)) Hbt) as Hp2.
    pose proof (Forall_lookup_total_Z _ _ idx Hat ltac:(lia)) as Hatk.
    pose proof (Forall_lookup_total_Z _ _ idx Hbt ltac:(lia)) as Hbtk.
    simpl in Hatk, Hbtk.
    set (a := at_ !!! idx) in *. set (b := bt !!! idx) in *.
    assert (Hfresh : idx ∉ (stores s).*1).
    { intros Hin. apply Hdone in Hin; [congruence | done]. }
    rewrite (add32_id (time s) b) by (unfold in_int, INT_MAX in *; lia).
    rewrite (add32_id (completed s) 1) by (unfold in_int, INT_MAX in *; lia).
    rewrite list_lookup_total_insert_eq by lia.
    rewrite (sub32_id (time s + b) a) by (unfold in_int, INT_MAX in *; lia).
    rewrite list_lookup_total_insert_eq by lia.
    rewrite (sub32_id (time s + b - a) b) by (unfold in_int, INT_MAX in *; lia).
    split.
    + unfold inv; simpl. rewrite !length_insert, fmap_app, length_app. simpl.
      split_and!; try done; try lia.
      * apply NoDup_app. split; [done|]. split; [|apply NoDup_singleton].
        intros i Hi Hi'. apply list_elem_of_singleton in Hi'. by subst.
      * intros i Hi. rewrite elem_of_app, list_elem_of_singleton.
        destruct (decide (i = idx)) as [->|Hne].
        -- rewrite list_lookup_total_insert_eq by lia. tauto.
        -- rewrite list_lookup_total_insert_ne by done.
           rewrite (Hdone i Hi). tauto.
      * intros i Hi. apply elem_of_app in Hi as [Hi|Hi]; [by apply Hlt_n|].
        apply list_elem_of_singleton in Hi. by subst.
      * intros i v Hi. apply elem_of_app in Hi as [Hi|Hi].
        -- assert (Hin : i ∈ (stores s).*1).
           { apply list_elem_of_fmap. by exists (i, v). }
           rewrite list_lookup_total_insert_ne by (intros ->; done).
           by apply Hct.
        -- apply list_elem_of_singleton in Hi. simplify_eq.
           by rewrite list_lookup_total_insert_eq by lia.
      * intros i Hi Hd. unfold metrics_ok; simpl.
        destruct (decide (i = idx)) as [->|Hne].
        -- rewrite !list_lookup_total_insert_eq by lia. fold a b. lia.
        -- rewrite list_lookup_total_insert_ne in Hd by done.
           rewrite !list_lookup_total_insert_ne by done. by apply Hmet.
    + unfold remaining; simpl. rewrite length_app. simpl. lia.
  - assert (Hlen : (length (stores s).*1 < n)%nat) by (rewrite length_fmap; lia).
    destruct (missing_index _ n Hnd Hlen) as (i & Hi & Hni).
    assert (Hdi : done s !!! i = false).
    { destruct (done s !!! i) eqn:Hd; [|done]. by apply Hdone in Hd. }
    pose proof (Forall_lookup_total_Z _ _ i Hbelow ltac:(lia)) as Hbi.
    simpl in Hbi.
    assert (Hlate : time s < at_ !!! i).
    { destruct (Z.lt_ge_cases (time s) (at_ !!! i)) as [|Hle]; [done|].
      assert (He : eligible n at_ (time s) (done s) i) by (unfold eligible; lia || split_and!; lia || done).
      specialize (Hsel i He). lia. }
    pose proof (list_max_Z_ge at_ i ltac:(lia)) as Hmax.
    rewrite (add32_id (time s) 1) by (unfold in_int, INT_MAX in *; lia).
    split.
    + unfold inv; simpl. split_and!; try done; try lia.
    + unfold remaining; simpl. lia.
Qed.

Lemma np_loop_terminates fuel : forall s,
  inv n at_ bt s -> (remaining n at_ s <= fuel)%nat ->
  exists s', loop n at_ bt fuel s = Some s' /\ inv n at_ bt s' /\
             Z.of_nat n <= completed s'.
Proof.
  induction fuel as [|fuel IH]; intros s Hinv Hrem; simpl;
    destruct (Z.ltb_spec (completed s) (Z.of_nat n)) as [Hlive|Hstop];
    try (exists s; split_and!; done).
  - exfalso. destruct Hinv as (_ & _ & _ & _ & _ & _ & Hcomp & _).
    unfold remaining in Hrem. lia.
  - destruct (np_body_inv s Hinv Hlive) as [Hinv' Hdec].
    apply IH; [done | lia].
Qed.

(** What the invariant gives once the loop condition fails. *)
Lemma np_inv_final s :
  inv n at_ bt s -> Z.of_nat n <= completed s ->
  (stores s).*1 ≡ₚ seq 0 n /\
  (forall i v, (i, v) ∈ stores s -> ct s !!! i = v) /\
  (forall i, (i < n)%nat -> metrics_ok at_ bt s i).
Proof.
  intros (Hld & Hlc & Hlt & Hlw & H0 & Hbound & Hcomp & Hnd & Hdone & Hlt_n
          & Hct & Hmet) Hstop.
  assert (Hlen : length (stores s).*1 = n).
  { destruct (decide (length (stores s).*1 = n)) as [|Hne]; [done|].
    assert (Hsub : (stores s).*1 ⊆+ seq 0 n).
    { apply NoDup_submseteq; [done|]. intros i Hi. apply elem_of_seq.
      specialize (Hlt_n i Hi). lia. }
    apply submseteq_length in Hsub. rewrite length_seq in Hsub.
    rewrite length_fmap in *. lia. }
  pose proof (all_indices _ n Hnd Hlen Hlt_n) as Hperm.
  split_and!; try done.
  intros i Hi. apply Hmet; [done|]. apply Hdone; [done|].
  rewrite Hperm. apply elem_of_seq. lia.
Qed.

Lemma np_run_spec fuel :
  (enough_fuel n at_ <= fuel)%nat ->
  exists s, loop n at_ bt fuel (init n) = Some s /\
    (stores s).*1 ≡ₚ seq 0 n /\
    (forall i v, (i, v) ∈ stores s -> ct s !!! i = v) /\
    (forall i, (i < n)%nat -> metrics_ok at_ bt s i).
Proof.
  intros Hfuel.
  destruct (np_loop_terminates fuel (init n) np_init_inv) as (s & Hrun & Hinv & Hstop).
  { unfold remaining, enough_fuel, init in *; simpl.
    rewrite Z.sub_0_r. lia. }
  exists s. split; [done|]. by apply np_inv_final.
Qed.

(** Every run that ends does so in the state [np_run_spec] describes. *)
Lemma np_run_any fuel s :
  loop n at_ bt fuel (init n) = Some s ->
  (stores s).*1 ≡ₚ seq 0 n /\
  (forall i v, (i, v) ∈ stores s -> ct s !!! i = v) /\
  (forall i, (i < n)%nat -> metrics_ok at_ bt s i).
Proof.
  intros Hrun.
  destruct (np_run_spec (fuel `max` enough_fuel n at_) ltac:(lia)) as (s0 & Hrun0 & Hspec).
  rewrite (np_loop_mono fuel _ s (fuel `max` enough_fuel n at_) Hrun) in Hrun0 by lia.
  by simplify_eq.
Qed.

End Facts.

(** A run that ends, on any valid input, ends as [np_run_spec] says: with
    a burst time at or above the sentinel no run ends. *)
Lemma np_run_sound n at_ bt fuel s :
  valid_input n at_ bt ->
  loop n at_ bt fuel (init n) = Some s ->
  (stores s).*1 ≡ₚ seq 0 n /\
  (forall i v, (i, v) ∈ stores s -> ct s !!! i = v) /\
  (forall i, (i < n)%nat -> metrics_ok at_ bt s i).
Proof.
  intros Hv Hrun.
  destruct (decide (Forall (fun b => b < SENTINEL) bt)) as [Hb|Hnb].
  - by apply (np_run_any n at_ bt Hv Hb fuel).
  - exfalso. apply not_Forall_Exists in Hnb; [|tc_solve].
    apply Exists_exists in Hnb as (b & Hin & Hb). simpl in Hb.
    apply list_elem_of_lookup in Hin as [i Hi].
    pose proof (lookup_lt_Some _ _ _ Hi) as Hlt.
    destruct Hv as [Hla Hlb Hat Hbt Hrange].
    pose proof (list_sum_Z_ge_length bt Hbt).
    pose proof (list_max_Z_nonneg at_).
    apply (np_blocked_never_ends n at_ bt i fuel s); try done; try lia.
    rewrite (list_lookup_total_correct _ _ _ Hi). lia.
Qed.

End NonPreemptiveProofs.

(** * Facts about sjf.cpp: the second branch *)

Module PreemptiveProofs.
Import Sjf Sjf.Preemptive.

Example p_abc :
  loop 3 [0;1;2] [8;4;2] 14 (init 3 [8;4;2]) =
  Some (State 14 3 [0;0;0] [14;7;4] [14;6;2] [6;2;0]
          [(2%nat,4); (1%nat,7); (0%nat,14)]).
Proof. reflexivity. Qed.

Section Facts.
Variable n : nat.
Variables at_ bt : list Z.

Lemma srtf_select_spec time rt :
  match select n at_ time rt with
  | Some i =>
      (i < n)%nat /\ at_ !!! i <= time /\ 0 < rt !!! i < SENTINEL /\
      (forall j, (j < n)%nat -> at_ !!! j <= time -> 0 < rt !!! j ->
         rt !!! i <= rt !!! j) /\
      (forall j, (j < i)%nat -> at_ !!! j <= time -> 0 < rt !!! j ->
         rt !!! i < rt !!! j)
  | None =>
      forall j, (j < n)%nat -> at_ !!! j <= time -> 0 < rt !!! j ->
        SENTINEL <= rt !!! j
  end.
Proof.
  pose proof (min_scan_spec
    (fun i => (at_ !!! i <=? time) && (rt !!! i >? 0))
    (fun i => rt !!! i) SENTINEL n) as Hscan.
  unfold select.
  change (scan_body at_ time rt) with
    (min_scan_step (fun i => (at_ !!! i <=? time) && (rt !!! i >? 0))
                   (fun i => rt !!! i)).
  unfold min_scan_result in Hscan.
  assert (Hok : forall j, (at_ !!! j <=? time) && (rt !!! j >? 0) = true <->
                          at_ !!! j <= time /\ 0 < rt !!! j).
  { intros j. rewrite andb_true_iff, Z.leb_le, Z.gtb_ltb, Z.ltb_lt. tauto. }
  destruct (fold_left _ _ _).1 as [i|].
  - destruct Hscan as (Hi & Hoki & _ & Hs & Hmin & Hfirst).
    apply Hok in Hoki as [Ha Hr].
    split_and!; try done.
    + intros j Hj Haj Hrj. apply Hmin; [done|]. by apply Hok.
    + intros j Hj Haj Hrj. apply Hfirst; [done|]. by apply Hok.
  - destruct Hscan as [_ Hnone].
    intros j Hj Haj Hrj. apply Hnone; [done|]. by apply Hok.
Qed.

Lemma srtf_select_below time rt j :
  select n at_ time rt = Some j -> rt !!! j < SENTINEL.
Proof.
  intros Hsel. pose proof (srtf_select_spec time rt) as Hspec.
  rewrite Hsel in Hspec. apply Hspec.
Qed.

(** The states the loop goes through are iterates of its body. *)
Lemma srtf_loop_iter fuel : forall s s',
  loop n at_ bt fuel s = Some s' -> exists k, s' = Nat.iter k (body n at_ bt) s.
Proof.
  induction fuel as [|fuel IH]; intros s s'; simpl;
    destruct (completed s <? Z.of_nat n); intros Hrun; simplify_eq.
  - by exists 0%nat.
  - destruct (IH _ _ Hrun) as [k ->]. exists (S k).
    by rewrite Nat.iter_succ_r.
  - by exists 0%nat.
Qed.

(** More fuel does not change the state a run ends in. *)
Lemma srtf_loop_mono fuel : forall s s' fuel',
  loop n at_ bt fuel s = Some s' -> (fuel <= fuel')%nat ->
  loop n at_ bt fuel' s = Some s'.
Proof.
  induction fuel as [|fuel IH]; intros s s' fuel'; simpl;
    destruct (completed s <? Z.of_nat n) eqn:Hc; intros Hrun Hle; simplify_eq.
  - destruct fuel'; simpl; by rewrite Hc.
  - destruct fuel' as [|fuel']; [lia|]. simpl. rewrite Hc.
    apply IH; [done | lia].
  - destruct fuel'; simpl; by rewrite Hc.
Qed.

(** With every remaining time at or above the sentinel nothing is ever
    selected and the loop keeps idling. *)
Lemma srtf_all_blocked_diverges fuel : forall s,
  (forall i, (i < n)%nat -> SENTINEL <= rt s !!! i) ->
  completed s < Z.of_nat n ->
  loop n at_ bt fuel s = None.
Proof.
  induction fuel as [|fuel IH]; intros s Hbig Hlive; simpl;
    destruct (Z.ltb_spec (completed s) (Z.of_nat n)); try lia; [done|].
  pose proof (srtf_select_spec (time s) (rt s)) as Hspec.
  assert (Hidle : body n at_ bt s =
    State (add32 (time s) 1) (completed s) (rt s) (ct s) (tat s) (wt s) (stores s)).
  { unfold body. destruct (select n at_ (time s) (rt s)) as [j|]; [|done].
    destruct Hspec as (Hj & _ & [_ Hs] & _). specialize (Hbig j Hj). lia. }
  rewrite Hidle. by apply IH.
Qed.

(** A record at or above the sentinel keeps all its remaining time. *)
Lemma srtf_blocked i k :
  (i < n)%nat -> SENTINEL <= bt !!! i ->
  let s := Nat.iter k (body n at_ bt) (init n bt) in
  select n at_ (time s) (rt s) <> Some i /\
  rt s !!! i = bt !!! i /\ (i ∉ (stores s).*1) /\ ct s !!! i = 0.
Proof.
  intros Hi Hbig. simpl.
  assert (Hstay : rt (Nat.iter k (body n at_ bt) (init n bt)) !!! i = bt !!! i /\
                  (i ∉ (stores (Nat.iter k (body n at_ bt) (init n bt))).*1) /\
                  ct (Nat.iter k (body n at_ bt) (init n bt)) !!! i = 0).
  { induction k as [|k IH]; simpl.
    - rewrite !lookup_total_replicate_2 by done.
      split_and!; try done. intros Hin. by apply elem_of_nil in Hin.
    - destruct IH as (Hr & Hs & Hc).
      set (s := Nat.iter k (body n at_ bt) (init n bt)) in *.
      unfold body.
      destruct (select n at_ (time s) (rt s)) as [idx|] eqn:Hsel; simpl; [|done].
      assert (idx <> i).
      { intros ->. apply srtf_select_below in Hsel. lia. }
      destruct (_ =? 0); simpl; rewrite !list_lookup_total_insert_ne by done.
      + split_and!; try done.
        rewrite fmap_app, elem_of_app. simpl.
        rewrite list_elem_of_singleton. intros [|]; done.
      + done. }
  split; [|done].
  intros Hsel. apply srtf_select_below in Hsel. destruct Hstay as [Hr _]. lia.
Qed.

Lemma srtf_body_bookkeeping s :
  Z.of_nat n <= INT_MAX -> bookkeeping n s -> completed s < Z.of_nat n ->
  bookkeeping n (body n at_ bt s).
Proof.
  intros Hn (Hlr & Hcomp & Hnd & Hst) Hlive.
  pose proof (srtf_select_spec (time s) (rt s)) as Hsel.
  unfold body. destruct (select n at_ (time s) (rt s)) as [idx|]; [|done].
  destruct Hsel as (Hidx & _ & [Hr0 Hr1] & _).
  assert (Hfresh : idx ∉ (stores s).*1).
  { intros Hin. apply Hst in Hin as [_ Hz]. lia. }
  assert (Hkeep : forall i v, i ∈ (stores s).*1 ->
            (i < n)%nat /\ <[idx := v]> (rt s) !!! i = 0).
  { intros i v Hin. destruct (Hst i Hin) as [Hi Hz]. split; [done|].
    rewrite list_lookup_total_insert_ne; [done|]. by intros ->. }
  destruct (_ =? 0) eqn:Hzero.
  - apply Z.eqb_eq in Hzero.
    rewrite (add32_id (completed s) 1) by (unfold in_int, INT_MAX in *; lia).
    unfold bookkeeping; simpl. rewrite !length_insert, fmap_app, length_app. simpl.
    split_and!; try done; try lia.
    + apply NoDup_app. split; [done|]. split; [|apply NoDup_singleton].
      intros i Hi Hi'. apply list_elem_of_singleton in Hi'. by subst.
    + intros i Hi. apply elem_of_app in Hi as [Hi|Hi]; [by apply Hkeep|].
      apply list_elem_of_singleton in Hi. by subst.
  - unfold bookkeeping; simpl. rewrite !length_insert.
    split_and!; try done. intros i Hi. by apply Hkeep.
Qed.

Lemma srtf_loop_bookkeeping fuel : forall s s',
  Z.of_nat n <= INT_MAX -> bookkeeping n s ->
  loop n at_ bt fuel s = Some s' ->
  bookkeeping n s' /\ Z.of_nat n <= completed s'.
Proof.
  induction fuel as [|fuel IH]; intros s s' Hn Hbook; simpl;
    destruct (Z.ltb_spec (completed s) (Z.of_nat n)); intros Hrun; simplify_eq;
    try done.
  apply (IH (body n at_ bt s)); [done | | done].
  by apply srtf_body_bookkeeping.
Qed.

(** With a record at or above the sentinel the loop does not end. *)
Lemma srtf_blocked_never_ends i fuel s :
  Z.of_nat n <= INT_MAX -> length bt = n -> (i < n)%nat -> SENTINEL <= bt !!! i ->
  loop n at_ bt fuel (init n bt) <> Some s.
Proof.
  intros Hn Hlb Hi Hbig Hrun.
  destruct (srtf_loop_bookkeeping fuel (init n bt) s Hn) as [Hbook Hstop]; [|done|].
  { unfold bookkeeping, init; simpl.
    split_and!; try done.
    - constructor.
    - intros j Hj. by apply elem_of_nil in Hj. }
  destruct Hbook as (_ & Hcomp & Hnd & Hst).
  assert (Hperm : (stores s).*1 ≡ₚ seq 0 n).
  { apply full_indices; [done | |].
    - intros j Hj. by apply Hst.
    - rewrite length_fmap. lia. }
  destruct (srtf_loop_iter fuel _ _ Hrun) as [k ->].
  destruct (srtf_blocked i k Hi Hbig) as (_ & _ & Hout & _).
  apply Hout. rewrite Hperm. apply elem_of_seq. lia.
Qed.

Hypothesis Hvalid : valid_input n at_ bt.
Hypothesis Hbelow : Forall (fun b => b < SENTINEL) bt.

Lemma srtf_init_inv : inv n at_ bt (init n bt).
Proof.
  destruct Hvalid as [Hla Hlb Hat Hbt Hrange].
  pose proof (list_max_Z_nonneg at_).
  assert (Hpos : forall i, (i < n)%nat -> 0 < bt !!! i).
  { intros i Hi. apply (Forall_lookup_total_Z _ _ i Hbt). lia. }
  unfold inv, init; simpl. rewrite !length_replicate.
  split_and!; try done; try lia.
  - intros i Hi. specialize (Hpos i Hi). lia.
  - constructor.
  - intros i Hi. specialize (Hpos i Hi).
    split; [lia|]. intros Hin. by apply elem_of_nil in Hin.
  - intros i Hi. by apply elem_of_nil in Hi.
  - intros i v Hi. by apply elem_of_nil in Hi.
  - intros i Hi Hz. specialize (Hpos i Hi). lia.
Qed.

Lemma srtf_body_inv s :
  inv n at_ bt s -> completed s < Z.of_nat n ->
  inv n at_ bt (body n at_ bt s) /\
  (remaining at_ (body n at_ bt s) < remaining at_ s)%nat.
Proof.
  destruct Hvalid as [Hla Hlb Hat Hbt Hrange].
  intros (Hlr & Hlc & Hlt & Hlw & H0 & Hbound & Hrt & Hserved & Hcomp & Hnd
          & Hzero & Hlt_n & Hct & Hmet) Hlive.
  pose proof (list_sum_Z_ge_length bt Hbt) as Hn. rewrite Hlb in Hn.
  pose proof (list_max_Z_nonneg at_) as Hm0.
  assert (Hsum0 : 0 <= list_sum_Z (rt s)).
  { apply list_sum_Z_nonneg_lookup. intros i Hi. apply Hrt. lia. }
  assert (Hsumb : list_sum_Z (rt s) <= list_sum_Z bt).
  { apply list_sum_Z_le_lookup; [lia|]. intros i Hi. apply Hrt. lia. }
  pose proof (srtf_select_spec (time s) (rt s)) as Hsel.
  unfold body. destruct (select n at_ (time s) (rt s)) as [idx|].
  - destruct Hsel as (Hidx & Harr & [Hr0 Hr1] & _ & _).
    pose proof (Forall_lookup_total_Z _ _ idx Hat ltac:(lia)) as Hatk.
    pose proof (Forall_lookup_total_Z _ _ idx Hbelow ltac:(lia)) as Hbs.
    pose proof (Hrt idx Hidx) as Hrb.
    pose proof (Hserved idx Hidx) as Hsv.
    pose proof (list_sum_Z_insert (rt s) idx (rt s !!! idx - 1) ltac:(lia)) as Hins.
    simpl in Hatk, Hbs.
    set (a := at_ !!! idx) in *. set (b := bt !!! idx) in *.
    set (r := rt s !!! idx) in *.
    assert (Hfresh : idx ∉ (stores s).*1).
    { intros Hin. apply Hzero in Hin; [fold r in Hin; lia | done]. }
    assert (Hsum1 : 0 <= list_sum_Z (<[idx := r - 1]> (rt s))).
    { apply list_sum_Z_nonneg_lookup. rewrite length_insert. intros i Hi.
      destruct (decide (i = idx)) as [->|Hne].
      - rewrite list_lookup_total_insert_eq by lia. lia.
      - rewrite list_lookup_total_insert_ne by done. apply Hrt. lia. }
    unfold SENTINEL in *.
    rewrite (sub32_id r 1) by (unfold in_int, INT_MAX in *; lia).
    rewrite (add32_id (time s) 1) by (unfold in_int, INT_MAX in *; lia).
    rewrite list_lookup_total_insert_eq by lia.
    assert (Hrt1 : forall i, (i < n)%nat ->
              0 <= <[idx := r - 1]> (rt s) !!! i <= bt !!! i).
    { intros i Hi. destruct (decide (i = idx)) as [->|Hne].
      - rewrite list_lookup_total_insert_eq by lia. fold b. lia.
      - rewrite list_lookup_total_insert_ne by done. by apply Hrt. }
    assert (Hserved1 : forall i, (i < n)%nat ->
              <[idx := r - 1]> (rt s) !!! i < bt !!! i ->
              at_ !!! i + (bt !!! i - <[idx := r - 1]> (rt s) !!! i) <= time s + 1).
    { intros i Hi. destruct (decide (i = idx)) as [->|Hne].
      - rewrite list_lookup_total_insert_eq by lia. fold a b. lia.
      - rewrite list_lookup_total_insert_ne by done.
        intros Hlt'. specialize (Hserved i Hi Hlt'). lia. }
    destruct (Z.eqb_spec (r - 1) 0) as [Hlast|Hmore].
    + rewrite (add32_id (completed s) 1) by (unfold in_int, INT_MAX in *; lia).
      rewrite list_lookup_total_insert_eq by lia.
      rewrite (sub32_id (time s + 1) a) by (unfold in_int, INT_MAX in *; lia).
      rewrite list_lookup_total_insert_eq by lia.
      rewrite (sub32_id (time s + 1 - a) b) by (unfold in_int, INT_MAX in *; lia).
      split.
      * unfold inv; simpl. rewrite !length_insert, fmap_app, length_app. simpl.
        split_and!; try done; try lia.
        -- apply NoDup_app. split; [done|]. split; [|apply NoDup_singleton].
           intros i Hi Hi'. apply list_elem_of_singleton in Hi'. by subst.
        -- intros i Hi. rewrite elem_of_app, list_elem_of_singleton.
           destruct (decide (i = idx)) as [->|Hne].
           ++ rewrite list_lookup_total_insert_eq by lia. tauto.
           ++ rewrite list_lookup_total_insert_ne by done.
              rewrite (Hzero i Hi). tauto.
        -- intros i Hi. apply elem_of_app in Hi as [Hi|Hi]; [by apply Hlt_n|].
           apply list_elem_of_singleton in Hi. by subst.
        -- intros i v Hi. apply elem_of_app in Hi as [Hi|Hi].
           ++ assert (Hin : i ∈ (stores s).*1).
              { apply list_elem_of_fmap. by exists (i, v). }
              rewrite list_lookup_total_insert_ne by (intros ->; done).
              by apply Hct.
           ++ apply list_elem_of_singleton in Hi. simplify_eq.
              by rewrite list_lookup_total_insert_eq by lia.
        -- intros i Hi Hz. unfold metrics_ok; simpl.
           destruct (decide (i = idx)) as [->|Hne].
           ++ rewrite !list_lookup_total_insert_eq by lia. fold a b. lia.
           ++ rewrite list_lookup_total_insert_ne in Hz by done.
              rewrite !list_lookup_total_insert_ne by done. by apply Hmet.
      * unfold remaining; simpl. fold r in Hins. lia.
    + split.
      * unfold inv; simpl. rewrite !length_insert.
        split_and!; try done; try lia.
        -- intros i Hi. destruct (decide (i = idx)) as [->|Hne].
           ++ rewrite list_lookup_total_insert_eq by lia. split; [lia|done].
           ++ rewrite list_lookup_total_insert_ne by done. by apply Hzero.
        -- intros i Hi Hz. unfold metrics_ok; simpl.
           destruct (decide (i = idx)) as [->|Hne].
           ++ rewrite list_lookup_total_insert_eq in Hz by lia. lia.
           ++ rewrite list_lookup_total_insert_ne in Hz by done. by apply Hmet.
      * unfold remaining; simpl. fold r in Hins. lia.
  - assert (Hlen : (length (stores s).*1 < n)%nat) by (rewrite length_fmap; lia).
    destruct (missing_index _ n Hnd Hlen) as (i & Hi & Hni).
    assert (Hri : 0 < rt s !!! i).
    { destruct (decide (rt s !!! i = 0)) as [Hz|Hnz].
      - by apply Hzero in Hz.
      - specialize (Hrt i Hi). lia. }
    pose proof (Forall_lookup_total_Z _ _ i Hbelow ltac:(lia)) as Hbi.
    simpl in Hbi.
    assert (Hlate : time s < at_ !!! i).
    { destruct (Z.lt_ge_cases (time s) (at_ !!! i)) as [|Hle]; [done|].
      specialize (Hsel i Hi Hle Hri). specialize (Hrt i Hi). lia. }
    pose proof (list_max_Z_ge at_ i ltac:(lia)) as Hmax.
    rewrite (add32_id (time s) 1) by (unfold in_int, INT_MAX in *; lia).
    split.
    + unfold inv; simpl. split_and!; try done; try lia.
      intros j Hj Hlt'. specialize (Hserved j Hj Hlt'). lia.
    + unfold remaining; simpl. lia.
Qed.

Lemma srtf_loop_terminates fuel : forall s,
  inv n at_ bt s -> (remaining at_ s <= fuel)%nat ->
  exists s', loop n at_ bt fuel s = Some s' /\ inv n at_ bt s' /\
             Z.of_nat n <= completed s'.
Proof.
  induction fuel as [|fuel IH]; intros s Hinv Hrem; simpl;
    destruct (Z.ltb_spec (completed s) (Z.of_nat n)) as [Hlive|Hstop];
    try (exists s; split_and!; done).
  - exfalso. destruct (srtf_body_inv s Hinv Hlive) as [_ Hdec]. lia.
  - destruct (srtf_body_inv s Hinv Hlive) as [Hinv' Hdec].
    apply IH; [done | lia].
Qed.

(** What the invariant gives once the loop condition fails. *)
Lemma srtf_inv_final s :
  inv n at_ bt s -> Z.of_nat n <= completed s ->
  (stores s).*1 ≡ₚ seq 0 n /\
  (forall i v, (i, v) ∈ stores s -> ct s !!! i = v) /\
  (forall i, (i < n)%nat -> metrics_ok at_ bt s i).
Proof.
  intros (Hlr & Hlc & Hlt & Hlw & H0 & Hbound & Hrt & Hserved & Hcomp & Hnd
          & Hzero & Hlt_n & Hct & Hmet) Hstop.
  assert (Hlen : length (stores s).*1 = n).
  { destruct (decide (length (stores s).*1 = n)) as [|Hne]; [done|].
    assert (Hsub : (stores s).*1 ⊆+ seq 0 n).
    { apply NoDup_submseteq; [done|]. intros i Hi. apply elem_of_seq.
      specialize (Hlt_n i Hi). lia. }
    apply submseteq_length in Hsub. rewrite length_seq in Hsub.
    rewrite length_fmap in *. lia. }
  pose proof (all_indices _ n Hnd Hlen Hlt_n) as Hperm.
  split_and!; try done.
  intros i Hi. apply Hmet; [done|]. apply Hzero; [done|].
  rewrite Hperm. apply elem_of_seq. lia.
Qed.

Lemma srtf_run_spec fuel :
  (enough_fuel at_ bt <= fuel)%nat ->
  exists s, loop n at_ bt fuel (init n bt) = Some s /\
    (stores s).*1 ≡ₚ seq 0 n /\
    (forall i v, (i, v) ∈ stores s -> ct s !!! i = v) /\
    (forall i, (i < n)%nat -> metrics_ok at_ bt s i).
Proof.
  intros Hfuel.
  destruct (srtf_loop_terminates fuel (init n bt) srtf_init_inv) as (s & Hrun & Hinv & Hstop).
  { unfold remaining, enough_fuel, init in *; simpl.
    rewrite Z.sub_0_r. lia. }
  exists s. split; [done|]. by apply srtf_inv_final.
Qed.

(** Every run that ends does so in the state [srtf_run_spec] describes. *)
Lemma srtf_run_any fuel s :
  loop n at_ bt fuel (init n bt) = Some s ->
  (stores s).*1 ≡ₚ seq 0 n /\
  (forall i v, (i, v) ∈ stores s -> ct s !!! i = v) /\
  (forall i, (i < n)%nat -> metrics_ok at_ bt s i).
Proof.
  intros Hrun.
  destruct (srtf_run_spec (fuel `max` enough_fuel at_ bt) ltac:(lia)) as (s0 & Hrun0 & Hspec).
  rewrite (srtf_loop_mono fuel _ s (fuel `max` enough_fuel at_ bt) Hrun) in Hrun0 by lia.
  by simplify_eq.
Qed.

End Facts.

(** A run that ends, on any valid input, ends as [srtf_run_spec] says:
    with a burst time at or above the sentinel no run ends. *)
Lemma srtf_run_sound n at_ bt fuel s :
  valid_input n at_ bt ->
  loop n at_ bt fuel (init n bt) = Some s ->
  (stores s).*1 ≡ₚ seq 0 n /\
  (forall i v, (i, v) ∈ stores s -> ct s !!! i = v) /\
  (forall i, (i < n)%nat -> metrics_ok at_ bt s i).
Proof.
  intros Hv Hrun.
  destruct (decide (Forall (fun b => b < SENTINEL) bt)) as [Hb|Hnb].
  - by apply (srtf_run_any n at_ bt Hv Hb fuel).
  - exfalso. apply not_Forall_Exists in Hnb; [|tc_solve].
    apply Exists_exists in Hnb as (b & Hin & Hb). simpl in Hb.
    apply list_elem_of_lookup in Hin as [i Hi].
    pose proof (lookup_lt_Some _ _ _ Hi) as Hlt.
    destruct Hv as [Hla Hlb Hat Hbt Hrange].
    pose proof (list_sum_Z_ge_length bt Hbt).
    pose proof (list_max_Z_nonneg at_).
    apply (srtf_blocked_never_ends n at_ bt i fuel s); try done; try lia.
    rewrite (list_lookup_total_correct _ _ _ Hi). lia.
Qed.

End PreemptiveProofs.

(** * Further facts about pid.cpp *)

Module FcfsMore.
Import Fcfs FcfsProofs.

(** The loop body without the machine arithmetic, under the invariant. *)
Lemma sim_body_exact n p k s :
  valid_input n (at_ p) (bt p) -> (k < n)%nat -> sim_inv n p k s ->
  let c := Z.max (time s) (at_ p !!! k) + bt p !!! k in
  sim_body p s k =
  Sim c (<[k := c]> (ct s))
        (<[k := c - at_ p !!! k]> (tat s))
        (<[k := c - (at_ p !!! k + bt p !!! k)]> (wt s)).
Proof.
  intros [Hla Hlb Hat Hbt Hrange] Hk (Hc & Ht & Hw & Hct & Htime & H0 & Hbound & Hmet).
  pose proof (Forall_lookup_total_Z _ _ k Hat ltac:(lia)) as Hatk.
  pose proof (Forall_lookup_total_Z _ _ k Hbt ltac:(lia)) as Hbtk.
  pose proof (list_max_Z_ge (at_ p) k ltac:(lia)) as Hmax.
  pose proof (list_sum_Z_drop (bt p) k ltac:(lia)) as Hdrop.
  pose proof (list_sum_Z_drop_le (bt p) k Hbt) as Hdk.
  pose proof (list_sum_Z_drop_le (bt p) (S k) Hbt) as Hdk1.
  simpl in Hatk, Hbtk. simpl.
  set (a := at_ p !!! k) in *. set (b := bt p !!! k) in *.
  assert (Hclock : (if time s <? a then a else time s) = Z.max (time s) a).
  { destruct (Z.ltb_spec (time s) a); lia. }
  unfold sim_body. fold a b. rewrite Hclock.
  rewrite (add32_id (Z.max (time s) a) b) by (unfold in_int, INT_MAX in *; lia).
  rewrite list_lookup_total_insert_eq by lia.
  rewrite (add32_id a b) by (unfold in_int, INT_MAX in *; lia).
  rewrite (sub32_id _ (a + b)) by (unfold in_int, INT_MAX in *; lia).
  rewrite (sub32_id _ a) by (unfold in_int, INT_MAX in *; lia).
  reflexivity.
Qed.

Lemma sim_body_sequential n p k s :
  valid_input n (at_ p) (bt p) -> (k < n)%nat ->
  sim_inv n p k s -> fcfs_sequential n p k s ->
  fcfs_sequential n p (S k) (sim_body p s k).
Proof.
  intros Hv Hk Hinv (Hpast & Hseq & Hbusy).
  rewrite (sim_body_exact n p k s Hv Hk Hinv).
  destruct Hv as [Hla Hlb Hat Hbt Hrange].
  destruct Hinv as (Hc & _).
  pose proof (Forall_lookup_total_Z _ _ k Hbt ltac:(lia)) as Hbtk.
  pose proof (list_sum_Z_drop (bt p) k ltac:(lia)) as Hdrop.
  simpl in Hbtk.
  unfold fcfs_sequential; simpl. split_and!.
  - intros i Hi. destruct (decide (i = k)) as [->|Hne].
    + rewrite list_lookup_total_insert_eq by lia. lia.
    + rewrite list_lookup_total_insert_ne by done.
      specialize (Hpast i ltac:(lia)). lia.
  - intros i j Hij. destruct (decide (j = k)) as [->|Hne].
    + rewrite list_lookup_total_insert_eq by lia.
      rewrite list_lookup_total_insert_ne by lia.
      specialize (Hpast i ltac:(lia)). lia.
    + rewrite !list_lookup_total_insert_ne by lia. apply Hseq. lia.
  - lia.
Qed.

Lemma simulate_sequential n p :
  valid_input n (at_ p) (bt p) ->
  sim_inv n p n (simulate n p) /\ fcfs_sequential n p n (simulate n p).
Proof.
  intros Hv. unfold simulate.
  apply (fold_left_seq_inv (sim_body p)
           (fun k s => sim_inv n p k s /\ fcfs_sequential n p k s) n 0%nat).
  - split.
    + pose proof (list_max_Z_nonneg (at_ p)).
      unfold sim_inv, init_sim; simpl. rewrite !length_replicate, drop_0.
      repeat split; try done; try lia.
    + unfold fcfs_sequential, init_sim; simpl. rewrite drop_0.
      split_and!; try lia; intros; lia.
  - intros k s Hk [Hinv Hseq]. split.
    + apply sim_body_inv; [done | lia | done].
    + apply sim_body_sequential; [done | lia | done | done].
Qed.

Lemma sim_body_waits n p k s :
  valid_input n (at_ p) (bt p) -> (k < n)%nat ->
  sim_inv n p k s -> fcfs_waits p k s ->
  fcfs_waits p (S k) (sim_body p s k).
Proof.
  intros Hv Hk Hinv [Hwait Hlast].
  rewrite (sim_body_exact n p k s Hv Hk Hinv).
  destruct Hv as [Hla Hlb Hat Hbt Hrange].
  destruct Hinv as (Hc & _ & Hw & _ & Htime & _).
  pose proof (Forall_lookup_total_Z _ _ k Hat ltac:(lia)) as Hatk.
  simpl in Hatk.
  unfold fcfs_waits; simpl. split.
  - intros j Hj. destruct (decide (j = k)) as [->|Hne].
    + rewrite list_lookup_total_insert_eq by lia.
      destruct k as [|k'].
      * unfold final_clock in Htime. simpl in Htime. lia.
      * rewrite list_lookup_total_insert_ne by lia.
        rewrite Hlast by lia. replace (S k' - 1)%nat with k' by lia. lia.
    + rewrite list_lookup_total_insert_ne by done.
      rewrite Hwait by lia. destruct j as [|j']; [done|].
      by rewrite list_lookup_total_insert_ne by lia.
  - intros _. rewrite Nat.sub_0_r.
    by rewrite list_lookup_total_insert_eq by lia.
Qed.

Lemma simulate_waits n p :
  valid_input n (at_ p) (bt p) -> fcfs_waits p n (simulate n p).
Proof.
  intros Hv. unfold simulate.
  apply (fold_left_seq_inv (sim_body p)
           (fun k s => sim_inv n p k s /\ fcfs_waits p k s) n 0%nat).
  - split.
    + pose proof (list_max_Z_nonneg (at_ p)).
      unfold sim_inv, init_sim; simpl. rewrite !length_replicate, drop_0.
      repeat split; try done; try lia.
    + split; intros; lia.
  - intros k s Hk [Hinv Hw]. split.
    + apply sim_body_inv; [done | lia | done].
    + apply (sim_body_waits n); [done | lia | done | done].
Qed.

(** The sorted arrays hold the same arrival and burst times as the input. *)
Lemma sort_by_arrival_perm n arrival burst :
  length arrival = n -> length burst = n ->
  let p := sort_by_arrival n (Procs (init_pid n) arrival burst) in
  pid p ≡ₚ init_pid n /\ at_ p ≡ₚ arrival /\ bt p ≡ₚ burst.
Proof.
  intros Hla Hlb p.
  destruct (sort_by_arrival_spec n (Procs (init_pid n) arrival burst))
    as ((H1 & H2 & H3) & Hperm & _).
  { unfold well_sized; simpl. by rewrite init_pid_length. }
  fold p in H1, H2, H3, Hperm.
  split_and!.
  - assert (Hp : forall q, length (pid q) = length (at_ q) ->
               length (at_ q) = length (bt q) -> pid q = (rows q).*1).
    { intros q Ha Hb. unfold rows. rewrite fst_zip; [done|].
      rewrite length_zip. lia. }
    rewrite (Hp p) by lia. rewrite Hperm.
    rewrite <- (Hp (Procs (init_pid n) arrival burst)); [done | |];
      simpl; rewrite ?init_pid_length; lia.
  - rewrite (rows_at p) by lia. rewrite Hperm.
    rewrite <- (rows_at (Procs (init_pid n) arrival burst)); [done | |];
      simpl; rewrite ?init_pid_length; lia.
  - rewrite (rows_bt p) by lia. rewrite Hperm.
    rewrite <- (rows_bt (Procs (init_pid n) arrival burst)); [done | |];
      simpl; rewrite ?init_pid_length; lia.
Qed.

Lemma init_pid_NoDup n : NoDup (init_pid n).
Proof.
  unfold init_pid. apply NoDup_fmap_2; [|apply NoDup_seq].
  intros i j Hij. lia.
Qed.

Lemma completion_spec_zero_arrivals arrival : forall burst c,
  Forall (fun a => a = 0) arrival -> length arrival = length burst -> 0 <= c ->
  Forall (fun b => 0 < b) burst ->
  completion_spec c (zip arrival burst) = running_total c burst.
Proof.
  induction arrival as [|a arrival IH]; intros [|b burst] c Hz Hlen Hc Hb;
    simplify_eq/=; [done|].
  apply Forall_cons in Hz as [-> Hz]. apply Forall_cons in Hb as [Hb0 Hb].
  rewrite Z.max_l by lia. f_equal. apply IH; try done. lia.
Qed.

End FcfsMore.

(** * Further facts about the first branch of sjf.cpp *)

Module NonPreemptiveMore.
Import Sjf Sjf.NonPreemptive NonPreemptiveProofs.

Section Facts.
Variable n : nat.
Variables at_ bt : list Z.

(** An invariant of the loop body holds where the loop ends. *)
Lemma np_loop_invariant (I : state -> Prop) :
  (forall s, I s -> completed s < Z.of_nat n -> I (body n at_ bt s)) ->
  forall fuel s s', I s -> loop n at_ bt fuel s = Some s' -> I s'.
Proof.
  intros Hstep. induction fuel as [|fuel IH]; intros s s' HI; simpl;
    destruct (Z.ltb_spec (completed s) (Z.of_nat n)); intros Hrun; simplify_eq;
    try done.
  apply (IH (body n at_ bt s)); [|done]. by apply Hstep.
Qed.

Lemma pending_all_done flags :
  length flags = length bt ->
  (forall i, (i < length flags)%nat -> flags !!! i = true) ->
  pending bt flags = 0.
Proof.
  unfold pending. revert flags.
  induction bt as [|b l IH]; intros [|d flags] Hlen Hall; simplify_eq/=; [done|].
  pose proof (Hall 0%nat ltac:(lia)) as Hd. change (d = true) in Hd. subst d.
  rewrite IH; [done | done |]. intros i Hi. apply (Hall (S i)). lia.
Qed.

Hypothesis Hvalid : valid_input n at_ bt.
Hypothesis Hbelow : Forall (fun b => b < SENTINEL) bt.

(** The loop body without the machine arithmetic, under the invariant. *)
Lemma np_body_exact s :
  inv n at_ bt s -> completed s < Z.of_nat n ->
  match select n at_ bt (time s) (done s) with
  | Some idx =>
      scan_choice n at_ bt (time s) (done s) idx /\
      0 < bt !!! idx /\
      body n at_ bt s =
      State (time s + bt !!! idx) (completed s + 1) (<[idx := true]> (done s))
        (<[idx := time s + bt !!! idx]> (ct s))
        (<[idx := time s + bt !!! idx - at_ !!! idx]> (tat s))
        (<[idx := time s + bt !!! idx - at_ !!! idx - bt !!! idx]> (wt s))
        (stores s ++ [(idx, time s + bt !!! idx)])
  | None =>
      (forall i, (i < n)%nat -> done s !!! i = false -> time s < at_ !!! i) /\
      body n at_ bt s =
      State (time s + 1) (completed s) (done s) (ct s) (tat s) (wt s) (stores s)
  end.
Proof.
  destruct Hvalid as [Hla Hlb Hat Hbt Hrange].
  intros (Hld & Hlc & Hlt & Hlw & H0 & Hbound & Hcomp & Hnd & Hdone & Hlt_n
          & Hct & Hmet) Hlive.
  pose proof (list_sum_Z_ge_length bt Hbt) as Hn. rewrite Hlb in Hn.
  pose proof (list_max_Z_nonneg at_) as Hm0.
  pose proof (pending_nonneg bt (done s) Hbt) as Hp0.
  pose proof (pending_le bt (done s) Hbt) as Hp1.
  pose proof (np_select_spec n at_ bt (time s) (done s)) as Hsel.
  unfold body. destruct (select n at_ bt (time s) (done s)) as [idx|].
  - split; [done|].
    destruct Hsel as ((Hidx & Harr & Hnot) & Hs & _ & _).
    pose proof (pending_insert bt (done s) idx ltac:(lia) ltac:(lia) Hnot) as Hpi.
    pose proof (pending_nonneg bt (<[idx := true]> (done s)) Hbt) as Hp2.
    pose proof (Forall_lookup_total_Z _ _ idx Hat ltac:(lia)) as Hatk.
    pose proof (Forall_lookup_total_Z _ _ idx Hbt ltac:(lia)) as Hbtk.
    simpl in Hatk, Hbtk. split; [done|].
    set (a := at_ !!! idx) in *. set (b := bt !!! idx) in *.
    rewrite (add32_id (time s) b) by (unfold in_int, INT_MAX in *; lia).
    rewrite (add32_id (completed s) 1) by (unfold in_int, INT_MAX in *; lia).
    rewrite list_lookup_total_insert_eq by lia.
    rewrite (sub32_id (time s + b) a) by (unfold in_int, INT_MAX in *; lia).
    rewrite list_lookup_total_insert_eq by lia.
    rewrite (sub32_id (time s + b - a) b) by (unfold in_int, INT_MAX in *; lia).
    reflexivity.
  - assert (Hlate : forall i, (i < n)%nat -> done s !!! i = false ->
                              time s < at_ !!! i).
    { intros i Hi Hdi.
      pose proof (Forall_lookup_total_Z _ _ i Hbelow ltac:(lia)) as Hbi.
      simpl in Hbi.
      destruct (Z.lt_ge_cases (time s) (at_ !!! i)) as [|Hle]; [done|].
      assert (He : eligible n at_ (time s) (done s) i) by (split_and!; lia || done).
      specialize (Hsel i He). lia. }
    split; [done|].
    assert (Hlen : (length (stores s).*1 < n)%nat) by (rewrite length_fmap; lia).
    destruct (missing_index _ n Hnd Hlen) as (i & Hi & Hni).
    assert (Hdi : done s !!! i = false).
    { destruct (done s !!! i) eqn:Hd; [|done]. by apply Hdone in Hd. }
    pose proof (Hlate i Hi Hdi).
    pose proof (list_max_Z_ge at_ i ltac:(lia)) as Hmax.
    rewrite (add32_id (time s) 1) by (unfold in_int, INT_MAX in *; lia).
    reflexivity.
Qed.

Lemma np_body_sequential s :
  inv n at_ bt s /\ np_sequential n bt s -> completed s < Z.of_nat n ->
  inv n at_ bt (body n at_ bt s) /\ np_sequential n bt (body n at_ bt s).
Proof.
  intros [Hinv (Hpast & Hseq & Hbusy)] Hlive.
  split; [by apply np_body_inv|].
  pose proof (np_body_exact s Hinv Hlive) as Hex.
  destruct Hinv as (Hld & Hlc & _).
  destruct Hvalid as [Hla Hlb Hat Hbt Hrange].
  destruct (select n at_ bt (time s) (done s)) as [idx|].
  - destruct Hex as (((Hidx & Harr & Hnot) & _) & Hb0 & ->).
    pose proof (pending_insert bt (done s) idx ltac:(lia) ltac:(lia) Hnot) as Hpi.
    unfold np_sequential; simpl. split_and!.
    + intros i Hi. destruct (decide (i = idx)) as [->|Hne].
      * rewrite !list_lookup_total_insert_eq by lia. lia.
      * rewrite !list_lookup_total_insert_ne by done. intros Hd.
        specialize (Hpast i Hi Hd). lia.
    + intros i j Hi Hj Hij.
      destruct (decide (i = idx)) as [->|Hni], (decide (j = idx)) as [->|Hnj];
        try done.
      * rewrite !list_lookup_total_insert_eq by lia.
        rewrite !(list_lookup_total_insert_ne _ idx j) by done.
        intros _ Hd. specialize (Hpast j Hj Hd). right. lia.
      * rewrite !(list_lookup_total_insert_ne _ idx i) by done.
        rewrite !list_lookup_total_insert_eq by lia.
        intros Hd _. specialize (Hpast i Hi Hd). left. lia.
      * rewrite !list_lookup_total_insert_ne by done. by apply Hseq.
    + lia.
  - destruct Hex as [_ ->]. unfold np_sequential; simpl. split_and!.
    + intros i Hi Hd. specialize (Hpast i Hi Hd). lia.
    + done.
    + lia.
Qed.

Lemma np_init_sequential : np_sequential n bt (init n).
Proof.
  destruct Hvalid as [Hla Hlb Hat Hbt Hrange].
  unfold np_sequential, init; simpl. rewrite pending_init by done.
  split_and!; try lia.
  - intros i Hi. by rewrite lookup_total_replicate_2.
  - intros i j Hi Hj _. by rewrite lookup_total_replicate_2.
Qed.

(** Where a run ends: every record done, the schedule sequential. *)
Lemma np_run_sequential fuel s :
  loop n at_ bt fuel (init n) = Some s ->
  (forall i, (i < n)%nat -> done s !!! i = true) /\
  inv n at_ bt s /\ np_sequential n bt s.
Proof.
  intros Hrun.
  assert (HI : inv n at_ bt s /\ np_sequential n bt s).
  { apply (np_loop_invariant
             (fun s => inv n at_ bt s /\ np_sequential n bt s)
             np_body_sequential fuel (init n) s); [|done].
    split; [by apply np_init_inv | apply np_init_sequential]. }
  split; [|done].
  destruct (np_run_any n at_ bt Hvalid Hbelow fuel s Hrun) as (Hperm & _).
  destruct HI as [(_ & _ & _ & _ & _ & _ & _ & _ & Hdone & _) _].
  intros i Hi. apply Hdone; [done|]. rewrite Hperm. apply elem_of_seq. lia.
Qed.

Hypothesis Hzero : Forall (fun a => a = 0) at_.

Lemma np_body_shortest_first s :
  inv n at_ bt s /\ np_sequential n bt s /\ np_shortest_first n bt s ->
  completed s < Z.of_nat n ->
  inv n at_ bt (body n at_ bt s) /\ np_sequential n bt (body n at_ bt s) /\
  np_shortest_first n bt (body n at_ bt s).
Proof.
  intros (Hinv & Hseq & Hund & Hord) Hlive.
  destruct (np_body_sequential s (conj Hinv Hseq) Hlive) as [Hinv' Hseq'].
  split; [done|]. split; [done|].
  pose proof (np_body_exact s Hinv Hlive) as Hex.
  destruct Hseq as (Hpast & _).
  destruct Hinv as (Hld & Hlc & _ & _ & H0 & _).
  destruct Hvalid as [Hla Hlb Hat Hbt Hrange].
  destruct (select n at_ bt (time s) (done s)) as [idx|].
  - destruct Hex as (((Hidx & Harr & Hnot) & _ & Hmin & Hfirst) & Hb0 & ->).
    assert (Hpref : forall j, (j < n)%nat -> j <> idx -> done s !!! j = false ->
                              before bt idx j).
    { intros j Hj Hne Hdj.
      assert (He : eligible n at_ (time s) (done s) j).
      { split; [done|]. split; [|done].
        pose proof (Forall_lookup_total_Z _ _ j Hzero ltac:(lia)) as Hz.
        simpl in Hz. lia. }
      specialize (Hmin j He). unfold before.
      destruct (decide (bt !!! j = bt !!! idx)) as [Heq|Hneq].
      - specialize (Hfirst j He Heq). right. split; [done|lia].
      - left. lia. }
    unfold np_shortest_first; simpl. split.
    + intros i j Hi Hj.
      destruct (decide (j = idx)) as [->|Hnj].
      { by rewrite list_lookup_total_insert_eq by lia. }
      rewrite (list_lookup_total_insert_ne _ idx j) by done.
      destruct (decide (i = idx)) as [->|Hni].
      * intros _ Hdj. by apply Hpref.
      * rewrite list_lookup_total_insert_ne by done. by apply Hund.
    + intros i j Hi Hj.
      destruct (decide (i = idx)) as [->|Hni], (decide (j = idx)) as [->|Hnj].
      * unfold before. lia.
      * rewrite (list_lookup_total_insert_ne _ idx j) by done.
        intros _ Hdj Hb. specialize (Hund j idx Hj Hidx Hdj Hnot).
        unfold before in *. lia.
      * rewrite !(list_lookup_total_insert_ne _ idx i) by done.
        rewrite !list_lookup_total_insert_eq by lia.
        intros Hdi _ _. specialize (Hpast i Hi Hdi). lia.
      * rewrite !list_lookup_total_insert_ne by done. by apply Hord.
  - by destruct Hex as [_ ->].
Qed.

Lemma np_run_shortest_first fuel s :
  loop n at_ bt fuel (init n) = Some s -> np_shortest_first n bt s.
Proof.
  intros Hrun.
  apply (np_loop_invariant
           (fun s => inv n at_ bt s /\ np_sequential n bt s /\
                     np_shortest_first n bt s)
           np_body_shortest_first fuel (init n) s); [|done].
  split; [by apply np_init_inv|]. split; [apply np_init_sequential|].
  unfold np_shortest_first, init; simpl. split.
  - intros i j Hi Hj. by rewrite lookup_total_replicate_2.
  - intros i j Hi Hj. by rewrite lookup_total_replicate_2.
Qed.

End Facts.

(** A run that ends had every burst time below the sentinel. *)
Lemma np_ends_below n at_ bt fuel s :
  valid_input n at_ bt ->
  loop n at_ bt fuel (init n) = Some s ->
  Forall (fun b => b < SENTINEL) bt.
Proof.
  intros Hv Hrun.
  destruct (decide (Forall (fun b => b < SENTINEL) bt)) as [Hb|Hnb]; [done|].
  exfalso. apply not_Forall_Exists in Hnb; [|tc_solve].
  apply Exists_exists in Hnb as (b & Hin & Hb). simpl in Hb.
  apply list_elem_of_lookup in Hin as [i Hi].
  pose proof (lookup_lt_Some _ _ _ Hi) as Hlt.
  destruct Hv as [Hla Hlb Hat Hbt Hrange].
  pose proof (list_sum_Z_ge_length bt Hbt).
  pose proof (list_max_Z_nonneg at_).
  apply (np_blocked_never_ends n at_ bt i fuel s); try done; try lia.
  rewrite (list_lookup_total_correct _ _ _ Hi). lia.
Qed.

End NonPreemptiveMore.

(** * Further facts about the second branch of sjf.cpp *)

Module PreemptiveMore.
Import Sjf Sjf.Preemptive PreemptiveProofs.

Section Facts.
Variable n : nat.
Variables at_ bt : list Z.

(** An invariant of the loop body holds where the loop ends. *)
Lemma srtf_loop_invariant (I : state -> Prop) :
  (forall s, I s -> completed s < Z.of_nat n -> I (body n at_ bt s)) ->
  forall fuel s s', I s -> loop n at_ bt fuel s = Some s' -> I s'.
Proof.
  intros Hstep. induction fuel as [|fuel IH]; intros s s' HI; simpl;
    destruct (Z.ltb_spec (completed s) (Z.of_nat n)); intros Hrun; simplify_eq;
    try done.
  apply (IH (body n at_ bt s)); [|done]. by apply Hstep.
Qed.

(** A record with no burst time to serve is never selected: its remaining
    time stays what it was and its [ct] is never assigned. *)
Lemma srtf_idle_record i k :
  (i < n)%nat -> bt !!! i <= 0 ->
  let s := Nat.iter k (body n at_ bt) (init n bt) in
  rt s !!! i = bt !!! i /\ (i ∉ (stores s).*1) /\ ct s !!! i = 0.
Proof.
  intros Hi Hnone. simpl.
  induction k as [|k IH]; simpl.
  - rewrite !lookup_total_replicate_2 by done.
    split_and!; try done. intros Hin. by apply elem_of_nil in Hin.
  - destruct IH as (Hr & Hs & Hc).
    set (s := Nat.iter k (body n at_ bt) (init n bt)) in *.
    pose proof (srtf_select_spec n at_ (time s) (rt s)) as Hspec.
    unfold body.
    destruct (select n at_ (time s) (rt s)) as [idx|]; simpl; [|done].
    assert (idx <> i).
    { intros ->. destruct Hspec as (_ & _ & [Hpos _] & _). lia. }
    destruct (_ =? 0); simpl; rewrite !list_lookup_total_insert_ne by done.
    + split_and!; try done.
      rewrite fmap_app, elem_of_app. simpl.
      rewrite list_elem_of_singleton. intros [|]; done.
    + done.
Qed.

Lemma srtf_idle_record_never_ends i fuel :
  Z.of_nat n <= INT_MAX -> length bt = n -> (i < n)%nat -> bt !!! i <= 0 ->
  loop n at_ bt fuel (init n bt) = None.
Proof.
  intros Hn Hlb Hi Hnone.
  destruct (loop n at_ bt fuel (init n bt)) as [s|] eqn:Hrun; [|done].
  exfalso.
  destruct (srtf_loop_bookkeeping n at_ bt fuel (init n bt) s Hn) as [Hbook Hstop];
    [|done|].
  { unfold bookkeeping, init; simpl.
    split_and!; try done.
    - constructor.
    - intros j Hj. by apply elem_of_nil in Hj. }
  destruct Hbook as (_ & Hcomp & Hnd & Hst).
  assert (Hperm : (stores s).*1 ≡ₚ seq 0 n).
  { apply full_indices; [done | |].
    - intros j Hj. by apply Hst.
    - rewrite length_fmap. lia. }
  destruct (srtf_loop_iter n at_ bt fuel _ _ Hrun) as [k ->].
  destruct (srtf_idle_record i k Hi Hnone) as (_ & Hout & _).
  apply Hout. rewrite Hperm. apply elem_of_seq. lia.
Qed.

Hypothesis Hvalid : valid_input n at_ bt.
Hypothesis Hbelow : Forall (fun b => b < SENTINEL) bt.

(** The loop body without the machine arithmetic, under the invariant. *)
Lemma srtf_body_exact s :
  inv n at_ bt s -> completed s < Z.of_nat n ->
  match select n at_ (time s) (rt s) with
  | Some idx =>
      (idx < n)%nat /\ at_ !!! idx <= time s /\ 0 < rt s !!! idx /\
      body n at_ bt s =
      if rt s !!! idx =? 1 then
        State (time s + 1) (completed s + 1) (<[idx := 0]> (rt s))
          (<[idx := time s + 1]> (ct s))
          (<[idx := time s + 1 - at_ !!! idx]> (tat s))
          (<[idx := time s + 1 - at_ !!! idx - bt !!! idx]> (wt s))
          (stores s ++ [(idx, time s + 1)])
      else
        State (time s + 1) (completed s) (<[idx := rt s !!! idx - 1]> (rt s))
          (ct s) (tat s) (wt s) (stores s)
  | None =>
      body n at_ bt s =
      State (time s + 1) (completed s) (rt s) (ct s) (tat s) (wt s) (stores s)
  end.
Proof.
  destruct Hvalid as [Hla Hlb Hat Hbt Hrange].
  intros (Hlr & Hlc & Hlt & Hlw & H0 & Hbound & Hrt & Hserved & Hcomp & Hnd
          & Hzero & Hlt_n & Hct & Hmet) Hlive.
  pose proof (list_sum_Z_ge_length bt Hbt) as Hn. rewrite Hlb in Hn.
  pose proof (list_max_Z_nonneg at_) as Hm0.
  assert (Hsum0 : 0 <= list_sum_Z (rt s)).
  { apply list_sum_Z_nonneg_lookup. intros i Hi. apply Hrt. lia. }
  assert (Hsumb : list_sum_Z (rt s) <= list_sum_Z bt).
  { apply list_sum_Z_le_lookup; [lia|]. intros i Hi. apply Hrt. lia. }
  pose proof (srtf_select_spec n at_ (time s) (rt s)) as Hsel.
  unfold body. destruct (select n at_ (time s) (rt s)) as [idx|].
  - destruct Hsel as (Hidx & Harr & [Hr0 Hr1] & _ & _).
    split; [done|]. split; [done|]. split; [done|].
    pose proof (Forall_lookup_total_Z _ _ idx Hat ltac:(lia)) as Hatk.
    pose proof (Forall_lookup_total_Z _ _ idx Hbelow ltac:(lia)) as Hbs.
    pose proof (Hrt idx Hidx) as Hrb.
    pose proof (Hserved idx Hidx) as Hsv.
    pose proof (list_sum_Z_insert (rt s) idx (rt s !!! idx - 1) ltac:(lia)) as Hins.
    simpl in Hatk, Hbs.
    set (a := at_ !!! idx) in *. set (b := bt !!! idx) in *.
    set (r := rt s !!! idx) in *.
    assert (Hsum1 : 0 <= list_sum_Z (<[idx := r - 1]> (rt s))).
    { apply list_sum_Z_nonneg_lookup. rewrite length_insert. intros i Hi.
      destruct (decide (i = idx)) as [->|Hne].
      - rewrite list_lookup_total_insert_eq by lia. lia.
      - rewrite list_lookup_total_insert_ne by done. apply Hrt. lia. }
    unfold SENTINEL in *.
    rewrite (sub32_id r 1) by (unfold in_int, INT_MAX in *; lia).
    rewrite (add32_id (time s) 1) by (unfold in_int, INT_MAX in *; lia).
    rewrite list_lookup_total_insert_eq by lia.
    destruct (Z.eqb_spec (r - 1) 0) as [Hlast|Hmore],
             (Z.eqb_spec r 1) as [Hone|Hnone]; try lia.
    + rewrite (add32_id (completed s) 1) by (unfold in_int, INT_MAX in *; lia).
      rewrite list_lookup_total_insert_eq by lia.
      rewrite (sub32_id (time s + 1) a) by (unfold in_int, INT_MAX in *; lia).
      rewrite list_lookup_total_insert_eq by lia.
      rewrite (sub32_id (time s + 1 - a) b) by (unfold in_int, INT_MAX in *; lia).
      by rewrite Hlast.
    + reflexivity.
  - assert (Hlen : (length (stores s).*1 < n)%nat) by (rewrite length_fmap; lia).
    destruct (missing_index _ n Hnd Hlen) as (i & Hi & Hni).
    assert (Hri : 0 < rt s !!! i).
    { destruct (decide (rt s !!! i = 0)) as [Hz|Hnz].
      - by apply Hzero in Hz.
      - specialize (Hrt i Hi). lia. }
    pose proof (Forall_lookup_total_Z _ _ i Hbelow ltac:(lia)) as Hbi.
    simpl in Hbi.
    assert (Hlate : time s < at_ !!! i).
    { destruct (Z.lt_ge_cases (time s) (at_ !!! i)) as [|Hle]; [done|].
      specialize (Hsel i Hi Hle Hri). specialize (Hrt i Hi). lia. }
    pose proof (list_max_Z_ge at_ i ltac:(lia)) as Hmax.
    rewrite (add32_id (time s) 1) by (unfold in_int, INT_MAX in *; lia).
    reflexivity.
Qed.

(** Every turn of the loop is one tick of the clock. *)
Lemma srtf_loop_ticks fuel : forall s s',
  inv n at_ bt s -> loop n at_ bt fuel s = Some s' ->
  exists k, s' = Nat.iter k (body n at_ bt) s /\ time s' = time s + Z.of_nat k.
Proof.
  induction fuel as [|fuel IH]; intros s s' Hinv; simpl;
    destruct (Z.ltb_spec (completed s) (Z.of_nat n)) as [Hlive|Hstop];
    intros Hrun; simplify_eq.
  - exists 0%nat. split; [done | lia].
  - destruct (srtf_body_inv n at_ bt Hvalid Hbelow s Hinv Hlive) as [Hinv' _].
    destruct (IH _ _ Hinv' Hrun) as (k & -> & Hk).
    exists (S k). split; [by rewrite Nat.iter_succ_r|].
    rewrite Hk.
    pose proof (srtf_body_exact s Hinv Hlive) as Hex.
    destruct (select n at_ (time s) (rt s)) as [idx|].
    + destruct Hex as (_ & _ & _ & ->). destruct (_ =? 1); simpl; lia.
    + rewrite Hex. simpl. lia.
  - exists 0%nat. split; [done | lia].
Qed.

(** Every turn the loop takes moves the clock by one, and the loop test
    holds before each of them. *)
Lemma srtf_loop_turns fuel : forall s s',
  inv n at_ bt s -> loop n at_ bt fuel s = Some s' ->
  exists k, s' = Nat.iter k (body n at_ bt) s /\
    (forall j, (j <= k)%nat ->
       time (Nat.iter j (body n at_ bt) s) = time s + Z.of_nat j) /\
    (forall j, (j < k)%nat ->
       completed (Nat.iter j (body n at_ bt) s) < Z.of_nat n).
Proof.
  induction fuel as [|fuel IH]; intros s s' Hinv; simpl;
    destruct (Z.ltb_spec (completed s) (Z.of_nat n)) as [Hlive|Hstop];
    intros Hrun; simplify_eq.
  - exists 0%nat. split_and!; [done | | intros j Hj; lia].
    intros j Hj. replace j with 0%nat by lia. simpl. lia.
  - destruct (srtf_body_inv n at_ bt Hvalid Hbelow s Hinv Hlive) as [Hinv' _].
    destruct (IH _ _ Hinv' Hrun) as (k & -> & Hk & Hl).
    assert (Hstep : time (body n at_ bt s) = time s + 1).
    { pose proof (srtf_body_exact s Hinv Hlive) as Hex.
      destruct (select n at_ (time s) (rt s)) as [idx|].
      - destruct Hex as (_ & _ & _ & ->). destruct (_ =? 1); simpl; lia.
      - rewrite Hex. simpl. lia. }
    exists (S k). split_and!; [by rewrite Nat.iter_succ_r | |].
    + intros [|j] Hj; [simpl; lia|].
      rewrite Nat.iter_succ_r, Hk by lia. lia.
    + intros [|j] Hj; [done|].
      rewrite Nat.iter_succ_r. apply Hl. lia.
  - exists 0%nat. split_and!; [done | | intros j Hj; lia].
    intros j Hj. replace j with 0%nat by lia. simpl. lia.
Qed.

Lemma srtf_body_sequential s :
  inv n at_ bt s /\ srtf_sequential n bt s -> completed s < Z.of_nat n ->
  inv n at_ bt (body n at_ bt s) /\ srtf_sequential n bt (body n at_ bt s).
Proof.
  intros [Hinv (Hpast & Hdiff & Hbusy)] Hlive.
  split; [by apply srtf_body_inv|].
  pose proof (srtf_body_exact s Hinv Hlive) as Hex.
  destruct Hinv as (Hlr & Hlc & _).
  destruct (select n at_ (time s) (rt s)) as [idx|].
  - destruct Hex as (Hidx & Harr & Hpos & ->).
    pose proof (list_sum_Z_insert (rt s) idx 0 ltac:(lia)) as Hins0.
    pose proof (list_sum_Z_insert (rt s) idx (rt s !!! idx - 1) ltac:(lia)) as Hins.
    destruct (Z.eqb_spec (rt s !!! idx) 1) as [Hone|Hmore];
      unfold srtf_sequential; simpl; split_and!.
    + intros i Hi. destruct (decide (i = idx)) as [->|Hne].
      * rewrite !list_lookup_total_insert_eq by lia. lia.
      * rewrite !list_lookup_total_insert_ne by done. intros Hz.
        specialize (Hpast i Hi Hz). lia.
    + intros i j Hi Hj Hij.
      destruct (decide (i = idx)) as [->|Hni], (decide (j = idx)) as [->|Hnj];
        try done.
      * rewrite !list_lookup_total_insert_eq by lia.
        rewrite !(list_lookup_total_insert_ne _ idx j) by done.
        intros _ Hz. specialize (Hpast j Hj Hz). lia.
      * rewrite !(list_lookup_total_insert_ne _ idx i) by done.
        rewrite !list_lookup_total_insert_eq by lia.
        intros Hz _. specialize (Hpast i Hi Hz). lia.
      * rewrite !list_lookup_total_insert_ne by done. by apply Hdiff.
    + lia.
    + intros i Hi. destruct (decide (i = idx)) as [->|Hne].
      * rewrite !list_lookup_total_insert_eq by lia. lia.
      * rewrite !list_lookup_total_insert_ne by done. intros Hz.
        specialize (Hpast i Hi Hz). lia.
    + intros i j Hi Hj Hij.
      destruct (decide (i = idx)) as [->|Hni].
      { rewrite list_lookup_total_insert_eq by lia. lia. }
      destruct (decide (j = idx)) as [->|Hnj].
      { rewrite (list_lookup_total_insert_ne _ idx i) by done.
        rewrite list_lookup_total_insert_eq by lia. lia. }
      rewrite !list_lookup_total_insert_ne by done. by apply Hdiff.
    + lia.
  - rewrite Hex. unfold srtf_sequential; simpl. split_and!.
    + intros i Hi Hz. specialize (Hpast i Hi Hz). lia.
    + done.
    + lia.
Qed.

(** Where a run ends: nothing left to serve, completions at distinct
    ticks. *)
Lemma srtf_run_sequential fuel s :
  loop n at_ bt fuel (init n bt) = Some s ->
  (forall i, (i < n)%nat -> rt s !!! i = 0) /\
  inv n at_ bt s /\ srtf_sequential n bt s.
Proof.
  intros Hrun.
  assert (HI : inv n at_ bt s /\ srtf_sequential n bt s).
  { apply (srtf_loop_invariant
             (fun s => inv n at_ bt s /\ srtf_sequential n bt s)
             srtf_body_sequential fuel (init n bt) s); [|done].
    split; [by apply srtf_init_inv|].
    destruct Hvalid as [Hla Hlb Hat Hbt Hrange].
    unfold srtf_sequential, init; simpl. split_and!; try lia.
    - intros i Hi Hz.
      pose proof (Forall_lookup_total_Z _ _ i Hbt ltac:(lia)) as Hp.
      simpl in Hp. lia.
    - intros i j Hi Hj _ Hz.
      pose proof (Forall_lookup_total_Z _ _ i Hbt ltac:(lia)) as Hp.
      simpl in Hp. lia. }
  split; [|done].
  destruct (srtf_run_any n at_ bt Hvalid Hbelow fuel s Hrun) as (Hperm & _).
  destruct HI as [(_ & _ & _ & _ & _ & _ & _ & _ & _ & _ & Hzero & _) _].
  intros i Hi. apply Hzero; [done|]. rewrite Hperm. apply elem_of_seq. lia.
Qed.

Hypothesis Hzero : Forall (fun a => a = 0) at_.

Lemma srtf_body_shortest_first s :
  inv n at_ bt s /\ srtf_sequential n bt s /\ srtf_shortest_first n bt s ->
  completed s < Z.of_nat n ->
  inv n at_ bt (body n at_ bt s) /\ srtf_sequential n bt (body n at_ bt s) /\
  srtf_shortest_first n bt (body n at_ bt s).
Proof.
  intros (Hinv & Hseq & Huniq & Hstart & Hleft & Hord) Hlive.
  destruct (srtf_body_sequential s (conj Hinv Hseq) Hlive) as [Hinv' Hseq'].
  split; [done|]. split; [done|].
  pose proof (srtf_body_exact s Hinv Hlive) as Hex.
  pose proof (srtf_select_spec n at_ (time s) (rt s)) as Hsel.
  destruct Hseq as (Hpast & _).
  destruct Hinv as (Hlr & Hlc & _ & _ & H0 & _ & Hrt & _).
  destruct Hvalid as [Hla Hlb Hat Hbt Hrange].
  assert (Hbpos : forall j, (j < n)%nat -> 0 < bt !!! j).
  { intros j Hj. apply (Forall_lookup_total_Z _ _ j Hbt). lia. }
  assert (Harrived : forall j, (j < n)%nat -> at_ !!! j <= time s).
  { intros j Hj.
    pose proof (Forall_lookup_total_Z _ _ j Hzero ltac:(lia)) as Hz.
    simpl in Hz. lia. }
  destruct (select n at_ (time s) (rt s)) as [idx|]; [|by rewrite Hex].
  destruct Hex as (Hidx & _ & Hpos & ->).
  destruct Hsel as (_ & _ & _ & Hmin & Hfirst).
  pose proof (Hrt idx Hidx) as Hridx.
  assert (Hothers : forall j, (j < n)%nat -> j <> idx -> 0 < rt s !!! j ->
                              rt s !!! j = bt !!! j).
  { intros j Hj Hne Hrj. pose proof (Hrt j Hj) as Hrjb.
    destruct (decide (rt s !!! j = bt !!! j)) as [|Hlt]; [done|]. exfalso.
    destruct (decide (rt s !!! idx = bt !!! idx)) as [Hun|Hin].
    - specialize (Hstart j idx Hj Hidx ltac:(lia) Hun).
      specialize (Hmin j Hj (Harrived j Hj) Hrj).
      unfold before in Hstart. lia.
    - apply Hne. apply Huniq; try done; lia. }
  assert (Hpref : forall j, (j < n)%nat -> j <> idx -> 0 < rt s !!! j ->
                            before bt idx j).
  { intros j Hj Hne Hrj. pose proof (Hothers j Hj Hne Hrj) as Hun.
    destruct (decide (rt s !!! idx = bt !!! idx)) as [Hunx|Hin].
    - specialize (Hmin j Hj (Harrived j Hj) Hrj). unfold before.
      destruct (decide (j < idx)%nat) as [Hlt|Hge].
      + specialize (Hfirst j Hlt (Harrived j Hj) Hrj). lia.
      + lia.
    - apply Hstart; try done. lia. }
  assert (Hleft' : forall v i j, (i < n)%nat -> (j < n)%nat ->
            <[idx := v]> (rt s) !!! i = 0 -> 0 < <[idx := v]> (rt s) !!! j ->
            before bt i j).
  { intros v i j Hi Hj.
    destruct (decide (i = idx)) as [->|Hni], (decide (j = idx)) as [->|Hnj].
    - rewrite !list_lookup_total_insert_eq by lia. lia.
    - rewrite (list_lookup_total_insert_ne _ idx j) by done.
      intros _ Hrj. by apply Hpref.
    - rewrite (list_lookup_total_insert_ne _ idx i) by done.
      intros Hz _. by apply Hleft.
    - rewrite !list_lookup_total_insert_ne by done. by apply Hleft. }
  assert (Hstart' : forall v i j, v < bt !!! idx -> (i < n)%nat -> (j < n)%nat ->
            <[idx := v]> (rt s) !!! i < bt !!! i ->
            <[idx := v]> (rt s) !!! j = bt !!! j -> before bt i j).
  { intros v i j Hv Hi Hj.
    destruct (decide (j = idx)) as [->|Hnj].
    { rewrite (list_lookup_total_insert_eq _ idx) by lia. lia. }
    rewrite (list_lookup_total_insert_ne _ idx j) by done.
    destruct (decide (i = idx)) as [->|Hni].
    - intros _ Hun. apply Hpref; try done. specialize (Hbpos j Hj). lia.
    - rewrite list_lookup_total_insert_ne by done. by apply Hstart. }
  assert (Huniq' : forall v i j, (i < n)%nat -> (j < n)%nat ->
            0 < <[idx := v]> (rt s) !!! i < bt !!! i ->
            0 < <[idx := v]> (rt s) !!! j < bt !!! j -> i = j).
  { intros v i j Hi Hj.
    destruct (decide (i = idx)) as [->|Hni], (decide (j = idx)) as [->|Hnj];
      try done.
    - rewrite (list_lookup_total_insert_ne _ idx j) by done.
      intros _ Hrj. pose proof (Hothers j Hj Hnj ltac:(lia)). lia.
    - rewrite (list_lookup_total_insert_ne _ idx i) by done.
      intros Hri _. pose proof (Hothers i Hi Hni ltac:(lia)). lia.
    - rewrite (list_lookup_total_insert_ne _ idx i) by done.
      intros Hri _. pose proof (Hothers i Hi Hni ltac:(lia)). lia. }
  pose proof (Hbpos idx Hidx) as Hbidx.
  destruct (Z.eqb_spec (rt s !!! idx) 1) as [Hone|Hmore];
    unfold srtf_shortest_first; simpl;
    (split; [apply Huniq' |
     split; [intros i j Hi Hj; apply (Hstart' _ i j); [lia | done | done] |
     split; [apply Hleft'|]]]).
  - intros i j Hi Hj.
    destruct (decide (i = idx)) as [->|Hni], (decide (j = idx)) as [->|Hnj].
    + unfold before. lia.
    + rewrite !(list_lookup_total_insert_ne _ idx j) by done.
      intros _ Hzj Hb. specialize (Hleft j idx Hj Hidx Hzj Hpos).
      unfold before in *. lia.
    + rewrite !(list_lookup_total_insert_ne _ idx i) by done.
      rewrite !list_lookup_total_insert_eq by lia.
      intros Hzi _ _. specialize (Hpast i Hi Hzi). lia.
    + rewrite !list_lookup_total_insert_ne by done. by apply Hord.
  - intros i j Hi Hj.
    destruct (decide (i = idx)) as [->|Hni].
    { rewrite list_lookup_total_insert_eq by lia. lia. }
    destruct (decide (j = idx)) as [->|Hnj].
    { rewrite (list_lookup_total_insert_eq _ idx) by lia. lia. }
    rewrite !list_lookup_total_insert_ne by done. by apply Hord.
Qed.

Lemma srtf_run_shortest_first fuel s :
  loop n at_ bt fuel (init n bt) = Some s -> srtf_shortest_first n bt s.
Proof.
  intros Hrun.
  apply (srtf_loop_invariant
           (fun s => inv n at_ bt s /\ srtf_sequential n bt s /\
                     srtf_shortest_first n bt s)
           srtf_body_shortest_first fuel (init n bt) s); [|done].
  split; [by apply srtf_init_inv|].
  destruct Hvalid as [Hla Hlb Hat Hbt Hrange].
  assert (Hbpos : forall j, (j < n)%nat -> 0 < bt !!! j).
  { intros j Hj. apply (Forall_lookup_total_Z _ _ j Hbt). lia. }
  split.
  - unfold srtf_sequential, init; simpl. split_and!; try lia.
    + intros i Hi Hz. specialize (Hbpos i Hi). lia.
    + intros i j Hi Hj _ Hz. specialize (Hbpos i Hi). lia.
  - unfold srtf_shortest_first, init; simpl. split_and!.
    + intros i j Hi Hj Hri. lia.
    + intros i j Hi Hj Hri. lia.
    + intros i j Hi Hj Hz. specialize (Hbpos i Hi). lia.
    + intros i j Hi Hj Hz. specialize (Hbpos i Hi). lia.
Qed.

End Facts.

(** A run that ends had every burst time below the sentinel. *)
Lemma srtf_ends_below n at_ bt fuel s :
  valid_input n at_ bt ->
  loop n at_ bt fuel (init n bt) = Some s ->
  Forall (fun b => b < SENTINEL) bt.
Proof.
  intros Hv Hrun.
  destruct (decide (Forall (fun b => b < SENTINEL) bt)) as [Hb|Hnb]; [done|].
  exfalso. apply not_Forall_Exists in Hnb; [|tc_solve].
  apply Exists_exists in Hnb as (b & Hin & Hb). simpl in Hb.
  apply list_elem_of_lookup in Hin as [i Hi].
  pose proof (lookup_lt_Some _ _ _ Hi) as Hlt.
  destruct Hv as [Hla Hlb Hat Hbt Hrange].
  pose proof (list_sum_Z_ge_length bt Hbt).
  pose proof (list_max_Z_nonneg at_).
  apply (srtf_blocked_never_ends n at_ bt i fuel s); try done; try lia.
  rewrite (list_lookup_total_correct _ _ _ Hi). lia.
Qed.

End PreemptiveMore.

(** * Facts about the float totals *)

Module TotalsProofs.

(** ** pid.cpp *)

Lemma fcfs_float_sim p l : forall st,
  (fold_left (FcfsFloat.sim_body p) l st).1 = fold_left (Fcfs.sim_body p) l st.1.
Proof. induction l as [|i l IH]; intros st; simpl; [done|]. by rewrite IH. Qed.

Lemma fcfs_simulate_sim n p : (FcfsFloat.simulate n p).1 = Fcfs.simulate n p.
Proof. apply fcfs_float_sim. Qed.

Lemma fcfs_totals_follow n p :
  let st := FcfsFloat.simulate n p in
  totalTAT st.2 = fsum (Fcfs.tat st.1) (seq 0 n) (float_of_int 0) /\
  totalWT st.2 = fsum (Fcfs.wt st.1) (seq 0 n) (float_of_int 0).
Proof.
  simpl. unfold FcfsFloat.simulate.
  apply (fold_left_seq_inv (FcfsFloat.sim_body p)
    (fun k st =>
       totalTAT st.2 = fsum (Fcfs.tat st.1) (seq 0 k) (float_of_int 0) /\
       totalWT st.2 = fsum (Fcfs.wt st.1) (seq 0 k) (float_of_int 0)) n 0%nat).
  - done.
  - intros k [s t] _ [Ht Hw]. simpl in Ht, Hw.
    assert (Hk : k ∉ seq 0 k) by (rewrite elem_of_seq; lia).
    rewrite seq_S. simpl. rewrite !fsum_app, !(fsum_insert _ (seq 0 k)) by done.
    rewrite <- Ht, <- Hw. split; reflexivity.
Qed.

Lemma fcfs_averages_exact n arrival burst :
  valid_input n arrival burst ->
  let r := FcfsFloat.fcfs n arrival burst in
  r.1.2 = (Fcfs.fcfs n arrival burst).2 /\
  (list_sum_Z (Fcfs.tat r.1.2) < 16777216 ->
   r.2 = (mean n (Fcfs.tat r.1.2), mean n (Fcfs.wt r.1.2))).
Proof.
  intros Hv r. subst r. unfold FcfsFloat.fcfs, Fcfs.fcfs. cbn [fst snd].
  set (p := Fcfs.sort_by_arrival n _).
  split; [apply fcfs_simulate_sim|].
  destruct (fcfs_totals_follow n p) as [Ht Hw]. simpl in Ht, Hw.
  rewrite fcfs_simulate_sim in *.
  assert (Hvp : valid_input n (Fcfs.at_ p) (Fcfs.bt p)).
  { by apply FcfsProofs.sort_by_arrival_valid. }
  destruct (FcfsProofs.simulate_inv n p Hvp) as (_ & Hlt & Hlw & _ & _ & _ & _ & Hmet).
  destruct Hvp as [_ Hlb _ Hbt _].
  assert (Hpos : forall i, (i < n)%nat -> 0 < Fcfs.bt p !!! i).
  { intros i Hi. apply (Forall_lookup_total_Z _ _ i Hbt). lia. }
  intros Hsum. unfold averages, mean.
  rewrite Ht, Hw.
  rewrite (fsum_exact _ _ n), (fsum_exact _ _ n); try done.
  - intros i Hi. apply Hmet. done.
  - assert (list_sum_Z (Fcfs.wt (Fcfs.simulate n p)) <=
            list_sum_Z (Fcfs.tat (Fcfs.simulate n p))); [|lia].
    apply list_sum_Z_le_lookup; [lia|]. intros i Hi.
    destruct (Hmet i ltac:(lia)) as (_ & Hwt & _). specialize (Hpos i ltac:(lia)). lia.
  - intros i Hi. destruct (Hmet i Hi) as (_ & _ & _ & Htat).
    specialize (Hpos i Hi). lia.
Qed.

(** ** sjf.cpp, first branch *)

Section NonPreemptive.
Import Sjf Sjf.NonPreemptive.
Variable n : nat.
Variables at_ bt : list Z.

Lemma np_loop_state fuel : forall s t s' t',
  SjfFloat.np_loop n at_ bt fuel s t = Some (s', t') ->
  loop n at_ bt fuel s = Some s'.
Proof.
  induction fuel as [|fuel IH]; intros s t s' t'; simpl;
    destruct (completed s <? Z.of_nat n); intros Hrun; simplify_eq; try done.
  by eapply IH.
Qed.

Lemma np_loop_totals fuel : forall s t s',
  loop n at_ bt fuel s = Some s' ->
  exists t', SjfFloat.np_loop n at_ bt fuel s t = Some (s', t').
Proof.
  induction fuel as [|fuel IH]; intros s t s'; simpl;
    destruct (completed s <? Z.of_nat n); intros Hrun; simplify_eq; eauto.
Qed.

Hypothesis Hvalid : valid_input n at_ bt.
Hypothesis Hbelow : Forall (fun b => b < SENTINEL) bt.

Lemma np_add_follows s t :
  inv n at_ bt s -> completed s < Z.of_nat n ->
  SjfFloat.totals_follow (tat s) (wt s) (stores s) t ->
  let s' := body n at_ bt s in
  SjfFloat.totals_follow (tat s') (wt s') (stores s') (SjfFloat.np_add n at_ bt s t).
Proof.
  intros Hinv Hlive [Ht Hw]. simpl.
  pose proof (NonPreemptiveMore.np_body_exact n at_ bt Hvalid Hbelow s Hinv Hlive) as Hex.
  destruct Hinv as (_ & _ & _ & _ & _ & _ & _ & _ & Hdone & _).
  unfold SjfFloat.np_add.
  destruct (select n at_ bt (time s) (done s)) as [idx|].
  - destruct Hex as (((Hidx & _ & Hnot) & _) & _ & ->).
    assert (Hfresh : idx ∉ (stores s).*1).
    { intros Hin. apply Hdone in Hin; [congruence | done]. }
    unfold SjfFloat.totals_follow; simpl.
    change (S754_zero false) with (float_of_int 0).
    rewrite fmap_app, !fsum_app, !(fsum_insert _ (stores s).*1) by done.
    rewrite <- Ht, <- Hw. split; reflexivity.
  - destruct Hex as [_ ->]. by split.
Qed.

Lemma np_loop_follows fuel : forall s t s' t',
  inv n at_ bt s -> SjfFloat.totals_follow (tat s) (wt s) (stores s) t ->
  SjfFloat.np_loop n at_ bt fuel s t = Some (s', t') ->
  inv n at_ bt s' /\ SjfFloat.totals_follow (tat s') (wt s') (stores s') t'.
Proof.
  induction fuel as [|fuel IH]; intros s t s' t' Hinv Hfol; simpl;
    destruct (Z.ltb_spec (completed s) (Z.of_nat n)) as [Hlive|Hstop];
    intros Hrun; simplify_eq; try done.
  apply (IH _ _ _ _ (proj1 (NonPreemptiveProofs.np_body_inv n at_ bt Hvalid Hbelow
                               s Hinv Hlive))
            (np_add_follows s t Hinv Hlive Hfol) Hrun).
Qed.

Lemma np_averages_exact fuel s t :
  SjfFloat.np_run n at_ bt fuel = Some (s, t) ->
  list_sum_Z (tat s) < 16777216 ->
  averages n t = (mean n (tat s), mean n (wt s)).
Proof.
  intros Hrun Hsum.
  assert (Hstart : SjfFloat.totals_follow (tat (init n)) (wt (init n))
                     (stores (init n)) no_totals) by (by split).
  destruct (np_loop_follows fuel _ _ _ _
              (NonPreemptiveProofs.np_init_inv n at_ bt Hvalid) Hstart
              Hrun) as [Hinv [Ht Hw]].
  apply np_loop_state in Hrun.
  destruct (NonPreemptiveProofs.np_run_any n at_ bt Hvalid Hbelow fuel s Hrun)
    as (Hperm & _ & Hmet).
  destruct Hinv as (_ & _ & Hlt & Hlw & _).
  destruct Hvalid as [_ Hlb _ Hbt _].
  assert (Hpos : forall i, (i < n)%nat -> 0 < bt !!! i).
  { intros i Hi. apply (Forall_lookup_total_Z _ _ i Hbt). lia. }
  unfold averages, mean. rewrite Ht, Hw.
  rewrite (fsum_exact _ _ n), (fsum_exact _ _ n); try done.
  - intros i Hi. apply Hmet. done.
  - assert (list_sum_Z (wt s) <= list_sum_Z (tat s)); [|lia].
    apply list_sum_Z_le_lookup; [lia|]. intros i Hi.
    destruct (Hmet i ltac:(lia)) as (_ & Hwt & _). specialize (Hpos i ltac:(lia)). lia.
  - intros i Hi. destruct (Hmet i Hi) as (_ & _ & _ & Htat).
    specialize (Hpos i Hi). lia.
Qed.

End NonPreemptive.

(** ** sjf.cpp, second branch *)

Section Preemptive.
Import Sjf Sjf.Preemptive.
Variable n : nat.
Variables at_ bt : list Z.

Lemma srtf_loop_state fuel : forall s t s' t',
  SjfFloat.srtf_loop n at_ bt fuel s t = Some (s', t') ->
  loop n at_ bt fuel s = Some s'.
Proof.
  induction fuel as [|fuel IH]; intros s t s' t'; simpl;
    destruct (completed s <? Z.of_nat n); intros Hrun; simplify_eq; try done.
  by eapply IH.
Qed.

Lemma srtf_loop_totals fuel : forall s t s',
  loop n at_ bt fuel s = Some s' ->
  exists t', SjfFloat.srtf_loop n at_ bt fuel s t = Some (s', t').
Proof.
  induction fuel as [|fuel IH]; intros s t s'; simpl;
    destruct (completed s <? Z.of_nat n); intros Hrun; simplify_eq; eauto.
Qed.

Hypothesis Hvalid : valid_input n at_ bt.
Hypothesis Hbelow : Forall (fun b => b < SENTINEL) bt.

Lemma srtf_add_follows s t :
  inv n at_ bt s -> completed s < Z.of_nat n ->
  SjfFloat.totals_follow (tat s) (wt s) (stores s) t ->
  let s' := body n at_ bt s in
  SjfFloat.totals_follow (tat s') (wt s') (stores s') (SjfFloat.srtf_add n at_ bt s t).
Proof.
  intros Hinv Hlive [Ht Hw]. simpl.
  pose proof (PreemptiveMore.srtf_body_exact n at_ bt Hvalid Hbelow s Hinv Hlive) as Hex.
  destruct Hinv as (Hlr & _ & _ & _ & _ & _ & _ & _ & _ & _ & Hzero & _).
  unfold SjfFloat.srtf_add.
  destruct (select n at_ (time s) (rt s)) as [idx|].
  - destruct Hex as (Hidx & _ & Hpos & ->).
    assert (Hfresh : idx ∉ (stores s).*1).
    { intros Hin. apply Hzero in Hin; [lia | done]. }
    destruct (Z.eqb_spec (rt s !!! idx) 1) as [Hone|Hmore]; simpl.
    + rewrite list_lookup_total_insert_eq by lia. simpl.
      unfold SjfFloat.totals_follow; simpl.
      change (S754_zero false) with (float_of_int 0).
      rewrite fmap_app, !fsum_app, !(fsum_insert _ (stores s).*1) by done.
      rewrite <- Ht, <- Hw. split; reflexivity.
    + rewrite list_lookup_total_insert_eq by lia.
      destruct (Z.eqb_spec (rt s !!! idx - 1) 0); [lia|]. by split.
  - rewrite Hex. by split.
Qed.

Lemma srtf_loop_follows fuel : forall s t s' t',
  inv n at_ bt s -> SjfFloat.totals_follow (tat s) (wt s) (stores s) t ->
  SjfFloat.srtf_loop n at_ bt fuel s t = Some (s', t') ->
  inv n at_ bt s' /\ SjfFloat.totals_follow (tat s') (wt s') (stores s') t'.
Proof.
  induction fuel as [|fuel IH]; intros s t s' t' Hinv Hfol; simpl;
    destruct (Z.ltb_spec (completed s) (Z.of_nat n)) as [Hlive|Hstop];
    intros Hrun; simplify_eq; try done.
  apply (IH _ _ _ _ (proj1 (PreemptiveProofs.srtf_body_inv n at_ bt Hvalid Hbelow
                               s Hinv Hlive))
            (srtf_add_follows s t Hinv Hlive Hfol) Hrun).
Qed.

Lemma srtf_averages_exact fuel s t :
  SjfFloat.srtf_run n at_ bt fuel = Some (s, t) ->
  list_sum_Z (tat s) < 16777216 ->
  averages n t = (mean n (tat s), mean n (wt s)).
Proof.
  intros Hrun Hsum.
  assert (Hstart : SjfFloat.totals_follow (tat (init n bt)) (wt (init n bt))
                     (stores (init n bt)) no_totals) by (by split).
  destruct (srtf_loop_follows fuel _ _ _ _
              (PreemptiveProofs.srtf_init_inv n at_ bt Hvalid) Hstart
              Hrun) as [Hinv [Ht Hw]].
  apply srtf_loop_state in Hrun.
  destruct (PreemptiveProofs.srtf_run_any n at_ bt Hvalid Hbelow fuel s Hrun)
    as (Hperm & _ & Hmet).
  destruct Hinv as (_ & _ & Hlt & Hlw & _).
  destruct Hvalid as [_ Hlb _ Hbt _].
  assert (Hpos : forall i, (i < n)%nat -> 0 < bt !!! i).
  { intros i Hi. apply (Forall_lookup_total_Z _ _ i Hbt). lia. }
  unfold averages, mean. rewrite Ht, Hw.
  rewrite (fsum_exact _ _ n), (fsum_exact _ _ n); try done.
  - intros i Hi. apply Hmet. done.
  - assert (list_sum_Z (wt s) <= list_sum_Z (tat s)); [|lia].
    apply list_sum_Z_le_lookup; [lia|]. intros i Hi.
    destruct (Hmet i ltac:(lia)) as (_ & Hwt & _). specialize (Hpos i ltac:(lia)). lia.
  - intros i Hi. destruct (Hmet i Hi) as (_ & _ & _ & Htat).
    specialize (Hpos i Hi). lia.
Qed.

End Preemptive.
End TotalsProofs.

(** * The claims of the specification *)

(** ** pid.cpp *)

(** C1, as the specification states it, fails: on arrival times 2, 2, 1
    the exchange of positions 0 and 2 carries record 1 behind record 2,
    so the two records that arrive at time 2 come out in the order 2, 1. *)
Lemma fcfs_sort_not_stable :
  ~ Fcfs.stable_by_id 3 (Fcfs.fcfs 3 [2;2;1] [5;6;7]).1.
Proof.
  intros Hstable.
  specialize (Hstable 1%nat 2%nat ltac:(lia) eq_refl).
  vm_compute in Hstable. discriminate.
Qed.

(** C1, amended: the FCFS sort puts the records in non-decreasing order
    of arrival time and only permutes them (each row keeps its id, arrival
    and burst time together); arrays that are already in arrival order are
    left exactly as they are. The relative order of records with equal
    arrival time is not promised. *)
Theorem fcfs_sort_sorted_permutation (n : nat) (arrival burst : list Z) :
  length arrival = n -> length burst = n ->
  let input := Fcfs.Procs (Fcfs.init_pid n) arrival burst in
  let p := (Fcfs.fcfs n arrival burst).1 in
  Fcfs.nondecreasing n (Fcfs.at_ p) /\
  Fcfs.rows p ≡ₚ Fcfs.rows input /\
  (Fcfs.nondecreasing n arrival -> p = input).
Proof.
  intros Ha Hb input p.
  assert (Hsz : Fcfs.well_sized n input).
  { unfold Fcfs.well_sized; simpl. by rewrite FcfsProofs.init_pid_length. }
  destruct (FcfsProofs.sort_by_arrival_spec n input Hsz) as (_ & Hperm & Hsorted).
  split; [done|]. split; [done|].
  intros Hnd. by apply FcfsProofs.sort_by_arrival_sorted_id.
Qed.

Lemma fcfs_sort_sorted_permutation_witness :
  let input := Fcfs.Procs (Fcfs.init_pid 3) [2;2;1] [5;6;7] in
  let p := (Fcfs.fcfs 3 [2;2;1] [5;6;7]).1 in
  Fcfs.nondecreasing 3 (Fcfs.at_ p) /\
  Fcfs.rows p ≡ₚ Fcfs.rows input /\
  (Fcfs.nondecreasing 3 [2;2;1] -> p = input).
Proof.
  apply (fcfs_sort_sorted_permutation 3 [2;2;1] [5;6;7]); reflexivity.
Defined.

(** C4, as the specification states it, fails: two records arriving at
    time 0 with burst times 2147483647 and 1 are an input the
    specification allows, the recurrence gives the second one the
    completion time 2147483648, and the [int] addition of pid.cpp stores
    -2147483648. *)
Lemma fcfs_completion_overflows :
  let p := (Fcfs.fcfs 2 [0;0] [2147483647;1]).1 in
  let s := (Fcfs.fcfs 2 [0;0] [2147483647;1]).2 in
  Forall (fun a => 0 <= a) [0;0] /\ Forall (fun b => 0 < b) [2147483647;1] /\
  Fcfs.ct s = [2147483647; -2147483648] /\
  Fcfs.completion_spec 0 (zip (Fcfs.at_ p) (Fcfs.bt p)) = [2147483647; 2147483648] /\
  Fcfs.ct s <> Fcfs.completion_spec 0 (zip (Fcfs.at_ p) (Fcfs.bt p)).
Proof.
  vm_compute. split_and!; try reflexivity; try discriminate;
    repeat constructor; discriminate.
Qed.

(** C4, amended: on an input with arrival times not below 0, burst times
    above 0 and latest arrival plus total burst time at most 2^31 - 1 (so
    that no [int] addition overflows), the completion times that pid.cpp
    stores are those of the clock recurrence, run from clock 0 over the
    rows in the arrival order the sort produced: clock = max(clock,
    arrival), completion = clock + burst, clock = completion. *)
Theorem fcfs_completion_recurrence (n : nat) (arrival burst : list Z) :
  valid_input n arrival burst ->
  let p := (Fcfs.fcfs n arrival burst).1 in
  let s := (Fcfs.fcfs n arrival burst).2 in
  Fcfs.nondecreasing n (Fcfs.at_ p) /\
  Fcfs.rows p ≡ₚ Fcfs.rows (Fcfs.Procs (Fcfs.init_pid n) arrival burst) /\
  Fcfs.ct s = Fcfs.completion_spec 0 (zip (Fcfs.at_ p) (Fcfs.bt p)) /\
  Fcfs.time s = Fcfs.final_clock 0 (zip (Fcfs.at_ p) (Fcfs.bt p)).
Proof.
  intros Hv p s.
  assert (Hvp : valid_input n (Fcfs.at_ p) (Fcfs.bt p)).
  { by apply FcfsProofs.sort_by_arrival_valid. }
  destruct (FcfsProofs.sort_by_arrival_spec n
              (Fcfs.Procs (Fcfs.init_pid n) arrival burst))
    as (_ & Hperm & Hsorted).
  { destruct Hv. unfold Fcfs.well_sized; simpl.
    by rewrite FcfsProofs.init_pid_length. }
  destruct (FcfsProofs.simulate_inv n p Hvp)
    as (Hlc & _ & _ & Hct & Htime & _).
  destruct Hvp as [Hla Hlb _ _ _].
  rewrite (take_ge (Fcfs.ct _)) in Hct by lia.
  rewrite take_ge in Hct, Htime by (rewrite length_zip; lia).
  done.
Qed.

Lemma fcfs_completion_recurrence_witness :
  valid_input 3 [4;0;1] [2;3;1] /\
  Fcfs.ct (Fcfs.fcfs 3 [4;0;1] [2;3;1]).2 = [3;4;6].
Proof.
  assert (Hv : valid_input 3 [4;0;1] [2;3;1]).
  { split; [reflexivity | reflexivity | | | ].
    - repeat constructor; lia.
    - repeat constructor; lia.
    - vm_compute. discriminate. }
  split; [exact Hv|].
  destruct (fcfs_completion_recurrence 3 [4;0;1] [2;3;1] Hv) as (_ & _ & Hct & _).
  rewrite Hct. reflexivity.
Defined.

(** ** sjf.cpp *)

(** C2, as the specification states it, fails: with arrivals 0, 2, 1 and
    bursts 5, 3, 3 the first record runs until time 5; then records 2 and
    3 are both eligible with burst 3, record 3 arrived first, and the
    scan takes record 2 (index 1), the first it meets. *)
Lemma np_tie_not_by_arrival :
  let s := Sjf.NonPreemptive.body 3 [0;2;1] [5;3;3] (Sjf.NonPreemptive.init 3) in
  Sjf.NonPreemptive.time s = 5 /\
  Sjf.NonPreemptive.done s = [true; false; false] /\
  ~ Sjf.NonPreemptive.selects_as_specified 3 [0;2;1] [5;3;3]
      (Sjf.NonPreemptive.time s) (Sjf.NonPreemptive.done s).
Proof.
  split; [reflexivity|]. split; [reflexivity|].
  intros Hspec. destruct Hspec as (i & Hsel & _ & Hmin).
  - exists 1%nat. split; [lia|]. split; [vm_compute; discriminate | reflexivity].
  - vm_compute in Hsel. injection Hsel as <-.
    destruct (Hmin 2%nat) as [Hlt | (_ & [Hlt | (Heq & _)])].
    + split; [lia|]. split; [vm_compute; discriminate | reflexivity].
    + vm_compute in Hlt. discriminate.
    + vm_compute in Hlt. discriminate.
    + vm_compute in Heq. discriminate.
Qed.

(** C2, amended: at every selection point with an eligible record (arrived,
    not completed) whose burst time is below 10^9, the scan picks an
    eligible record of minimum burst time, and among the eligible records
    of that burst time the one of lowest index, which is the lowest id. *)
Theorem np_select_first_minimum (n : nat) (at_ bt : list Z)
    (time : Z) (done : list bool) :
  (exists j, Sjf.NonPreemptive.eligible n at_ time done j /\
             bt !!! j < Sjf.SENTINEL) ->
  exists i, Sjf.NonPreemptive.select n at_ bt time done = Some i /\
            Sjf.NonPreemptive.scan_choice n at_ bt time done i.
Proof.
  intros (j & Hj & Hs).
  pose proof (NonPreemptiveProofs.np_select_spec n at_ bt time done) as Hspec.
  destruct (Sjf.NonPreemptive.select n at_ bt time done) as [i|].
  - by exists i.
  - specialize (Hspec j Hj). lia.
Qed.

Lemma np_select_first_minimum_witness :
  exists i, Sjf.NonPreemptive.select 3 [0;2;1] [5;3;3] 5 [true;false;false] = Some i /\
            Sjf.NonPreemptive.scan_choice 3 [0;2;1] [5;3;3] 5 [true;false;false] i.
Proof.
  apply (np_select_first_minimum 3 [0;2;1] [5;3;3] 5 [true;false;false]).
  exists 2%nat. split.
  - split; [lia|]. split; [vm_compute; discriminate | reflexivity].
  - reflexivity.
Defined.

(** C3, as the specification states it, fails: one process with arrival 0
    and burst 10^9 is a valid input, the scans never select it, and
    neither loop ends, whatever the fuel. *)
Lemma sjf_loops_diverge_at_sentinel :
  valid_input 1 [0] [1000000000] /\
  forall fuel,
    Sjf.NonPreemptive.loop 1 [0] [1000000000] fuel (Sjf.NonPreemptive.init 1) = None /\
    Sjf.Preemptive.loop 1 [0] [1000000000] fuel
      (Sjf.Preemptive.init 1 [1000000000]) = None.
Proof.
  split.
  - split; [reflexivity | reflexivity | | | ].
    + repeat constructor; lia.
    + repeat constructor; lia.
    + vm_compute. discriminate.
  - intros fuel. split.
    + apply NonPreemptiveProofs.np_all_blocked_diverges; [|reflexivity].
      intros [|i] Hi; [|lia]. vm_compute. discriminate.
    + apply PreemptiveProofs.srtf_all_blocked_diverges; [|reflexivity].
      intros [|i] Hi; [|lia]. vm_compute. discriminate.
Qed.

(** C3, amended: on a valid input whose burst times are all below 10^9
    both loops end (within [n] plus the last arrival turns for the first,
    the total burst time plus the last arrival for the second); in the
    state a run ends in, the indices whose [ct] was assigned are each
    index below [n] exactly once, and [ct] holds the value assigned then. *)
Theorem sjf_loops_terminate_store_once (n : nat) (at_ bt : list Z) :
  valid_input n at_ bt ->
  Forall (fun b => b < Sjf.SENTINEL) bt ->
  ((exists s, Sjf.NonPreemptive.loop n at_ bt (Sjf.NonPreemptive.enough_fuel n at_)
                (Sjf.NonPreemptive.init n) = Some s) /\
   forall fuel s,
     Sjf.NonPreemptive.loop n at_ bt fuel (Sjf.NonPreemptive.init n) = Some s ->
     (Sjf.NonPreemptive.stores s).*1 ≡ₚ seq 0 n /\
     forall i v, (i, v) ∈ Sjf.NonPreemptive.stores s ->
                 Sjf.NonPreemptive.ct s !!! i = v) /\
  ((exists s, Sjf.Preemptive.loop n at_ bt (Sjf.Preemptive.enough_fuel at_ bt)
                (Sjf.Preemptive.init n bt) = Some s) /\
   forall fuel s,
     Sjf.Preemptive.loop n at_ bt fuel (Sjf.Preemptive.init n bt) = Some s ->
     (Sjf.Preemptive.stores s).*1 ≡ₚ seq 0 n /\
     forall i v, (i, v) ∈ Sjf.Preemptive.stores s ->
                 Sjf.Preemptive.ct s !!! i = v).
Proof.
  intros Hv Hb. split; split.
  - destruct (NonPreemptiveProofs.np_run_spec n at_ bt Hv Hb _ (Nat.le_refl _))
      as (s & Hrun & _).
    by exists s.
  - intros fuel s Hrun.
    destruct (NonPreemptiveProofs.np_run_any n at_ bt Hv Hb fuel s Hrun)
      as (Hperm & Hct & _).
    by split.
  - destruct (PreemptiveProofs.srtf_run_spec n at_ bt Hv Hb _ (Nat.le_refl _))
      as (s & Hrun & _).
    by exists s.
  - intros fuel s Hrun.
    destruct (PreemptiveProofs.srtf_run_any n at_ bt Hv Hb fuel s Hrun)
      as (Hperm & Hct & _).
    by split.
Qed.

Lemma sjf_loops_terminate_store_once_witness :
  (exists s,
     Sjf.NonPreemptive.loop 3 [0;1;2] [8;4;2] 5 (Sjf.NonPreemptive.init 3) = Some s) /\
  (Sjf.NonPreemptive.stores
     (Nat.iter 3 (Sjf.NonPreemptive.body 3 [0;1;2] [8;4;2])
        (Sjf.NonPreemptive.init 3))).*1 ≡ₚ seq 0 3 /\
  (exists s,
     Sjf.Preemptive.loop 3 [0;1;2] [8;4;2] 16 (Sjf.Preemptive.init 3 [8;4;2]) = Some s) /\
  (Sjf.Preemptive.stores
     (Nat.iter 14 (Sjf.Preemptive.body 3 [0;1;2] [8;4;2])
        (Sjf.Preemptive.init 3 [8;4;2]))).*1 ≡ₚ seq 0 3.
Proof.
  assert (Hv : valid_input 3 [0;1;2] [8;4;2]).
  { split; [reflexivity | reflexivity | | | ].
    - repeat constructor; lia.
    - repeat constructor; lia.
    - vm_compute. discriminate. }
  assert (Hb : Forall (fun b => b < Sjf.SENTINEL) [8;4;2]).
  { repeat constructor; reflexivity. }
  destruct (sjf_loops_terminate_store_once 3 [0;1;2] [8;4;2] Hv Hb)
    as [[Hnp1 Hnp2] [Hp1 Hp2]].
  split; [exact Hnp1|]. split.
  - apply (Hnp2 3%nat). vm_compute. reflexivity.
  - split; [exact Hp1|]. apply (Hp2 14%nat). vm_compute. reflexivity.
Defined.

(** C5: on A(0,8), B(1,4), C(2,2) the first branch selects A, then C,
    then B, stores the completion times A=8, C=10, B=14 in that order, and
    leaves turnaround times 8, 13, 8 and waiting times 0, 9, 6 for A, B, C. *)
Theorem np_abc_schedule :
  let body := Sjf.NonPreemptive.body 3 [0;1;2] [8;4;2] in
  let select s := Sjf.NonPreemptive.select 3 [0;1;2] [8;4;2]
                    (Sjf.NonPreemptive.time s) (Sjf.NonPreemptive.done s) in
  let s0 := Sjf.NonPreemptive.init 3 in
  let s3 := body (body (body s0)) in
  select s0 = Some 0%nat /\
  select (body s0) = Some 2%nat /\
  select (body (body s0)) = Some 1%nat /\
  Sjf.NonPreemptive.loop 3 [0;1;2] [8;4;2] 3 s0 = Some s3 /\
  Sjf.NonPreemptive.stores s3 = [(0%nat, 8); (2%nat, 10); (1%nat, 14)] /\
  Sjf.NonPreemptive.ct s3 = [8; 14; 10] /\
  Sjf.NonPreemptive.tat s3 = [8; 13; 8] /\
  Sjf.NonPreemptive.wt s3 = [0; 9; 6].
Proof. vm_compute. split_and!; reflexivity. Qed.

(** C6: on A(0,8), B(1,4), C(2,2) the second branch stores 4 for C, 7
    for B and 14 for A; each store happens in the very turn that brings
    the remaining time to zero, with the clock of that turn: one turn
    earlier the remaining time is 1 and [ct] still holds its initial 0. *)
Theorem p_abc_schedule :
  let after k := Nat.iter k (Sjf.Preemptive.body 3 [0;1;2] [8;4;2])
                   (Sjf.Preemptive.init 3 [8;4;2]) in
  let snapshot k i := (Sjf.Preemptive.time (after k),
                       Sjf.Preemptive.rt (after k) !!! i,
                       Sjf.Preemptive.ct (after k) !!! i) in
  Sjf.Preemptive.loop 3 [0;1;2] [8;4;2] 14 (Sjf.Preemptive.init 3 [8;4;2]) =
    Some (after 14%nat) /\
  Sjf.Preemptive.ct (after 14%nat) = [14; 7; 4] /\
  Sjf.Preemptive.stores (after 14%nat) = [(2%nat, 4); (1%nat, 7); (0%nat, 14)] /\
  snapshot 3%nat 2%nat = (3, 1, 0) /\ snapshot 4%nat 2%nat = (4, 0, 4) /\
  snapshot 6%nat 1%nat = (6, 1, 0) /\ snapshot 7%nat 1%nat = (7, 0, 7) /\
  snapshot 13%nat 0%nat = (13, 1, 0) /\ snapshot 14%nat 0%nat = (14, 0, 14).
Proof. vm_compute. split_and!; reflexivity. Qed.

(** C7, as the specification states it, fails: three records arriving at
    time 0 with burst time 999999999 each are an input the specification
    allows (and below the sentinel); in pid.cpp and in the first branch of
    sjf.cpp the third completion time is 2999999997 reduced to [int],
    -1294967299, so the third row has a turnaround time below its burst
    time. *)
Lemma metrics_fail_on_overflow :
  let bursts := [999999999; 999999999; 999999999] in
  Forall (fun a => 0 <= a) [0;0;0] /\ Forall (fun b => 0 < b) bursts /\
  Forall (fun b => b < Sjf.SENTINEL) bursts /\
  Fcfs.tat (Fcfs.fcfs 3 [0;0;0] bursts).2 !!! 2%nat = -1294967299 /\
  ~ Fcfs.metrics_ok (Fcfs.fcfs 3 [0;0;0] bursts).1 (Fcfs.fcfs 3 [0;0;0] bursts).2 2 /\
  exists s,
    Sjf.NonPreemptive.loop 3 [0;0;0] bursts 3 (Sjf.NonPreemptive.init 3) = Some s /\
    Sjf.NonPreemptive.tat s !!! 2%nat = -1294967299 /\
    ~ Sjf.NonPreemptive.metrics_ok [0;0;0] bursts s 2.
Proof.
  simpl. split_and!.
  - repeat constructor; discriminate.
  - repeat constructor.
  - repeat constructor.
  - vm_compute. reflexivity.
  - intros (_ & _ & _ & Htat). vm_compute in Htat. by apply Htat.
  - eexists. split; [vm_compute; reflexivity|]. split; [vm_compute; reflexivity|].
    intros (_ & _ & _ & Htat). vm_compute in Htat. by apply Htat.
Qed.

(** C7, amended: on an input with arrival times not below 0, burst times
    above 0 and latest arrival plus total burst time at most 2^31 - 1 (so
    that no [int] addition overflows), every row of the table satisfies
    tat = ct - at, wt = tat - bt, wt >= 0 and tat >= bt: after the FCFS
    loop, and in the state either SJF loop ends in. The SJF loops do end
    when no burst time reaches the sentinel 10^9 (otherwise neither ends
    and there is no table). *)
Theorem metrics_after_simulation (n : nat) (at_ bt : list Z) :
  valid_input n at_ bt ->
  (forall i, (i < n)%nat ->
     Fcfs.metrics_ok (Fcfs.fcfs n at_ bt).1 (Fcfs.fcfs n at_ bt).2 i) /\
  (forall fuel s,
     Sjf.NonPreemptive.loop n at_ bt fuel (Sjf.NonPreemptive.init n) = Some s ->
     forall i, (i < n)%nat -> Sjf.NonPreemptive.metrics_ok at_ bt s i) /\
  (forall fuel s,
     Sjf.Preemptive.loop n at_ bt fuel (Sjf.Preemptive.init n bt) = Some s ->
     forall i, (i < n)%nat -> Sjf.Preemptive.metrics_ok at_ bt s i) /\
  (Forall (fun b => b < Sjf.SENTINEL) bt ->
   (exists s, Sjf.NonPreemptive.loop n at_ bt (Sjf.NonPreemptive.enough_fuel n at_)
                (Sjf.NonPreemptive.init n) = Some s) /\
   (exists s, Sjf.Preemptive.loop n at_ bt (Sjf.Preemptive.enough_fuel at_ bt)
                (Sjf.Preemptive.init n bt) = Some s)).
Proof.
  intros Hv. split_and!.
  - pose proof (FcfsProofs.sort_by_arrival_valid n at_ bt Hv) as Hvp.
    apply (FcfsProofs.simulate_inv n _ Hvp).
  - intros fuel s Hrun.
    apply (NonPreemptiveProofs.np_run_sound n at_ bt fuel s Hv Hrun).
  - intros fuel s Hrun.
    apply (PreemptiveProofs.srtf_run_sound n at_ bt fuel s Hv Hrun).
  - intros Hb. split.
    + destruct (NonPreemptiveProofs.np_run_spec n at_ bt Hv Hb _ (Nat.le_refl _))
        as (s & Hrun & _).
      by exists s.
    + destruct (PreemptiveProofs.srtf_run_spec n at_ bt Hv Hb _ (Nat.le_refl _))
        as (s & Hrun & _).
      by exists s.
Qed.

Lemma metrics_after_simulation_witness :
  valid_input 3 [0;1;2] [8;4;2] /\
  Fcfs.metrics_ok (Fcfs.fcfs 3 [0;1;2] [8;4;2]).1 (Fcfs.fcfs 3 [0;1;2] [8;4;2]).2 1 /\
  Sjf.NonPreemptive.metrics_ok [0;1;2] [8;4;2]
    (Nat.iter 3 (Sjf.NonPreemptive.body 3 [0;1;2] [8;4;2])
       (Sjf.NonPreemptive.init 3)) 1 /\
  Sjf.Preemptive.metrics_ok [0;1;2] [8;4;2]
    (Nat.iter 14 (Sjf.Preemptive.body 3 [0;1;2] [8;4;2])
       (Sjf.Preemptive.init 3 [8;4;2])) 1.
Proof.
  assert (Hv : valid_input 3 [0;1;2] [8;4;2]).
  { split; [reflexivity | reflexivity | | | ].
    - repeat constructor; lia.
    - repeat constructor; lia.
    - vm_compute. discriminate. }
  destruct (metrics_after_simulation 3 [0;1;2] [8;4;2] Hv) as (Hf & Hnp & Hp & _).
  split; [exact Hv|]. split; [apply Hf; lia|]. split.
  - apply (Hnp 3%nat); [vm_compute; reflexivity | lia].
  - apply (Hp 14%nat); [vm_compute; reflexivity | lia].
Defined.

(** C8: with a mode other than 1 and 2, [main] returns at once, whatever
    the fuel (no turn of either loop is taken): [ct], [tat] and [wt] are
    as they were created, no [ct] was assigned, and the only thing printed
    is the complaint, not the table. *)
Theorem invalid_choice_aborts (n : nat) (at_ bt : list Z) (choice : Z) (fuel : nat) :
  choice <> 1 -> choice <> 2 ->
  Sjf.main n at_ bt fuel choice =
  Some (Sjf.Result (replicate n 0) (replicate n 0) (replicate n 0) []
                   (Sjf.Message "Invalid choice!")).
Proof.
  intros H1 H2. unfold Sjf.main.
  destruct (Z.eqb_spec choice 1) as [|_]; [done|].
  destruct (Z.eqb_spec choice 2) as [|_]; [done|].
  reflexivity.
Qed.

Lemma invalid_choice_aborts_witness :
  Sjf.main 3 [0;1;2] [8;4;2] 0 3 =
  Some (Sjf.Result [0;0;0] [0;0;0] [0;0;0] [] (Sjf.Message "Invalid choice!")).
Proof.
  apply (invalid_choice_aborts 3 [0;1;2] [8;4;2] 3 0); discriminate.
Defined.

(** C10: both scans start from the minimum 10^9, so whatever they select
    has burst time (first branch) or remaining time (second branch)
    strictly below 10^9; a record whose burst time is 10^9 or more is
    selected in no turn of either loop, its [ct] is never assigned and
    still holds 0 in every state the loop goes through and in any state
    it could end in. *)
Theorem sentinel_excludes_long_bursts (n : nat) (at_ bt : list Z) (i : nat) :
  (i < n)%nat -> Sjf.SENTINEL <= bt !!! i ->
  (forall k,
     let s := Nat.iter k (Sjf.NonPreemptive.body n at_ bt) (Sjf.NonPreemptive.init n) in
     Sjf.NonPreemptive.select n at_ bt (Sjf.NonPreemptive.time s)
       (Sjf.NonPreemptive.done s) <> Some i /\
     Sjf.NonPreemptive.done s !!! i = false /\
     (i ∉ (Sjf.NonPreemptive.stores s).*1) /\
     Sjf.NonPreemptive.ct s !!! i = 0) /\
  (forall fuel s,
     Sjf.NonPreemptive.loop n at_ bt fuel (Sjf.NonPreemptive.init n) = Some s ->
     (i ∉ (Sjf.NonPreemptive.stores s).*1) /\ Sjf.NonPreemptive.ct s !!! i = 0) /\
  (forall k,
     let s := Nat.iter k (Sjf.Preemptive.body n at_ bt) (Sjf.Preemptive.init n bt) in
     Sjf.Preemptive.select n at_ (Sjf.Preemptive.time s)
       (Sjf.Preemptive.rt s) <> Some i /\
     Sjf.Preemptive.rt s !!! i = bt !!! i /\
     (i ∉ (Sjf.Preemptive.stores s).*1) /\
     Sjf.Preemptive.ct s !!! i = 0) /\
  (forall fuel s,
     Sjf.Preemptive.loop n at_ bt fuel (Sjf.Preemptive.init n bt) = Some s ->
     (i ∉ (Sjf.Preemptive.stores s).*1) /\ Sjf.Preemptive.ct s !!! i = 0) /\
  (forall time done j,
     Sjf.NonPreemptive.select n at_ bt time done = Some j -> bt !!! j < Sjf.SENTINEL) /\
  (forall time rt j,
     Sjf.Preemptive.select n at_ time rt = Some j -> rt !!! j < Sjf.SENTINEL).
Proof.
  intros Hi Hbig. split_and!.
  - intros k. by apply NonPreemptiveProofs.np_blocked.
  - intros fuel s Hrun.
    destruct (NonPreemptiveProofs.np_loop_iter n at_ bt fuel _ _ Hrun) as [k ->].
    apply (NonPreemptiveProofs.np_blocked n at_ bt i k Hi Hbig).
  - intros k. by apply PreemptiveProofs.srtf_blocked.
  - intros fuel s Hrun.
    destruct (PreemptiveProofs.srtf_loop_iter n at_ bt fuel _ _ Hrun) as [k ->].
    apply (PreemptiveProofs.srtf_blocked n at_ bt i k Hi Hbig).
  - apply NonPreemptiveProofs.np_select_below.
  - apply PreemptiveProofs.srtf_select_below.
Qed.

Lemma sentinel_excludes_long_bursts_witness :
  Sjf.SENTINEL <= [1000000000; 3] !!! 0%nat /\
  (let s := Nat.iter 4 (Sjf.NonPreemptive.body 2 [0;0] [1000000000; 3])
              (Sjf.NonPreemptive.init 2) in
   Sjf.NonPreemptive.done s = [false; true] /\
   Sjf.NonPreemptive.ct s !!! 0%nat = 0) /\
  (let s := Nat.iter 4 (Sjf.Preemptive.body 2 [0;0] [1000000000; 3])
              (Sjf.Preemptive.init 2 [1000000000; 3]) in
   Sjf.Preemptive.rt s = [1000000000; 0] /\
   Sjf.Preemptive.ct s !!! 0%nat = 0).
Proof.
  assert (Hbig : Sjf.SENTINEL <= [1000000000; 3] !!! 0%nat).
  { vm_compute. discriminate. }
  destruct (sentinel_excludes_long_bursts 2 [0;0] [1000000000; 3] 0
              ltac:(lia) Hbig) as (Hnp & _ & Hp & _).
  split; [exact Hbig|]. split.
  - split; [reflexivity|]. apply (Hnp 4%nat).
  - split; [reflexivity|]. apply (Hp 4%nat).
Defined.

(** C9, as the specification states it, fails: with arrivals 0, 2^24,
    2^24 + 1 and bursts 2^24, 1, 1 the turnaround times are 2^24, 1, 1; the
    [float] total stays at 2^24 through both additions of 1 (ties go to
    the even mantissa), so the average is 2^24 / 3 in binary32, not the
    mean (2^24 + 2) / 3 = 5592406. With 31 such records of burst 1 behind
    the first, the difference reaches the digits printed: the program
    prints 524288 where the mean of the 32 turnaround times is 524289 in
    binary32 (524288.97 exactly). *)
Lemma averages_differ_from_mean :
  (let arrival := [0; 16777216; 16777217] in
   let burst := [16777216; 1; 1] in
   let r := FcfsFloat.fcfs 3 arrival burst in
   valid_input 3 arrival burst /\
   Fcfs.tat r.1.2 = [16777216; 1; 1] /\
   r.2.1 = S754_finite false 11184811 (-1) /\
   mean 3 (Fcfs.tat r.1.2) = S754_finite false 11184812 (-1) /\
   r.2.1 <> mean 3 (Fcfs.tat r.1.2)) /\
  (let arrival := 0 :: map (fun k => 16777216 + Z.of_nat k) (seq 0 31) in
   let burst := 16777216 :: replicate 31 1 in
   let r := FcfsFloat.fcfs 32 arrival burst in
   valid_input 32 arrival burst /\
   Fcfs.tat r.1.2 = 16777216 :: replicate 31 1 /\
   r.2.1 = float_of_int 524288 /\
   mean 32 (Fcfs.tat r.1.2) = float_of_int 524289 /\
   r.2.1 <> mean 32 (Fcfs.tat r.1.2)).
Proof.
  split; cbv zeta; split_and!.
  - split; [reflexivity | reflexivity | compute_done | compute_done | ].
    vm_compute. discriminate.
  - vm_compute. reflexivity.
  - vm_compute. reflexivity.
  - vm_compute. reflexivity.
  - vm_compute. discriminate.
  - split; [vm_compute; reflexivity | vm_compute; reflexivity
           | compute_done | compute_done | ].
    vm_compute. discriminate.
  - vm_compute. reflexivity.
  - vm_compute. reflexivity.
  - vm_compute. reflexivity.
  - vm_compute. discriminate.
Qed.

(** C9, amended: on a valid input whose turnaround times sum to less than
    2^24, after simulation in any mode the two averages printed are the
    arithmetic means, the sum of the turnaround (waiting) times divided by
    n in binary32 division: every partial sum is then exactly representable
    and the [float] totals carry no rounding. The first component of each
    part ties the arrays computed along with the totals to the simulation
    without them;
    the SJF loops with totals end when every burst time is below 10^9. *)
Theorem averages_are_means (n : nat) (at_ bt : list Z) :
  valid_input n at_ bt ->
  (let r := FcfsFloat.fcfs n at_ bt in
   r.1.2 = (Fcfs.fcfs n at_ bt).2 /\
   (list_sum_Z (Fcfs.tat r.1.2) < 16777216 ->
    r.2 = (mean n (Fcfs.tat r.1.2), mean n (Fcfs.wt r.1.2)))) /\
  (forall fuel s t,
     SjfFloat.np_run n at_ bt fuel = Some (s, t) ->
     Sjf.NonPreemptive.loop n at_ bt fuel (Sjf.NonPreemptive.init n) = Some s /\
     (list_sum_Z (Sjf.NonPreemptive.tat s) < 16777216 ->
      averages n t =
      (mean n (Sjf.NonPreemptive.tat s), mean n (Sjf.NonPreemptive.wt s)))) /\
  (forall fuel s t,
     SjfFloat.srtf_run n at_ bt fuel = Some (s, t) ->
     Sjf.Preemptive.loop n at_ bt fuel (Sjf.Preemptive.init n bt) = Some s /\
     (list_sum_Z (Sjf.Preemptive.tat s) < 16777216 ->
      averages n t =
      (mean n (Sjf.Preemptive.tat s), mean n (Sjf.Preemptive.wt s)))) /\
  (Forall (fun b => b < Sjf.SENTINEL) bt ->
   (exists st, SjfFloat.np_run n at_ bt (Sjf.NonPreemptive.enough_fuel n at_) = Some st) /\
   (exists st, SjfFloat.srtf_run n at_ bt (Sjf.Preemptive.enough_fuel at_ bt) = Some st)).
Proof.
  intros Hv. split_and!.
  - exact (TotalsProofs.fcfs_averages_exact n at_ bt Hv).
  - intros fuel s t Hrun.
    pose proof (TotalsProofs.np_loop_state n at_ bt fuel _ _ _ _ Hrun) as Hloop.
    split; [done|]. intros Hsum.
    pose proof (NonPreemptiveMore.np_ends_below n at_ bt fuel s Hv Hloop) as Hb.
    by apply (TotalsProofs.np_averages_exact n at_ bt Hv Hb fuel).
  - intros fuel s t Hrun.
    pose proof (TotalsProofs.srtf_loop_state n at_ bt fuel _ _ _ _ Hrun) as Hloop.
    split; [done|]. intros Hsum.
    pose proof (PreemptiveMore.srtf_ends_below n at_ bt fuel s Hv Hloop) as Hb.
    by apply (TotalsProofs.srtf_averages_exact n at_ bt Hv Hb fuel).
  - intros Hb. split.
    + destruct (NonPreemptiveProofs.np_run_spec n at_ bt Hv Hb _ (Nat.le_refl _))
        as (s & Hrun & _).
      destruct (TotalsProofs.np_loop_totals n at_ bt _ _ no_totals _ Hrun) as [t Ht].
      by exists (s, t).
    + destruct (PreemptiveProofs.srtf_run_spec n at_ bt Hv Hb _ (Nat.le_refl _))
        as (s & Hrun & _).
      destruct (TotalsProofs.srtf_loop_totals n at_ bt _ _ no_totals _ Hrun) as [t Ht].
      by exists (s, t).
Qed.

Lemma averages_are_means_witness :
  valid_input 3 [0;1;2] [8;4;2] /\
  (FcfsFloat.fcfs 3 [0;1;2] [8;4;2]).2 =
  (mean 3 (Fcfs.tat (FcfsFloat.fcfs 3 [0;1;2] [8;4;2]).1.2),
   mean 3 (Fcfs.wt (FcfsFloat.fcfs 3 [0;1;2] [8;4;2]).1.2)).
Proof.
  assert (Hv : valid_input 3 [0;1;2] [8;4;2]).
  { split; [reflexivity | reflexivity | | | ].
    - repeat constructor; lia.
    - repeat constructor; lia.
    - vm_compute. discriminate. }
  split; [exact Hv|].
  destruct (averages_are_means 3 [0;1;2] [8;4;2] Hv) as ((_ & Havg) & _).
  apply Havg. vm_compute. reflexivity.
Defined.

(** * Further properties of the two programs *)

(** ** pid.cpp *)

(** X1: after the sort of pid.cpp the [pid] column holds each of the ids
    1 .. n exactly once. *)
Theorem fcfs_ids_once (n : nat) (arrival burst : list Z) :
  length arrival = n -> length burst = n ->
  let p := (Fcfs.fcfs n arrival burst).1 in
  NoDup (Fcfs.pid p) /\
  forall id, id ∈ Fcfs.pid p <-> 1 <= id <= Z.of_nat n.
Proof.
  intros Ha Hb p.
  assert (Hpid : Fcfs.pid p ≡ₚ Fcfs.init_pid n).
  { exact (proj1 (FcfsMore.sort_by_arrival_perm n arrival burst Ha Hb)). }
  split.
  - rewrite Hpid. apply FcfsMore.init_pid_NoDup.
  - intros id. rewrite Hpid. unfold Fcfs.init_pid.
    rewrite list_elem_of_fmap. split.
    + intros (i & -> & Hi). apply elem_of_seq in Hi. lia.
    + intros Hid. exists (Z.to_nat (id - 1)). split; [lia|].
      apply elem_of_seq. lia.
Qed.

Lemma fcfs_ids_once_witness :
  NoDup (Fcfs.pid (Fcfs.fcfs 3 [2;2;1] [5;6;7]).1) /\
  (2 ∈ Fcfs.pid (Fcfs.fcfs 3 [2;2;1] [5;6;7]).1 <-> 1 <= 2 <= Z.of_nat 3).
Proof.
  destruct (fcfs_ids_once 3 [2;2;1] [5;6;7] eq_refl eq_refl) as [Hnd Hin].
  split; [exact Hnd | exact (Hin 2)].
Defined.

(** X2: running the exchange sort of pid.cpp on its own output changes
    nothing. *)
Theorem fcfs_sort_idempotent (n : nat) (p : Fcfs.procs) :
  Fcfs.well_sized n p ->
  Fcfs.sort_by_arrival n (Fcfs.sort_by_arrival n p) = Fcfs.sort_by_arrival n p.
Proof.
  intros Hsz.
  destruct (FcfsProofs.sort_by_arrival_spec n p Hsz) as (Hsz' & _ & Hsorted).
  by apply FcfsProofs.sort_by_arrival_sorted_id.
Qed.

Lemma fcfs_sort_idempotent_witness :
  Fcfs.sort_by_arrival 3 (Fcfs.sort_by_arrival 3 (Fcfs.Procs [1;2;3] [2;2;1] [5;6;7]))
  = Fcfs.sort_by_arrival 3 (Fcfs.Procs [1;2;3] [2;2;1] [5;6;7]).
Proof.
  apply (fcfs_sort_idempotent 3 (Fcfs.Procs [1;2;3] [2;2;1] [5;6;7])).
  repeat split.
Defined.

(** X3: in the FCFS table no two records overlap: a later row starts
    (its completion time minus its burst time) no earlier than every
    earlier row completes, so completion times increase strictly down the
    table. *)
Theorem fcfs_rows_sequential (n : nat) (arrival burst : list Z) :
  valid_input n arrival burst ->
  let p := (Fcfs.fcfs n arrival burst).1 in
  let s := (Fcfs.fcfs n arrival burst).2 in
  forall i j, (i < j < n)%nat ->
    Fcfs.ct s !!! i <= Fcfs.ct s !!! j - Fcfs.bt p !!! j /\
    Fcfs.ct s !!! i < Fcfs.ct s !!! j.
Proof.
  intros Hv p s i j Hij. subst p s. unfold Fcfs.fcfs. cbn [fst snd].
  set (p := Fcfs.sort_by_arrival n _).
  assert (Hvp : valid_input n (Fcfs.at_ p) (Fcfs.bt p)).
  { by apply FcfsProofs.sort_by_arrival_valid. }
  destruct (FcfsMore.simulate_sequential n p Hvp) as [_ (_ & Hseq & _)].
  specialize (Hseq i j Hij).
  destruct Hvp as [_ Hlb _ Hbt _].
  pose proof (Forall_lookup_total_Z _ _ j Hbt ltac:(lia)) as Hb. simpl in Hb.
  split; [exact Hseq | lia].
Qed.

Lemma fcfs_rows_sequential_witness :
  valid_input 3 [4;0;1] [2;3;1] /\
  Fcfs.ct (Fcfs.fcfs 3 [4;0;1] [2;3;1]).2 !!! 0%nat <
  Fcfs.ct (Fcfs.fcfs 3 [4;0;1] [2;3;1]).2 !!! 2%nat.
Proof.
  assert (Hv : valid_input 3 [4;0;1] [2;3;1]).
  { split; [reflexivity | reflexivity | | | ].
    - repeat constructor; lia.
    - repeat constructor; lia.
    - vm_compute. discriminate. }
  split; [exact Hv|].
  apply (fcfs_rows_sequential 3 [4;0;1] [2;3;1] Hv 0%nat 2%nat). lia.
Defined.

(** X4: when every record arrives at time 0, pid.cpp keeps the input
    order, the completion times are the running totals of the burst times,
    and each record waits for exactly the burst times before it. *)
Theorem fcfs_zero_arrivals (n : nat) (arrival burst : list Z) :
  valid_input n arrival burst ->
  Forall (fun a => a = 0) arrival ->
  let p := (Fcfs.fcfs n arrival burst).1 in
  let s := (Fcfs.fcfs n arrival burst).2 in
  p = Fcfs.Procs (Fcfs.init_pid n) arrival burst /\
  Fcfs.ct s = running_total 0 burst /\
  forall i, (i < n)%nat -> Fcfs.wt s !!! i = Fcfs.ct s !!! i - burst !!! i.
Proof.
  intros Hv Hz p s. subst p s. unfold Fcfs.fcfs. cbn [fst snd].
  set (p := Fcfs.sort_by_arrival n _). set (s := Fcfs.simulate n p).
  assert (Hp : p = Fcfs.Procs (Fcfs.init_pid n) arrival burst).
  { apply FcfsProofs.sort_by_arrival_sorted_id.
    - destruct Hv. unfold Fcfs.well_sized; simpl.
      by rewrite FcfsProofs.init_pid_length.
    - intros i j Hij. simpl. destruct Hv as [Hla _ _ _ _].
      pose proof (Forall_lookup_total_Z _ _ i Hz ltac:(lia)) as Hi.
      pose proof (Forall_lookup_total_Z _ _ j Hz ltac:(lia)) as Hj.
      simpl in Hi, Hj. lia. }
  split; [done|].
  assert (Hvp : valid_input n (Fcfs.at_ p) (Fcfs.bt p)).
  { by apply FcfsProofs.sort_by_arrival_valid. }
  destruct (FcfsProofs.simulate_inv n p Hvp)
    as (Hlc & _ & _ & Hct & _ & _ & _ & Hmet).
  fold s in Hlc, Hct, Hmet.
  rewrite (take_ge (Fcfs.ct s)) in Hct by lia.
  clearbody s.
  destruct Hv as [Hla Hlb Hat Hbt Hrange].
  rewrite Hp in Hct, Hmet. simpl in Hct, Hmet.
  rewrite take_ge in Hct by (rewrite length_zip; lia).
  split.
  - rewrite Hct. apply FcfsMore.completion_spec_zero_arrivals;
      try done; lia.
  - intros i Hi. destruct (Hmet i Hi) as (Htat & Hwt & _).
    simpl in Htat, Hwt.
    pose proof (Forall_lookup_total_Z _ _ i Hz ltac:(lia)) as Hzi.
    simpl in Hzi. lia.
Qed.

Lemma fcfs_zero_arrivals_witness :
  valid_input 3 [0;0;0] [8;4;2] /\
  Fcfs.ct (Fcfs.fcfs 3 [0;0;0] [8;4;2]).2 = [8; 12; 14].
Proof.
  assert (Hv : valid_input 3 [0;0;0] [8;4;2]).
  { split; [reflexivity | reflexivity | | | ].
    - repeat constructor; lia.
    - repeat constructor; lia.
    - vm_compute. discriminate. }
  split; [exact Hv|].
  destruct (fcfs_zero_arrivals 3 [0;0;0] [8;4;2] Hv) as (_ & Hct & _).
  - repeat constructor.
  - exact Hct.
Defined.

(** X5: the clock pid.cpp ends with is at least the total burst time and
    at most the last arrival plus the total burst time. *)
Theorem fcfs_makespan (n : nat) (arrival burst : list Z) :
  valid_input n arrival burst ->
  let s := (Fcfs.fcfs n arrival burst).2 in
  list_sum_Z burst <= Fcfs.time s <= list_max_Z arrival + list_sum_Z burst.
Proof.
  intros Hv s. subst s. unfold Fcfs.fcfs. cbn [fst snd].
  set (p := Fcfs.sort_by_arrival n _).
  assert (Hvp : valid_input n (Fcfs.at_ p) (Fcfs.bt p)).
  { by apply FcfsProofs.sort_by_arrival_valid. }
  destruct (FcfsMore.simulate_sequential n p Hvp)
    as [(_ & _ & _ & _ & _ & _ & Hup & _) (_ & _ & Hlow)].
  destruct Hv as [Hla Hlb _ _ _].
  assert (Hperm : Fcfs.pid p ≡ₚ Fcfs.init_pid n /\ Fcfs.at_ p ≡ₚ arrival /\
                  Fcfs.bt p ≡ₚ burst).
  { exact (FcfsMore.sort_by_arrival_perm n arrival burst Hla Hlb). }
  destruct Hperm as (_ & Hpa & Hpb).
  destruct Hvp as [_ Hlbp _ _ _].
  rewrite drop_ge in Hup, Hlow by lia. simpl in Hup, Hlow.
  rewrite (list_max_Z_perm _ _ Hpa), (list_sum_Z_perm _ _ Hpb) in Hup.
  rewrite (list_sum_Z_perm _ _ Hpb) in Hlow.
  lia.
Qed.

Lemma fcfs_makespan_witness :
  valid_input 3 [4;0;1] [2;3;1] /\
  6 <= Fcfs.time (Fcfs.fcfs 3 [4;0;1] [2;3;1]).2 <= 10.
Proof.
  assert (Hv : valid_input 3 [4;0;1] [2;3;1]).
  { split; [reflexivity | reflexivity | | | ].
    - repeat constructor; lia.
    - repeat constructor; lia.
    - vm_compute. discriminate. }
  split; [exact Hv|].
  exact (fcfs_makespan 3 [4;0;1] [2;3;1] Hv).
Defined.

(** ** sjf.cpp *)

(** X6: when some arrived record has remaining time between 1 and 10^9 - 1,
    the scan of the second branch selects such a record with the least
    remaining time, and among those of least remaining time the one of
    lowest index. *)
Theorem srtf_select_least_remaining (n : nat) (at_ : list Z)
    (time : Z) (rt : list Z) :
  (exists j, (j < n)%nat /\ at_ !!! j <= time /\ 0 < rt !!! j < Sjf.SENTINEL) ->
  exists i, Sjf.Preemptive.select n at_ time rt = Some i /\
    (i < n)%nat /\ at_ !!! i <= time /\ 0 < rt !!! i < Sjf.SENTINEL /\
    (forall j, (j < n)%nat -> at_ !!! j <= time -> 0 < rt !!! j ->
       rt !!! i <= rt !!! j) /\
    (forall j, (j < i)%nat -> at_ !!! j <= time -> 0 < rt !!! j ->
       rt !!! i < rt !!! j).
Proof.
  intros (j & Hj & Ha & Hr0 & Hr1).
  pose proof (PreemptiveProofs.srtf_select_spec n at_ time rt) as Hspec.
  destruct (Sjf.Preemptive.select n at_ time rt) as [i|].
  - exists i. split; [done|]. exact Hspec.
  - specialize (Hspec j Hj Ha Hr0). lia.
Qed.

Lemma srtf_select_least_remaining_witness :
  exists i, Sjf.Preemptive.select 3 [0;1;2] 2 [6;3;2] = Some i /\
    (i < 3)%nat /\ [0;1;2] !!! i <= 2 /\ 0 < [6;3;2] !!! i < Sjf.SENTINEL /\
    (forall j, (j < 3)%nat -> [0;1;2] !!! j <= 2 -> 0 < [6;3;2] !!! j ->
       [6;3;2] !!! i <= [6;3;2] !!! j) /\
    (forall j, (j < i)%nat -> [0;1;2] !!! j <= 2 -> 0 < [6;3;2] !!! j ->
       [6;3;2] !!! i < [6;3;2] !!! j).
Proof.
  apply (srtf_select_least_remaining 3 [0;1;2] 2 [6;3;2]).
  exists 0%nat. split; [lia|]. split; [vm_compute; discriminate|].
  split; reflexivity.
Defined.

(** X7: where the first branch ends, every record is done, no completion
    time is past the clock, and no two records overlap: of any two, one
    completes no later than the other starts (its completion time minus
    its burst time). *)
Theorem np_runs_do_not_overlap (n : nat) (at_ bt : list Z)
    (fuel : nat) (s : Sjf.NonPreemptive.state) :
  valid_input n at_ bt ->
  Sjf.NonPreemptive.loop n at_ bt fuel (Sjf.NonPreemptive.init n) = Some s ->
  (forall i, (i < n)%nat ->
     Sjf.NonPreemptive.done s !!! i = true /\
     Sjf.NonPreemptive.ct s !!! i <= Sjf.NonPreemptive.time s) /\
  (forall i j, (i < n)%nat -> (j < n)%nat -> i <> j ->
     Sjf.NonPreemptive.ct s !!! i <= Sjf.NonPreemptive.ct s !!! j - bt !!! j \/
     Sjf.NonPreemptive.ct s !!! j <= Sjf.NonPreemptive.ct s !!! i - bt !!! i).
Proof.
  intros Hv Hrun.
  pose proof (NonPreemptiveMore.np_ends_below n at_ bt fuel s Hv Hrun) as Hb.
  destruct (NonPreemptiveMore.np_run_sequential n at_ bt Hv Hb fuel s Hrun)
    as (Hdone & _ & Hpast & Hseq & _).
  split.
  - intros i Hi. split; [by apply Hdone|]. apply Hpast; [done|]. by apply Hdone.
  - intros i j Hi Hj Hij. apply Hseq; try done; by apply Hdone.
Qed.

Lemma np_runs_do_not_overlap_witness :
  let s := Nat.iter 3 (Sjf.NonPreemptive.body 3 [0;1;2] [8;4;2])
             (Sjf.NonPreemptive.init 3) in
  Sjf.NonPreemptive.ct s !!! 1%nat <= Sjf.NonPreemptive.ct s !!! 2%nat - 2 \/
  Sjf.NonPreemptive.ct s !!! 2%nat <= Sjf.NonPreemptive.ct s !!! 1%nat - 4.
Proof.
  assert (Hv : valid_input 3 [0;1;2] [8;4;2]).
  { split; [reflexivity | reflexivity | | | ].
    - repeat constructor; lia.
    - repeat constructor; lia.
    - vm_compute. discriminate. }
  refine (proj2 (np_runs_do_not_overlap 3 [0;1;2] [8;4;2] 3 _ Hv _)
            1%nat 2%nat _ _ _); [vm_compute; reflexivity | lia | lia | lia].
Defined.

(** X8: on a valid input with every burst time below 10^9 and every
    record arriving at time 0, the first branch ends, and it completes the
    records in order of burst time, equal burst times in order of index. *)
Theorem np_shortest_job_first (n : nat) (at_ bt : list Z) :
  valid_input n at_ bt ->
  Forall (fun b => b < Sjf.SENTINEL) bt ->
  Forall (fun a => a = 0) at_ ->
  (exists s,
     Sjf.NonPreemptive.loop n at_ bt (Sjf.NonPreemptive.enough_fuel n at_)
       (Sjf.NonPreemptive.init n) = Some s) /\
  (forall fuel s,
     Sjf.NonPreemptive.loop n at_ bt fuel (Sjf.NonPreemptive.init n) = Some s ->
     forall i j, (i < n)%nat -> (j < n)%nat -> before bt i j ->
       Sjf.NonPreemptive.ct s !!! i < Sjf.NonPreemptive.ct s !!! j).
Proof.
  intros Hv Hb Hz. split.
  - destruct (NonPreemptiveProofs.np_run_spec n at_ bt Hv Hb _ (Nat.le_refl _))
      as (s & Hrun & _).
    by exists s.
  - intros fuel s Hrun i j Hi Hj Hij.
    destruct (NonPreemptiveMore.np_run_sequential n at_ bt Hv Hb fuel s Hrun)
      as (Hdone & _).
    destruct (NonPreemptiveMore.np_run_shortest_first n at_ bt Hv Hb Hz fuel s Hrun)
      as [_ Hord].
    apply Hord; try done; by apply Hdone.
Qed.

Lemma np_shortest_job_first_witness :
  let s := Nat.iter 3 (Sjf.NonPreemptive.body 3 [0;0;0] [5;2;2])
             (Sjf.NonPreemptive.init 3) in
  Sjf.NonPreemptive.ct s !!! 1%nat < Sjf.NonPreemptive.ct s !!! 2%nat /\
  Sjf.NonPreemptive.ct s !!! 2%nat < Sjf.NonPreemptive.ct s !!! 0%nat.
Proof.
  assert (Hv : valid_input 3 [0;0;0] [5;2;2]).
  { split; [reflexivity | reflexivity | | | ].
    - repeat constructor; lia.
    - repeat constructor; lia.
    - vm_compute. discriminate. }
  assert (Hb : Forall (fun b => b < Sjf.SENTINEL) [5;2;2])
    by (repeat constructor).
  assert (Hz : Forall (fun a => a = 0) [0;0;0]) by repeat constructor.
  assert (Hrun : Sjf.NonPreemptive.loop 3 [0;0;0] [5;2;2] 3
                   (Sjf.NonPreemptive.init 3) =
                 Some (Nat.iter 3 (Sjf.NonPreemptive.body 3 [0;0;0] [5;2;2])
                         (Sjf.NonPreemptive.init 3))).
  { vm_compute. reflexivity. }
  destruct (np_shortest_job_first 3 [0;0;0] [5;2;2] Hv Hb Hz) as [_ Hord].
  split.
  - apply (Hord 3%nat _ Hrun 1%nat 2%nat);
      [lia | lia |]. right. split; [reflexivity | lia].
  - apply (Hord 3%nat _ Hrun 2%nat 0%nat);
      [lia | lia |]. left. reflexivity.
Defined.

(** X9: on a valid input with every burst time below 10^9 either branch
    of sjf.cpp ends, and the clock it ends with is at least the total burst
    time and at most the last arrival plus the total burst time. *)
Theorem sjf_makespan (n : nat) (at_ bt : list Z) :
  valid_input n at_ bt ->
  Forall (fun b => b < Sjf.SENTINEL) bt ->
  ((exists s,
      Sjf.NonPreemptive.loop n at_ bt (Sjf.NonPreemptive.enough_fuel n at_)
        (Sjf.NonPreemptive.init n) = Some s) /\
   (forall fuel s,
      Sjf.NonPreemptive.loop n at_ bt fuel (Sjf.NonPreemptive.init n) = Some s ->
      list_sum_Z bt <= Sjf.NonPreemptive.time s <= list_max_Z at_ + list_sum_Z bt)) /\
  ((exists s,
      Sjf.Preemptive.loop n at_ bt (Sjf.Preemptive.enough_fuel at_ bt)
        (Sjf.Preemptive.init n bt) = Some s) /\
   (forall fuel s,
      Sjf.Preemptive.loop n at_ bt fuel (Sjf.Preemptive.init n bt) = Some s ->
      list_sum_Z bt <= Sjf.Preemptive.time s <= list_max_Z at_ + list_sum_Z bt)).
Proof.
  intros Hv Hb. split; split.
  - destruct (NonPreemptiveProofs.np_run_spec n at_ bt Hv Hb _ (Nat.le_refl _))
      as (s & Hrun & _).
    by exists s.
  - intros fuel s Hrun.
    destruct (NonPreemptiveMore.np_run_sequential n at_ bt Hv Hb fuel s Hrun)
      as (Hdone & Hinv & _ & _ & Hlow).
    destruct Hinv as (Hld & _ & _ & _ & _ & Hup & _).
    destruct Hv as [_ Hlb _ _ _].
    rewrite (NonPreemptiveMore.pending_all_done bt) in Hup, Hlow;
      try lia; try (intros i Hi; apply Hdone; lia).
  - destruct (PreemptiveProofs.srtf_run_spec n at_ bt Hv Hb _ (Nat.le_refl _))
      as (s & Hrun & _).
    by exists s.
  - intros fuel s Hrun.
    destruct (PreemptiveMore.srtf_run_sequential n at_ bt Hv Hb fuel s Hrun)
      as (Hzero & Hinv & _ & _ & Hlow).
    destruct Hinv as (Hlr & _ & _ & _ & _ & Hup & _).
    assert (Hsum : list_sum_Z (Sjf.Preemptive.rt s) = 0).
    { assert (H1 : 0 <= list_sum_Z (Sjf.Preemptive.rt s)).
      { apply list_sum_Z_nonneg_lookup. intros i Hi. rewrite Hzero; lia. }
      assert (H2 : list_sum_Z (Sjf.Preemptive.rt s) <=
                   list_sum_Z (replicate n 0)).
      { apply list_sum_Z_le_lookup; [by rewrite length_replicate|].
        intros i Hi. rewrite Hzero by lia.
        rewrite lookup_total_replicate_2 by lia. lia. }
      assert (H3 : list_sum_Z (replicate n 0) = 0).
      { clear. induction n; simpl; lia. }
      lia. }
    lia.
Qed.

Lemma sjf_makespan_witness :
  valid_input 3 [0;1;2] [8;4;2] /\
  14 <= Sjf.NonPreemptive.time
          (Nat.iter 3 (Sjf.NonPreemptive.body 3 [0;1;2] [8;4;2])
             (Sjf.NonPreemptive.init 3)) <= 16 /\
  14 <= Sjf.Preemptive.time
          (Nat.iter 14 (Sjf.Preemptive.body 3 [0;1;2] [8;4;2])
             (Sjf.Preemptive.init 3 [8;4;2])) <= 16.
Proof.
  assert (Hv : valid_input 3 [0;1;2] [8;4;2]).
  { split; [reflexivity | reflexivity | | | ].
    - repeat constructor; lia.
    - repeat constructor; lia.
    - vm_compute. discriminate. }
  assert (Hb : Forall (fun b => b < Sjf.SENTINEL) [8;4;2])
    by (repeat constructor).
  destruct (sjf_makespan 3 [0;1;2] [8;4;2] Hv Hb) as [[_ Hnp] [_ Hp]].
  split; [exact Hv|]. split.
  - apply (Hnp 3%nat). vm_compute. reflexivity.
  - apply (Hp 14%nat). vm_compute. reflexivity.
Defined.

(** X10: a record whose burst time is zero or negative is never selected
    by the second branch (its scan asks for a positive remaining time), so
    with such a record the preemptive loop never ends. *)
Theorem srtf_nonpositive_burst_diverges (n : nat) (at_ bt : list Z) (i : nat) :
  Z.of_nat n <= INT_MAX -> length bt = n -> (i < n)%nat -> bt !!! i <= 0 ->
  (forall k,
     let s := Nat.iter k (Sjf.Preemptive.body n at_ bt) (Sjf.Preemptive.init n bt) in
     Sjf.Preemptive.rt s !!! i = bt !!! i /\
     (i ∉ (Sjf.Preemptive.stores s).*1) /\
     Sjf.Preemptive.ct s !!! i = 0) /\
  forall fuel,
    Sjf.Preemptive.loop n at_ bt fuel (Sjf.Preemptive.init n bt) = None.
Proof.
  intros Hn Hlb Hi Hnone. split.
  - intros k. by apply PreemptiveMore.srtf_idle_record.
  - intros fuel. by apply (PreemptiveMore.srtf_idle_record_never_ends n at_ bt i).
Qed.

Lemma srtf_nonpositive_burst_diverges_witness :
  Sjf.Preemptive.loop 2 [0;0] [3;0] 50 (Sjf.Preemptive.init 2 [3;0]) = None.
Proof.
  refine (proj2 (srtf_nonpositive_burst_diverges 2 [0;0] [3;0] 1 _ _ _ _) 50%nat).
  - vm_compute. discriminate.
  - reflexivity.
  - lia.
  - vm_compute. discriminate.
Defined.

(** X11: where the second branch ends, every remaining time is 0, no
    completion time is past the clock, and no two records have the same
    completion time. *)
Theorem srtf_completions_distinct (n : nat) (at_ bt : list Z)
    (fuel : nat) (s : Sjf.Preemptive.state) :
  valid_input n at_ bt ->
  Sjf.Preemptive.loop n at_ bt fuel (Sjf.Preemptive.init n bt) = Some s ->
  (forall i, (i < n)%nat ->
     Sjf.Preemptive.rt s !!! i = 0 /\
     Sjf.Preemptive.ct s !!! i <= Sjf.Preemptive.time s) /\
  (forall i j, (i < n)%nat -> (j < n)%nat -> i <> j ->
     Sjf.Preemptive.ct s !!! i <> Sjf.Preemptive.ct s !!! j).
Proof.
  intros Hv Hrun.
  pose proof (PreemptiveMore.srtf_ends_below n at_ bt fuel s Hv Hrun) as Hb.
  destruct (PreemptiveMore.srtf_run_sequential n at_ bt Hv Hb fuel s Hrun)
    as (Hzero & _ & Hpast & Hdiff & _).
  split.
  - intros i Hi. split; [by apply Hzero|]. apply Hpast; [done|]. by apply Hzero.
  - intros i j Hi Hj Hij. apply Hdiff; try done; by apply Hzero.
Qed.

Lemma srtf_completions_distinct_witness :
  let s := Nat.iter 14 (Sjf.Preemptive.body 3 [0;1;2] [8;4;2])
             (Sjf.Preemptive.init 3 [8;4;2]) in
  Sjf.Preemptive.ct s !!! 0%nat <> Sjf.Preemptive.ct s !!! 2%nat.
Proof.
  assert (Hv : valid_input 3 [0;1;2] [8;4;2]).
  { split; [reflexivity | reflexivity | | | ].
    - repeat constructor; lia.
    - repeat constructor; lia.
    - vm_compute. discriminate. }
  refine (proj2 (srtf_completions_distinct 3 [0;1;2] [8;4;2] 14 _ Hv _)
            0%nat 2%nat _ _ _); [vm_compute; reflexivity | lia | lia | lia].
Defined.

(** X12: with mode 1 or 2, a valid input whose burst times are below
    10^9 and enough fuel, [main] ends and prints the table: [n] rows, row
    [i] with pid [i + 1], the input arrival and burst time and the computed
    times, which satisfy tat = ct - at, wt = tat - bt and wt >= 0; every
    [ct] entry was assigned exactly once. *)
Theorem sjf_main_prints_table (n : nat) (at_ bt : list Z) (choice : Z) (fuel : nat) :
  valid_input n at_ bt ->
  Forall (fun b => b < Sjf.SENTINEL) bt ->
  (choice = 1 /\ (Sjf.NonPreemptive.enough_fuel n at_ <= fuel)%nat) \/
  (choice = 2 /\ (Sjf.Preemptive.enough_fuel at_ bt <= fuel)%nat) ->
  exists r,
    Sjf.main n at_ bt fuel choice = Some r /\
    Sjf.printed r = Sjf.Report (Sjf.table n at_ bt (Sjf.ct r) (Sjf.tat r) (Sjf.wt r)) /\
    length (Sjf.table n at_ bt (Sjf.ct r) (Sjf.tat r) (Sjf.wt r)) = n /\
    (Sjf.stores r).*1 ≡ₚ seq 0 n /\
    forall i, (i < n)%nat ->
      Sjf.table n at_ bt (Sjf.ct r) (Sjf.tat r) (Sjf.wt r) !! i =
        Some (Z.of_nat i + 1, at_ !!! i, bt !!! i,
              Sjf.ct r !!! i, Sjf.tat r !!! i, Sjf.wt r !!! i) /\
      Sjf.tat r !!! i = Sjf.ct r !!! i - at_ !!! i /\
      Sjf.wt r !!! i = Sjf.tat r !!! i - bt !!! i /\
      0 <= Sjf.wt r !!! i.
Proof.
  intros Hv Hb Hmode.
  assert (Htable : forall c t w,
    length (Sjf.table n at_ bt c t w) = n /\
    forall i, (i < n)%nat ->
      Sjf.table n at_ bt c t w !! i =
      Some (Z.of_nat i + 1, at_ !!! i, bt !!! i, c !!! i, t !!! i, w !!! i)).
  { intros c t w. unfold Sjf.table. split.
    - by rewrite length_fmap, length_seq.
    - intros i Hi. rewrite list_lookup_fmap, lookup_seq_lt by done. done. }
  unfold Sjf.main.
  destruct Hmode as [[-> Hfuel] | [-> Hfuel]]; simpl.
  - destruct (NonPreemptiveProofs.np_run_spec n at_ bt Hv Hb fuel Hfuel)
      as (s & -> & Hperm & _ & Hmet).
    simpl. eexists. split; [reflexivity|]. simpl.
    destruct (Htable (Sjf.NonPreemptive.ct s) (Sjf.NonPreemptive.tat s)
                (Sjf.NonPreemptive.wt s)) as [Hlen Hrow].
    split_and!; try done.
    intros i Hi. destruct (Hmet i Hi) as (H1 & H2 & H3 & _).
    split_and!; try done. by apply Hrow.
  - destruct (PreemptiveProofs.srtf_run_spec n at_ bt Hv Hb fuel Hfuel)
      as (s & -> & Hperm & _ & Hmet).
    simpl. eexists. split; [reflexivity|]. simpl.
    destruct (Htable (Sjf.Preemptive.ct s) (Sjf.Preemptive.tat s)
                (Sjf.Preemptive.wt s)) as [Hlen Hrow].
    split_and!; try done.
    intros i Hi. destruct (Hmet i Hi) as (H1 & H2 & H3 & _).
    split_and!; try done. by apply Hrow.
Qed.

Lemma sjf_main_prints_table_witness :
  exists r,
    Sjf.main 3 [0;1;2] [8;4;2] 20 2 = Some r /\
    Sjf.printed r =
      Sjf.Report (Sjf.table 3 [0;1;2] [8;4;2] (Sjf.ct r) (Sjf.tat r) (Sjf.wt r)) /\
    length (Sjf.table 3 [0;1;2] [8;4;2] (Sjf.ct r) (Sjf.tat r) (Sjf.wt r)) = 3%nat.
Proof.
  assert (Hv : valid_input 3 [0;1;2] [8;4;2]).
  { split; [reflexivity | reflexivity | | | ].
    - repeat constructor; lia.
    - repeat constructor; lia.
    - vm_compute. discriminate. }
  assert (Hb : Forall (fun b => b < Sjf.SENTINEL) [8;4;2]).
  { repeat constructor; reflexivity. }
  destruct (sjf_main_prints_table 3 [0;1;2] [8;4;2] 2 20 Hv Hb)
    as (r & Hrun & Hprint & Hlen & _).
  - right. split; [reflexivity | vm_compute; lia].
  - exists r. split; [exact Hrun|]. split; [exact Hprint | exact Hlen].
Defined.

(** X13: in the FCFS table the first row never waits, and every later row
    waits exactly as long as the row above it is still running when it
    arrives (0 if that row has completed by then); the clock pid.cpp ends
    with is the completion time of the last row. *)
Theorem fcfs_waiting_times (n : nat) (arrival burst : list Z) :
  valid_input n arrival burst ->
  let p := (Fcfs.fcfs n arrival burst).1 in
  let s := (Fcfs.fcfs n arrival burst).2 in
  (forall j, (j < n)%nat ->
     Fcfs.wt s !!! j =
     match j with
     | O => 0
     | S j' => Z.max 0 (Fcfs.ct s !!! j' - Fcfs.at_ p !!! j)
     end) /\
  ((0 < n)%nat -> Fcfs.time s = Fcfs.ct s !!! (n - 1)%nat).
Proof.
  intros Hv p s. subst p s. unfold Fcfs.fcfs. cbn [fst snd].
  set (p := Fcfs.sort_by_arrival n _).
  assert (Hvp : valid_input n (Fcfs.at_ p) (Fcfs.bt p)).
  { by apply FcfsProofs.sort_by_arrival_valid. }
  exact (FcfsMore.simulate_waits n p Hvp).
Qed.

Lemma fcfs_waiting_times_witness :
  valid_input 3 [4;0;1] [2;3;1] /\
  Fcfs.wt (Fcfs.fcfs 3 [4;0;1] [2;3;1]).2 !!! 1%nat =
  Z.max 0 (Fcfs.ct (Fcfs.fcfs 3 [4;0;1] [2;3;1]).2 !!! 0%nat -
           Fcfs.at_ (Fcfs.fcfs 3 [4;0;1] [2;3;1]).1 !!! 1%nat).
Proof.
  assert (Hv : valid_input 3 [4;0;1] [2;3;1]).
  { split; [reflexivity | reflexivity | | | ].
    - repeat constructor; lia.
    - repeat constructor; lia.
    - vm_compute. discriminate. }
  split; [exact Hv|].
  apply (proj1 (fcfs_waiting_times 3 [4;0;1] [2;3;1] Hv) 1%nat). lia.
Defined.

(** X14: on a valid input with every burst time below 10^9 and every
    record arriving at time 0, the second branch ends, and it also
    completes the records in order of burst time, equal burst times in
    order of index. *)
Theorem srtf_shortest_job_first (n : nat) (at_ bt : list Z) :
  valid_input n at_ bt ->
  Forall (fun b => b < Sjf.SENTINEL) bt ->
  Forall (fun a => a = 0) at_ ->
  (exists s,
     Sjf.Preemptive.loop n at_ bt (Sjf.Preemptive.enough_fuel at_ bt)
       (Sjf.Preemptive.init n bt) = Some s) /\
  (forall fuel s,
     Sjf.Preemptive.loop n at_ bt fuel (Sjf.Preemptive.init n bt) = Some s ->
     forall i j, (i < n)%nat -> (j < n)%nat -> before bt i j ->
       Sjf.Preemptive.ct s !!! i < Sjf.Preemptive.ct s !!! j).
Proof.
  intros Hv Hb Hz. split.
  - destruct (PreemptiveProofs.srtf_run_spec n at_ bt Hv Hb _ (Nat.le_refl _))
      as (s & Hrun & _).
    by exists s.
  - intros fuel s Hrun i j Hi Hj Hij.
    destruct (PreemptiveMore.srtf_run_sequential n at_ bt Hv Hb fuel s Hrun)
      as (Hzero & _).
    destruct (PreemptiveMore.srtf_run_shortest_first n at_ bt Hv Hb Hz fuel s Hrun)
      as (_ & _ & _ & Hord).
    apply Hord; try done; by apply Hzero.
Qed.

Lemma srtf_shortest_job_first_witness :
  let s := Nat.iter 9 (Sjf.Preemptive.body 3 [0;0;0] [5;2;2])
             (Sjf.Preemptive.init 3 [5;2;2]) in
  Sjf.Preemptive.ct s !!! 1%nat < Sjf.Preemptive.ct s !!! 2%nat /\
  Sjf.Preemptive.ct s !!! 2%nat < Sjf.Preemptive.ct s !!! 0%nat.
Proof.
  assert (Hv : valid_input 3 [0;0;0] [5;2;2]).
  { split; [reflexivity | reflexivity | | | ].
    - repeat constructor; lia.
    - repeat constructor; lia.
    - vm_compute. discriminate. }
  assert (Hb : Forall (fun b => b < Sjf.SENTINEL) [5;2;2])
    by (repeat constructor).
  assert (Hz : Forall (fun a => a = 0) [0;0;0]) by repeat constructor.
  assert (Hrun : Sjf.Preemptive.loop 3 [0;0;0] [5;2;2] 9
                   (Sjf.Preemptive.init 3 [5;2;2]) =
                 Some (Nat.iter 9 (Sjf.Preemptive.body 3 [0;0;0] [5;2;2])
                         (Sjf.Preemptive.init 3 [5;2;2]))).
  { vm_compute. reflexivity. }
  destruct (srtf_shortest_job_first 3 [0;0;0] [5;2;2] Hv Hb Hz) as [_ Hord].
  split.
  - apply (Hord 9%nat _ Hrun 1%nat 2%nat);
      [lia | lia |]. right. split; [reflexivity | lia].
  - apply (Hord 9%nat _ Hrun 2%nat 0%nat);
      [lia | lia |]. left. reflexivity.
Defined.

(** X15: on a valid input with every burst time below 10^9 the second
    branch ends, and it advances the clock by exactly one per turn of its
    loop, idle or not: after k turns the clock shows k, the loop test
    holds before each turn taken, and the state the loop ends in is
    reached after as many turns as the final clock shows, which is at most
    the last arrival plus the total burst time. *)
Theorem srtf_one_tick_per_turn (n : nat) (at_ bt : list Z) :
  valid_input n at_ bt ->
  Forall (fun b => b < Sjf.SENTINEL) bt ->
  (exists s,
     Sjf.Preemptive.loop n at_ bt (Sjf.Preemptive.enough_fuel at_ bt)
       (Sjf.Preemptive.init n bt) = Some s) /\
  (forall fuel s,
     Sjf.Preemptive.loop n at_ bt fuel (Sjf.Preemptive.init n bt) = Some s ->
     let turns := Z.to_nat (Sjf.Preemptive.time s) in
     s = Nat.iter turns (Sjf.Preemptive.body n at_ bt) (Sjf.Preemptive.init n bt) /\
     (forall k, (k <= turns)%nat ->
        Sjf.Preemptive.time
          (Nat.iter k (Sjf.Preemptive.body n at_ bt) (Sjf.Preemptive.init n bt)) =
        Z.of_nat k) /\
     (forall k, (k < turns)%nat ->
        Sjf.Preemptive.completed
          (Nat.iter k (Sjf.Preemptive.body n at_ bt) (Sjf.Preemptive.init n bt)) <
        Z.of_nat n) /\
     0 <= Sjf.Preemptive.time s <= list_max_Z at_ + list_sum_Z bt).
Proof.
  intros Hv Hb. split.
  - destruct (PreemptiveProofs.srtf_run_spec n at_ bt Hv Hb _ (Nat.le_refl _))
      as (s & Hrun & _).
    by exists s.
  - intros fuel s Hrun turns.
    destruct (PreemptiveMore.srtf_loop_turns n at_ bt Hv Hb fuel _ _
                (PreemptiveProofs.srtf_init_inv n at_ bt Hv) Hrun)
      as (k & Hk & Htime & Hlive).
    assert (Hend : Sjf.Preemptive.time s = Z.of_nat k).
    { rewrite Hk. rewrite (Htime k) by lia. simpl. lia. }
    destruct (PreemptiveMore.srtf_run_sequential n at_ bt Hv Hb fuel s Hrun)
      as (Hzero & Hinv & _).
    destruct Hinv as (Hlr & _ & _ & _ & H0 & Hup & _).
    assert (Hsum : 0 <= list_sum_Z (Sjf.Preemptive.rt s)).
    { apply list_sum_Z_nonneg_lookup. intros i Hi. rewrite Hzero; lia. }
    assert (Hturns : turns = k) by (unfold turns; lia).
    rewrite Hturns. split_and!.
    + exact Hk.
    + intros j Hj. rewrite (Htime j) by lia. simpl. lia.
    + intros j Hj. by apply Hlive.
    + lia.
    + lia.
Qed.

Lemma srtf_one_tick_per_turn_witness :
  let s := Nat.iter 14 (Sjf.Preemptive.body 3 [0;1;2] [8;4;2])
             (Sjf.Preemptive.init 3 [8;4;2]) in
  0 <= Sjf.Preemptive.time s <= 16.
Proof.
  assert (Hv : valid_input 3 [0;1;2] [8;4;2]).
  { split; [reflexivity | reflexivity | | | ].
    - repeat constructor; lia.
    - repeat constructor; lia.
    - vm_compute. discriminate. }
  assert (Hb : Forall (fun b => b < Sjf.SENTINEL) [8;4;2])
    by (repeat constructor).
  refine (proj2 (proj2 (proj2
           (proj2 (srtf_one_tick_per_turn 3 [0;1;2] [8;4;2] Hv Hb) 14%nat _ _)))).
  vm_compute. reflexivity.
Defined.
